(** * Mesh-to-particle interpolation kernels and integer powers of AMReX

    A shallow embedding of
    - [Src/Particle/AMReX_TracerParticle_mod_K.H]: the orthogonal kernel
      [linear_interpolate_to_particle], its terrain-fitted sibling
      [linear_interpolate_to_particle_z] and their wrappers;
    - [AMReX_Math.H]: [amrex::Math::powi].

    Conventions of the embedding.
    - [amrex::Real] and [amrex::ParticleReal] are the rationals [Q]: the
      kernels are studied in exact arithmetic, rounding is not modelled.
    - [int] is [Z]; every integer the kernels form is taken to fit its type.
    - [AMREX_SPACEDIM] is a compile-time constant; here it is the first
      argument [dim] of every kernel, and the [AMREX_D_TERM] / [#if] blocks
      become a [match] on it.
    - a C array or a pointer used as an array is a function from its index
      [Z]; a write [a[i] = x] is [store a i x].  The output buffer [val] is
      threaded through the kernels: they take the caller's buffer and return
      the buffer as it is after the call. *)

From Stdlib Require Import ZArith QArith Qround Lia Lqa List String Bool.
From Stdlib Require Import Qpower.
From Stdlib Require Import PrimFloat SpecFloat FloatOps Uint63.
From Equations Require Import Equations.
Import ListNotations.

Local Open Scope Z_scope.
Local Open Scope Q_scope.

(** ** Scalars and conversions *)

Definition Real : Type := Q.
Definition ParticleReal : Type := Q.

(** [std::floor], imported into [amrex::Math] by [using std::floor]: the
    largest integral value not above [x], returned as a real. *)
Definition floor (x : Real) : Real := inject_Z (Qfloor x).

(** [static_cast<int>(x)] on a real: truncation toward zero. *)
Definition static_cast_int (x : Real) : Z :=
  Z.quot (Qnum x) (Zpos (Qden x)).

(** [static_cast<Real>(i)] on an [int]. *)
Definition static_cast_Real (i : Z) : Real := inject_Z i.

(** [!i] on an [int]: true exactly when [i] is zero. *)
Definition lnot (i : Z) : bool := Z.eqb i 0.

(** [static_cast<Real>(b)] on a [bool]. *)
Definition bool_to_Real (b : bool) : Real := if b then 1 else 0.

(** A [bool] promoted to [int] in an integer sum. *)
Definition bool_to_int (b : bool) : Z := if b then 1%Z else 0%Z.

(** ** Arrays, loops *)

Definition store {A : Type} (a : Z -> A) (i : Z) (x : A) : Z -> A :=
  fun j => if Z.eqb j i then x else a j.

(** A brace-initialised local array [T a[] = {x0, x1, ...}]. *)
Definition array_of (l : list Real) : Z -> Real :=
  fun i => nth (Z.to_nat i) l 0.

(** [for (int i = lo; i < hi; ++i) body], the loop state passed along. *)
Fixpoint for_loop {S : Type} (n : nat) (i : Z) (body : Z -> S -> S) (s : S) : S :=
  match n with
  | O => s
  | Datatypes.S n' => for_loop n' (i + 1)%Z body (body i s)
  end.

Definition for_range {S : Type} (lo hi : Z) (body : Z -> S -> S) (s : S) : S :=
  for_loop (Z.to_nat (hi - lo)) lo body s.

(** ** Data model *)

Inductive SpaceDim : Type := Dim1 | Dim2 | Dim3.

Definition AMREX_SPACEDIM (dim : SpaceDim) : Z :=
  match dim with Dim1 => 1%Z | Dim2 => 2%Z | Dim3 => 3%Z end.

(** [amrex::IntVect]: one [int] per axis. *)
Definition IntVect : Type := Z -> Z.

Definition TheZeroVector : IntVect := fun _ => 0%Z.
Definition TheUnitVector : IntVect := fun _ => 1%Z.

(** [amrex::GpuArray<T,AMREX_SPACEDIM>]. *)
Definition GpuArray (A : Type) : Type := Z -> A.

(** [amrex::Array4<Real const>]: the read-only accessor [(i,j,k,n)]; no
    bounds are checked by the kernels, so it is a total function. *)
Definition Array4 : Type := Z -> Z -> Z -> Z -> Real.

(** Modelled from the spec: [Array4::operator()(IntVect const&, int)] of
    AMReX_Array4.H, which is not among the sources: the field array maps an
    integer index vector of the build's dimension and a component to a real;
    the axes a lower-dimensional build does not have are indexed at 0, as
    the terrain kernel does by hand for [k0] in its 2D branch. *)
Definition at_IntVect (a : Array4) (i j k : Z) (n : Z) : Real := a i j k n.

(** The particle as the kernels read it: [p.pos(axis)] and [p.idata(i)]. *)
Record Particle : Type := mkParticle {
  pos : Z -> ParticleReal;
  idata : Z -> Z
}.

(** ** Regular coordinates *)

Section Orthogonal.

Variable dim : SpaceDim.
Variable p : Particle.
Variables plo dxi : GpuArray Real.

(** [lx], [ly], [lz] of one array: the position in index space along
    [axis], shifted by one half where the array is not nodal. *)
Definition frac_index (nodal : IntVect) (axis : Z) : Real :=
  (pos p axis - plo axis) * dxi axis
    - bool_to_Real (lnot (nodal axis)) * (1 # 2).

(** [i0], [j0], [k0]. *)
Definition lower_corner (l : Real) : Z := static_cast_int (floor l).

(** [xint], [yint], [zint]. *)
Definition remainder (l : Real) : Real := l - static_cast_Real (lower_corner l).

(** [sx], [sy], [sz]. *)
Definition weight_pair (xint : Real) : Z -> Real := array_of [1 - xint; xint].

(** The corner loops of one component: [val[ctr] += data * weights] over
    the corners, [ii] innermost. *)
Definition accumulate_corners (arr : Array4) (nodal : IntVect) (comp ctr : Z)
    (val : Z -> ParticleReal) : Z -> ParticleReal :=
  match dim with
  | Dim1 =>
      let lx := frac_index nodal 0 in
      let i0 := lower_corner lx in
      let sx := weight_pair (remainder lx) in
      for_range 0 (1 + 1) (fun ii val =>
        store val ctr (val ctr + at_IntVect arr (i0 + ii) 0 0 comp * sx ii)) val
  | Dim2 =>
      let lx := frac_index nodal 0 in
      let ly := frac_index nodal 1 in
      let i0 := lower_corner lx in
      let j0 := lower_corner ly in
      let sx := weight_pair (remainder lx) in
      let sy := weight_pair (remainder ly) in
      for_range 0 (1 + 1) (fun jj val =>
        for_range 0 (1 + 1) (fun ii val =>
          store val ctr
            (val ctr + at_IntVect arr (i0 + ii) (j0 + jj) 0 comp * sx ii * sy jj))
          val) val
  | Dim3 =>
      let lx := frac_index nodal 0 in
      let ly := frac_index nodal 1 in
      let lz := frac_index nodal 2 in
      let i0 := lower_corner lx in
      let j0 := lower_corner ly in
      let k0 := lower_corner lz in
      let sx := weight_pair (remainder lx) in
      let sy := weight_pair (remainder ly) in
      let sz := weight_pair (remainder lz) in
      for_range 0 (1 + 1) (fun kk val =>
        for_range 0 (1 + 1) (fun jj val =>
          for_range 0 (1 + 1) (fun ii val =>
            store val ctr
              (val ctr + at_IntVect arr (i0 + ii) (j0 + jj) (k0 + kk) comp
                           * sx ii * sy jj * sz kk))
            val) val) val
  end.

(** The body of the loop over components: [val[ctr] = 0], the corner
    loops, [ctr++]. *)
Definition component_body (arr : Array4) (nodal : IntVect) (comp : Z)
    (st : Z * (Z -> ParticleReal)) : Z * (Z -> ParticleReal) :=
  let (ctr, val) := st in
  let val := store val ctr 0 in
  let val := accumulate_corners arr nodal comp ctr val in
  ((ctr + 1)%Z, val).

(** The body of the loop over the arrays. *)
Definition array_body (data_arr : Z -> Array4) (is_nodal : Z -> IntVect)
    (start_comp ncomp : Z) (d : Z)
    (st : Z * (Z -> ParticleReal)) : Z * (Z -> ParticleReal) :=
  for_range start_comp ncomp (component_body (data_arr d) (is_nodal d)) st.

Definition linear_interpolate_to_particle
    (data_arr : Z -> Array4) (val : Z -> ParticleReal) (is_nodal : Z -> IntVect)
    (start_comp ncomp num_arrays : Z) : Z -> ParticleReal :=
  let ctr := 0%Z in
  snd (for_range 0 num_arrays (array_body data_arr is_nodal start_comp ncomp)
         (ctr, val)).

(** A pointer to a single object, [&data_arr] or [&is_nodal]. *)
Definition address_of {A : Type} (a : A) : Z -> A := fun _ => a.

Definition cic_interpolate_cc (data_arr : Array4) (val : Z -> ParticleReal)
    (M : Z) : Z -> ParticleReal :=
  let start_comp := 0%Z in
  let ncomp_per_array := M in
  let num_arrays := 1%Z in
  let is_nodal := TheZeroVector in
  linear_interpolate_to_particle (address_of data_arr) val (address_of is_nodal)
    start_comp ncomp_per_array num_arrays.

Definition cic_interpolate (data_arr : Array4) (val : Z -> ParticleReal)
    (M : Z) : Z -> ParticleReal :=
  cic_interpolate_cc data_arr val M.

Definition cic_interpolate_nd (data_arr : Array4) (val : Z -> ParticleReal)
    (M : Z) : Z -> ParticleReal :=
  let start_comp := 0%Z in
  let ncomp_per_array := M in
  let num_arrays := 1%Z in
  let is_nodal := TheUnitVector in
  linear_interpolate_to_particle (address_of data_arr) val (address_of is_nodal)
    start_comp ncomp_per_array num_arrays.

(** The local [IntVect is_nodal[AMREX_SPACEDIM]] of the face-centered
    wrappers after its initialisation loop; [uninit] is the array before. *)
Definition mac_is_nodal (uninit : Z -> IntVect) : Z -> IntVect :=
  for_range 0 (AMREX_SPACEDIM dim) (fun d is_nodal =>
    let is_nodal := store is_nodal d TheZeroVector in
    store is_nodal d (store (is_nodal d) d 1%Z)) uninit.

Definition mac_interpolate (data_arr : GpuArray Array4) (val : Z -> ParticleReal)
    : Z -> ParticleReal :=
  let start_comp := 0%Z in
  let ncomp_per_array := 1%Z in
  let num_arrays := AMREX_SPACEDIM dim in
  let is_nodal := mac_is_nodal (fun _ => TheZeroVector) in
  linear_interpolate_to_particle data_arr val is_nodal
    start_comp ncomp_per_array num_arrays.

End Orthogonal.


(** ** Terrain-fitted coordinates *)

(** What a call of the terrain-fitted kernel comes to: it returns with the
    output buffer, or [amrex::Abort] ends the program with a message, or
    a quotient was taken with a zero divisor, which has no real value. *)
Inductive Outcome (A : Type) : Type :=
| Returned (a : A)
| Aborted (msg : string)
| DivideByZero.
Arguments Returned {A} a.
Arguments Aborted {A} msg.
Arguments DivideByZero {A}.

Definition bind {A B : Type} (m : Outcome A) (f : A -> Outcome B) : Outcome B :=
  match m with
  | Returned a => f a
  | Aborted msg => Aborted msg
  | DivideByZero => DivideByZero
  end.

Notation "'do' x <- m ; f" := (bind m (fun x => f))
  (at level 10, x pattern, m at level 100, f at level 200).

(** [a / b] on reals. *)
Definition Real_div (a b : Real) : Outcome Real :=
  if Qeq_bool b 0 then DivideByZero else Returned (a / b).

(** A loop whose body may end the call. *)
Fixpoint for_loopM {S : Type} (n : nat) (i : Z) (body : Z -> S -> Outcome S) (s : S)
    : Outcome S :=
  match n with
  | O => Returned s
  | Datatypes.S n' => do s' <- body i s; for_loopM n' (i + 1)%Z body s'
  end.

Definition for_rangeM {S : Type} (lo hi : Z) (body : Z -> S -> Outcome S) (s : S)
    : Outcome S :=
  for_loopM (Z.to_nat (hi - lo)) lo body s.

Definition abort_message_1d : string :=
  (" Terrain fitted grid interpolation is not supported in 1D"
     ++ String (Ascii.ascii_of_nat 10) EmptyString)%string.

Section Terrain.

Variable dim : SpaceDim.
Variable p : Particle.
Variables plo dxi : GpuArray Real.
Variable height_arr : Array4.

(** [height_arr(i,j,k)]: component 0. *)
Definition height_at (i j k : Z) : Real := height_arr i j k 0%Z.

(** [!is_nodal[d][axis]] added to an index. *)
Definition stagger (nodal : IntVect) (axis : Z) : Z := bool_to_int (lnot (nodal axis)).

(** *** Two dimensions *)

(** The average of four height samples written out for [hlo_xlo], [hlo_xhi]
    and [ht[yctr]]; [k] is 0 throughout. *)
Definition height_2d (nodal : IntVect) (i j k : Z) : Real :=
  (1 # 4) * (height_at i j k
             + height_at (i + stagger nodal 0) j k
             + height_at i (j + stagger nodal 1) k
             + height_at (i + stagger nodal 0) (j + stagger nodal 1) k).

Definition height_at_px (nodal : IntVect) : Real :=
  let lx := frac_index p plo dxi nodal 0 in
  let i0 := lower_corner lx in
  let k := 0%Z in
  let j := idata p 0 in
  let hlo_xlo := height_2d nodal i0 j k in
  let hlo_xhi := height_2d nodal (i0 + 1) j k in
  let sx := weight_pair (remainder lx) in
  sx 0%Z * hlo_xlo + sx 1%Z * hlo_xhi.

Definition j0_2d (nodal : IntVect) : Z :=
  let j := idata p 0 in
  if Qle_bool (height_at_px nodal) (pos p 1) then j else (j - 1)%Z.

(** [ht[4]] after its two loops. *)
Definition ht_2d (nodal : IntVect) : Z -> Real :=
  let i0 := lower_corner (frac_index p plo dxi nodal 0) in
  let k := 0%Z in
  let j0 := j0_2d nodal in
  let yctr := 0%Z in
  snd (for_range 0 2 (fun ii st =>
         for_range 0 2 (fun jj (st : Z * (Z -> Real)) =>
           let (yctr, ht) := st in
           let ht := store ht yctr (height_2d nodal (i0 + ii) (j0 + jj) k) in
           ((yctr + 1)%Z, ht)) st)
         (yctr, fun _ => 0)).

(** [sy[4]]: the vertical weights, one pair per horizontal corner. *)
Definition sy_2d (nodal : IntVect) : Outcome (Z -> Real) :=
  let ht := ht_2d nodal in
  do hint_ilo <- Real_div (pos p 1 - ht 0%Z) (ht 1%Z - ht 0%Z);
  do hint_ihi <- Real_div (pos p 1 - ht 2%Z) (ht 3%Z - ht 2%Z);
  Returned (array_of [1 - hint_ilo; 1 - hint_ihi; hint_ilo; hint_ihi]).

Definition component_body_2d (arr : Array4) (nodal : IntVect) (sy : Z -> Real)
    (comp : Z) (st : Z * (Z -> ParticleReal)) : Z * (Z -> ParticleReal) :=
  let lx := frac_index p plo dxi nodal 0 in
  let i0 := lower_corner lx in
  let j0 := j0_2d nodal in
  let sx := weight_pair (remainder lx) in
  let (ctr, val) := st in
  let val := store val ctr 0 in
  let k0 := 0%Z in
  let sy_ctr := 0%Z in
  let val :=
    snd (for_range 0 (1 + 1) (fun jj st =>
           for_range 0 (1 + 1) (fun ii (st : Z * (Z -> ParticleReal)) =>
             let (sy_ctr, val) := st in
             let val := store val ctr
                          (val ctr + arr (i0 + ii)%Z (j0 + jj)%Z k0 comp
                                       * sx ii * sy sy_ctr) in
             ((sy_ctr + 1)%Z, val)) st)
           (sy_ctr, val)) in
  ((ctr + 1)%Z, val).

Definition array_body_2d (data_arr : Z -> Array4) (is_nodal : Z -> IntVect)
    (start_comp ncomp : Z) (d : Z) (st : Z * (Z -> ParticleReal))
    : Outcome (Z * (Z -> ParticleReal)) :=
  do sy <- sy_2d (is_nodal d);
  Returned (for_range start_comp ncomp
              (component_body_2d (data_arr d) (is_nodal d) sy) st).

(** *** Three dimensions *)

(** The average of eight height samples written out for [hlo[ilo]]. *)
Definition hlo_3d (nodal : IntVect) (i j k : Z) : Real :=
  (1 # 8) * (height_at i j k
             + height_at (i + stagger nodal 0) j k
             + height_at i (j + stagger nodal 1) k
             + height_at (i + stagger nodal 0) (j + stagger nodal 1) k
             + height_at i j (k + stagger nodal 2)
             + height_at (i + stagger nodal 0) j (k + stagger nodal 2)
             + height_at i (j + stagger nodal 1) (k + stagger nodal 2)
             + height_at (i + stagger nodal 0) (j + stagger nodal 1)
                 (k + stagger nodal 2)).

(** The loops over [ii], [jj] that fill [hlo[4]] and sum [height_at_pxy];
    the state is [(ilo, hlo, height_at_pxy)]. *)
Definition hlo_loops (nodal : IntVect) : Z * (Z -> Real) * Real :=
  let lx := frac_index p plo dxi nodal 0 in
  let ly := frac_index p plo dxi nodal 1 in
  let i0 := lower_corner lx in
  let j0 := lower_corner ly in
  let k := idata p 0 in
  let sx := weight_pair (remainder lx) in
  let sy := weight_pair (remainder ly) in
  let ilo := 0%Z in
  let height_at_pxy := 0 in
  for_range 0 2 (fun ii st =>
    for_range 0 2 (fun jj (st : Z * (Z -> Real) * Real) =>
      let '(ilo, hlo, height_at_pxy) := st in
      let hlo := store hlo ilo (hlo_3d nodal (i0 + ii) (j0 + jj) k) in
      let height_at_pxy := height_at_pxy + hlo ilo * sx ii * sy jj in
      ((ilo + 1)%Z, hlo, height_at_pxy)) st)
    (ilo, fun _ => 0, height_at_pxy).

Definition height_at_pxy (nodal : IntVect) : Real := snd (hlo_loops nodal).

Definition k0_3d (nodal : IntVect) : Z :=
  let k := idata p 0 in
  if Qle_bool (height_at_pxy nodal) (pos p 2) then k else (k - 1)%Z.

(** The average of eight height samples written out for [ht[zctr]]. *)
Definition height_3d (nodal : IntVect) (i j k : Z) : Real :=
  (1 # 8) * (height_at i j k
             + height_at i j (k + stagger nodal 2)
             + height_at i (j + stagger nodal 1) k
             + height_at i (j + stagger nodal 1) (k + stagger nodal 2)
             + height_at (i + stagger nodal 0) j k
             + height_at (i + stagger nodal 0) j (k + stagger nodal 2)
             + height_at (i + stagger nodal 0) (j + stagger nodal 1) k
             + height_at (i + stagger nodal 0) (j + stagger nodal 1)
                 (k + stagger nodal 2)).

(** [ht[8]] after its three loops. *)
Definition ht_3d (nodal : IntVect) : Z -> Real :=
  let i0 := lower_corner (frac_index p plo dxi nodal 0) in
  let j0 := lower_corner (frac_index p plo dxi nodal 1) in
  let k0 := k0_3d nodal in
  let zctr := 0%Z in
  snd (for_range 0 2 (fun ii st =>
         for_range 0 2 (fun jj st =>
           for_range 0 2 (fun kk (st : Z * (Z -> Real)) =>
             let (zctr, ht) := st in
             let ht := store ht zctr (height_3d nodal (i0 + ii) (j0 + jj) (k0 + kk)) in
             ((zctr + 1)%Z, ht)) st) st)
         (zctr, fun _ => 0)).

(** [sz[8]]: the vertical weights, one pair per horizontal corner. *)
Definition sz_3d (nodal : IntVect) : Outcome (Z -> Real) :=
  let ht := ht_3d nodal in
  do hint_ilojlo <- Real_div (pos p 2 - ht 0%Z) (ht 1%Z - ht 0%Z);
  do hint_ilojhi <- Real_div (pos p 2 - ht 2%Z) (ht 3%Z - ht 2%Z);
  do hint_ihijlo <- Real_div (pos p 2 - ht 4%Z) (ht 5%Z - ht 4%Z);
  do hint_ihijhi <- Real_div (pos p 2 - ht 6%Z) (ht 7%Z - ht 6%Z);
  Returned (array_of [1 - hint_ilojlo; 1 - hint_ihijlo;
                      1 - hint_ilojhi; 1 - hint_ihijhi;
                      hint_ilojlo; hint_ihijlo; hint_ilojhi; hint_ihijhi]).

Definition component_body_3d (arr : Array4) (nodal : IntVect) (sz : Z -> Real)
    (comp : Z) (st : Z * (Z -> ParticleReal)) : Z * (Z -> ParticleReal) :=
  let lx := frac_index p plo dxi nodal 0 in
  let ly := frac_index p plo dxi nodal 1 in
  let i0 := lower_corner lx in
  let j0 := lower_corner ly in
  let k0 := k0_3d nodal in
  let sx := weight_pair (remainder lx) in
  let sy := weight_pair (remainder ly) in
  let (ctr, val) := st in
  let val := store val ctr 0 in
  let sz_ctr := 0%Z in
  let val :=
    snd (for_range 0 (1 + 1) (fun kk st =>
           for_range 0 (1 + 1) (fun jj st =>
             for_range 0 (1 + 1) (fun ii (st : Z * (Z -> ParticleReal)) =>
               let (sz_ctr, val) := st in
               let val := store val ctr
                            (val ctr + arr (i0 + ii)%Z (j0 + jj)%Z (k0 + kk)%Z comp
                                         * sx ii * sy jj * sz sz_ctr) in
               ((sz_ctr + 1)%Z, val)) st) st)
           (sz_ctr, val)) in
  ((ctr + 1)%Z, val).

Definition array_body_3d (data_arr : Z -> Array4) (is_nodal : Z -> IntVect)
    (start_comp ncomp : Z) (d : Z) (st : Z * (Z -> ParticleReal))
    : Outcome (Z * (Z -> ParticleReal)) :=
  do sz <- sz_3d (is_nodal d);
  Returned (for_range start_comp ncomp
              (component_body_3d (data_arr d) (is_nodal d) sz) st).

(** *** The kernel and its wrappers *)

Definition linear_interpolate_to_particle_z
    (data_arr : Z -> Array4) (val : Z -> ParticleReal) (is_nodal : Z -> IntVect)
    (start_comp ncomp num_arrays : Z) : Outcome (Z -> ParticleReal) :=
  match dim with
  | Dim1 => Aborted abort_message_1d
  | Dim2 =>
      let ctr := 0%Z in
      do st <- for_rangeM 0 num_arrays
                 (array_body_2d data_arr is_nodal start_comp ncomp) (ctr, val);
      Returned (snd st)
  | Dim3 =>
      let ctr := 0%Z in
      do st <- for_rangeM 0 num_arrays
                 (array_body_3d data_arr is_nodal start_comp ncomp) (ctr, val);
      Returned (snd st)
  end.

Definition cic_interpolate_cc_mapped_z (data_arr : Array4)
    (val : Z -> ParticleReal) (M : Z) : Outcome (Z -> ParticleReal) :=
  let icomp := 0%Z in
  let ncomp_per_array := M in
  let num_arrays := 1%Z in
  let is_nodal := TheZeroVector in
  linear_interpolate_to_particle_z (address_of data_arr) val (address_of is_nodal)
    icomp ncomp_per_array num_arrays.

Definition cic_interpolate_mapped_z (data_arr : Array4)
    (val : Z -> ParticleReal) (M : Z) : Outcome (Z -> ParticleReal) :=
  cic_interpolate_cc_mapped_z data_arr val M.

Definition cic_interpolate_nd_mapped_z (data_arr : Array4)
    (val : Z -> ParticleReal) (M : Z) : Outcome (Z -> ParticleReal) :=
  let icomp := 0%Z in
  let ncomp_per_array := M in
  let num_arrays := 1%Z in
  let is_nodal := TheUnitVector in
  linear_interpolate_to_particle_z (address_of data_arr) val (address_of is_nodal)
    icomp ncomp_per_array num_arrays.

Definition mac_interpolate_mapped_z (data_arr : GpuArray Array4)
    (val : Z -> ParticleReal) : Outcome (Z -> ParticleReal) :=
  let icomp := 0%Z in
  let ncomp_per_array := 1%Z in
  let num_arrays := AMREX_SPACEDIM dim in
  let is_nodal := mac_is_nodal dim (fun _ => TheZeroVector) in
  linear_interpolate_to_particle_z data_arr val is_nodal
    icomp ncomp_per_array num_arrays.

End Terrain.

(** ** Integer powers: [amrex::Math::powi] *)

Section Powi.

(** The value type [T] of the template with the operations [powi] uses:
    [T(1)], [*] and [/]. *)
Variable T : Type.
Variable one : T.
Variables mul div : T -> T -> T.

Definition powi_measure (Power : Z) : nat :=
  Z.to_nat (if Z.ltb Power 0 then 1 - Power else Power)%Z.

(** [powi<Power>(x)]: the template parameter is the first argument, each
    [if constexpr] a test on it; [%] and [/] on [int] truncate.  The
    [enable_if] of the template refuses a negative [Power] on an integral
    [T] when the code is compiled. *)
Equations? powi (Power : Z) (x : T) : T by wf (powi_measure Power) lt :=
  powi Power x with Z_lt_dec Power 0 := {
    | left _ := div one (powi (- Power)%Z x)
    | right _ with Z.eq_dec Power 0 := {
      | left _ := one
      | right _ with Z.eq_dec Power 1 := {
        | left _ := x
        | right _ with Z.eq_dec Power 2 := {
          | left _ := mul x x
          | right _ with Z.eq_dec (Z.rem Power 2) 0 := {
            | left _ := powi 2%Z (powi (Z.quot Power 2) x)
            | right _ := mul x (powi (Power - 1)%Z x) } } } } }.
Proof.
  all: unfold powi_measure.
  - destruct (Z.ltb_spec Power 0); destruct (Z.ltb_spec (- Power) 0); lia.
  - destruct (Z.ltb_spec Power 0); destruct (Z.ltb_spec (Z.quot Power 2) 0);
      try lia;
      pose proof (Z.quot_lt Power 2); pose proof (Z.quot_pos Power 2); lia.
  - destruct (Z.ltb_spec Power 0); simpl; lia.
  - destruct (Z.ltb_spec Power 0); destruct (Z.ltb_spec (Power - 1) 0); lia.
Qed.

(** The [n]-fold product [x * x * ... * x], the empty product being [T(1)]. *)
Fixpoint repeated_product (n : nat) (x : T) : T :=
  match n with
  | O => one
  | Datatypes.S n' => mul x (repeated_product n' x)
  end.

End Powi.


(** ** Closed forms used to state what the kernels compute *)

(** The value the corner loops leave in [val[ctr]] when they start from
    [acc]: the additions in the order the loops perform them. *)
Definition corner_sum (dim : SpaceDim) (p : Particle) (plo dxi : GpuArray Real)
    (arr : Array4) (nodal : IntVect) (comp : Z) (acc : Real) : Real :=
  let l := frac_index p plo dxi nodal in
  let i0 := lower_corner (l 0%Z) in
  let j0 := lower_corner (l 1%Z) in
  let k0 := lower_corner (l 2%Z) in
  let sx := weight_pair (remainder (l 0%Z)) in
  let sy := weight_pair (remainder (l 1%Z)) in
  let sz := weight_pair (remainder (l 2%Z)) in
  match dim with
  | Dim1 =>
      acc + arr (i0 + 0)%Z 0%Z 0%Z comp * sx 0%Z
          + arr (i0 + 1)%Z 0%Z 0%Z comp * sx 1%Z
  | Dim2 =>
      acc + arr (i0 + 0)%Z (j0 + 0)%Z 0%Z comp * sx 0%Z * sy 0%Z
          + arr (i0 + 1)%Z (j0 + 0)%Z 0%Z comp * sx 1%Z * sy 0%Z
          + arr (i0 + 0)%Z (j0 + 1)%Z 0%Z comp * sx 0%Z * sy 1%Z
          + arr (i0 + 1)%Z (j0 + 1)%Z 0%Z comp * sx 1%Z * sy 1%Z
  | Dim3 =>
      acc + arr (i0 + 0)%Z (j0 + 0)%Z (k0 + 0)%Z comp * sx 0%Z * sy 0%Z * sz 0%Z
          + arr (i0 + 1)%Z (j0 + 0)%Z (k0 + 0)%Z comp * sx 1%Z * sy 0%Z * sz 0%Z
          + arr (i0 + 0)%Z (j0 + 1)%Z (k0 + 0)%Z comp * sx 0%Z * sy 1%Z * sz 0%Z
          + arr (i0 + 1)%Z (j0 + 1)%Z (k0 + 0)%Z comp * sx 1%Z * sy 1%Z * sz 0%Z
          + arr (i0 + 0)%Z (j0 + 0)%Z (k0 + 1)%Z comp * sx 0%Z * sy 0%Z * sz 1%Z
          + arr (i0 + 1)%Z (j0 + 0)%Z (k0 + 1)%Z comp * sx 1%Z * sy 0%Z * sz 1%Z
          + arr (i0 + 0)%Z (j0 + 1)%Z (k0 + 1)%Z comp * sx 0%Z * sy 1%Z * sz 1%Z
          + arr (i0 + 1)%Z (j0 + 1)%Z (k0 + 1)%Z comp * sx 1%Z * sy 1%Z * sz 1%Z
  end.

(** The interpolated value of component [comp] of one array. *)
Definition interpolated (dim : SpaceDim) (p : Particle) (plo dxi : GpuArray Real)
    (arr : Array4) (nodal : IntVect) (comp : Z) : Real :=
  corner_sum dim p plo dxi arr nodal comp 0.

(** The number of components the loop over [comp] visits. *)
Definition comps_visited (start_comp ncomp : Z) : Z := Z.max 0 (ncomp - start_comp).

(** The state of the loops that fill the buffer: [ctr] and [val]. *)
Definition WriteState : Type := (Z * (Z -> ParticleReal))%type.

(** ** Corner weights *)

Definition sum_list (l : list Real) : Real := fold_right Qplus 0 l.

(** The products of per-axis weights the corner loops multiply the field
    by, in the order the loops visit the corners. *)
Definition corner_weights (dim : SpaceDim) (p : Particle) (plo dxi : GpuArray Real)
    (nodal : IntVect) : list Real :=
  let l := frac_index p plo dxi nodal in
  let sx := weight_pair (remainder (l 0%Z)) in
  let sy := weight_pair (remainder (l 1%Z)) in
  let sz := weight_pair (remainder (l 2%Z)) in
  match dim with
  | Dim1 => [sx 0%Z; sx 1%Z]
  | Dim2 => [sx 0%Z * sy 0%Z; sx 1%Z * sy 0%Z; sx 0%Z * sy 1%Z; sx 1%Z * sy 1%Z]
  | Dim3 => [sx 0%Z * sy 0%Z * sz 0%Z; sx 1%Z * sy 0%Z * sz 0%Z;
             sx 0%Z * sy 1%Z * sz 0%Z; sx 1%Z * sy 1%Z * sz 0%Z;
             sx 0%Z * sy 0%Z * sz 1%Z; sx 1%Z * sy 0%Z * sz 1%Z;
             sx 0%Z * sy 1%Z * sz 1%Z; sx 1%Z * sy 1%Z * sz 1%Z]
  end.

(** The cells of the stencil, in the same order. *)
Definition corner_cells (dim : SpaceDim) (p : Particle) (plo dxi : GpuArray Real)
    (nodal : IntVect) : list (Z * Z * Z) :=
  let l := frac_index p plo dxi nodal in
  let i0 := lower_corner (l 0%Z) in
  let j0 := lower_corner (l 1%Z) in
  let k0 := lower_corner (l 2%Z) in
  match dim with
  | Dim1 => [(i0 + 0, 0, 0); (i0 + 1, 0, 0)]%Z
  | Dim2 => [(i0 + 0, j0 + 0, 0); (i0 + 1, j0 + 0, 0);
             (i0 + 0, j0 + 1, 0); (i0 + 1, j0 + 1, 0)]%Z
  | Dim3 => [(i0 + 0, j0 + 0, k0 + 0); (i0 + 1, j0 + 0, k0 + 0);
             (i0 + 0, j0 + 1, k0 + 0); (i0 + 1, j0 + 1, k0 + 0);
             (i0 + 0, j0 + 0, k0 + 1); (i0 + 1, j0 + 0, k0 + 1);
             (i0 + 0, j0 + 1, k0 + 1); (i0 + 1, j0 + 1, k0 + 1)]%Z
  end.

(** Field values at [cells] weighted by [weights] and summed. *)
Definition weighted_sum (arr : Array4) (comp : Z) (cells : list (Z * Z * Z))
    (weights : list Real) : Real :=
  sum_list (map (fun cw : Z * Z * Z * Real =>
                   let '(i, j, k, w) := cw in arr i j k comp * w)
              (combine cells weights)).

(** ** Closed forms for the terrain-fitted kernel *)

Section TerrainForms.

Variable p : Particle.
Variables plo dxi : GpuArray Real.
Variable height_arr : Array4.
Variable nodal : IntVect.

(** The reconstructed height one level up less the one at the resolved
    level, at the horizontal corner [ii] (2D) or [(ii, jj)] (3D): the
    divisor of the vertical weight of that corner. *)
Definition column_thickness_2d (ii : Z) : Real :=
  let i0 := lower_corner (frac_index p plo dxi nodal 0) in
  let j0 := j0_2d p plo dxi height_arr nodal in
  height_2d height_arr nodal (i0 + ii) (j0 + 1) 0
  - height_2d height_arr nodal (i0 + ii) (j0 + 0) 0.

Definition column_thickness_3d (ii jj : Z) : Real :=
  let i0 := lower_corner (frac_index p plo dxi nodal 0) in
  let j0 := lower_corner (frac_index p plo dxi nodal 1) in
  let k0 := k0_3d p plo dxi height_arr nodal in
  height_3d height_arr nodal (i0 + ii) (j0 + jj) (k0 + 1)
  - height_3d height_arr nodal (i0 + ii) (j0 + jj) (k0 + 0).

(** The vertical weight at a horizontal corner:
    (position - lower height) / (upper height - lower height). *)
Definition hint_2d (ii : Z) : Real :=
  let i0 := lower_corner (frac_index p plo dxi nodal 0) in
  let j0 := j0_2d p plo dxi height_arr nodal in
  (pos p 1 - height_2d height_arr nodal (i0 + ii) (j0 + 0) 0)
  / column_thickness_2d ii.

Definition hint_3d (ii jj : Z) : Real :=
  let i0 := lower_corner (frac_index p plo dxi nodal 0) in
  let j0 := lower_corner (frac_index p plo dxi nodal 1) in
  let k0 := k0_3d p plo dxi height_arr nodal in
  (pos p 2 - height_3d height_arr nodal (i0 + ii) (j0 + jj) (k0 + 0))
  / column_thickness_3d ii jj.

Definition sy_weights_2d : Z -> Real :=
  array_of [1 - hint_2d 0; 1 - hint_2d 1; hint_2d 0; hint_2d 1].

Definition sz_weights_3d : Z -> Real :=
  array_of [1 - hint_3d 0 0; 1 - hint_3d 1 0; 1 - hint_3d 0 1; 1 - hint_3d 1 1;
            hint_3d 0 0; hint_3d 1 0; hint_3d 0 1; hint_3d 1 1].

(** No divisor of a vertical weight is zero. *)
Definition columns_thick_2d : bool :=
  negb (Qeq_bool (column_thickness_2d 0) 0)
  && negb (Qeq_bool (column_thickness_2d 1) 0).

Definition columns_thick_3d : bool :=
  negb (Qeq_bool (column_thickness_3d 0 0) 0)
  && negb (Qeq_bool (column_thickness_3d 0 1) 0)
  && negb (Qeq_bool (column_thickness_3d 1 0) 0)
  && negb (Qeq_bool (column_thickness_3d 1 1) 0).

(** What the corner loops of the terrain-fitted kernel leave in [val[ctr]]. *)
Definition terrain_sum_2d (arr : Array4) (sy : Z -> Real) (comp : Z) : Real :=
  let lx := frac_index p plo dxi nodal 0 in
  let i0 := lower_corner lx in
  let j0 := j0_2d p plo dxi height_arr nodal in
  let sx := weight_pair (remainder lx) in
  0 + arr (i0 + 0)%Z (j0 + 0)%Z 0%Z comp * sx 0%Z * sy 0%Z
    + arr (i0 + 1)%Z (j0 + 0)%Z 0%Z comp * sx 1%Z * sy 1%Z
    + arr (i0 + 0)%Z (j0 + 1)%Z 0%Z comp * sx 0%Z * sy 2%Z
    + arr (i0 + 1)%Z (j0 + 1)%Z 0%Z comp * sx 1%Z * sy 3%Z.

Definition terrain_sum_3d (arr : Array4) (sz : Z -> Real) (comp : Z) : Real :=
  let lx := frac_index p plo dxi nodal 0 in
  let ly := frac_index p plo dxi nodal 1 in
  let i0 := lower_corner lx in
  let j0 := lower_corner ly in
  let k0 := k0_3d p plo dxi height_arr nodal in
  let sx := weight_pair (remainder lx) in
  let sy := weight_pair (remainder ly) in
  0 + arr (i0 + 0)%Z (j0 + 0)%Z (k0 + 0)%Z comp * sx 0%Z * sy 0%Z * sz 0%Z
    + arr (i0 + 1)%Z (j0 + 0)%Z (k0 + 0)%Z comp * sx 1%Z * sy 0%Z * sz 1%Z
    + arr (i0 + 0)%Z (j0 + 1)%Z (k0 + 0)%Z comp * sx 0%Z * sy 1%Z * sz 2%Z
    + arr (i0 + 1)%Z (j0 + 1)%Z (k0 + 0)%Z comp * sx 1%Z * sy 1%Z * sz 3%Z
    + arr (i0 + 0)%Z (j0 + 0)%Z (k0 + 1)%Z comp * sx 0%Z * sy 0%Z * sz 4%Z
    + arr (i0 + 1)%Z (j0 + 0)%Z (k0 + 1)%Z comp * sx 1%Z * sy 0%Z * sz 5%Z
    + arr (i0 + 0)%Z (j0 + 1)%Z (k0 + 1)%Z comp * sx 0%Z * sy 1%Z * sz 6%Z
    + arr (i0 + 1)%Z (j0 + 1)%Z (k0 + 1)%Z comp * sx 1%Z * sy 1%Z * sz 7%Z.

End TerrainForms.

Section TerrainSteps.

Variable p : Particle.
Variables plo dxi : GpuArray Real.
Variable height_arr : Array4.
Variable data_arr : Z -> Array4.
Variable is_nodal : Z -> IntVect.
Variables start_comp ncomp : Z.

(** The loop over components of array [d], its vertical weights given. *)
Definition array_step_2d (d : Z) (st : WriteState) : WriteState :=
  for_range start_comp ncomp
    (component_body_2d p plo dxi height_arr (data_arr d) (is_nodal d)
       (sy_weights_2d p plo dxi height_arr (is_nodal d))) st.

Definition array_step_3d (d : Z) (st : WriteState) : WriteState :=
  for_range start_comp ncomp
    (component_body_3d p plo dxi height_arr (data_arr d) (is_nodal d)
       (sz_weights_3d p plo dxi height_arr (is_nodal d))) st.

(** The value the terrain-fitted kernel writes for component
    [start_comp + c] of array [d]. *)
Definition terrain_entry (dim : SpaceDim) (d c : Z) : ParticleReal :=
  match dim with
  | Dim1 => 0
  | Dim2 => terrain_sum_2d p plo dxi height_arr (is_nodal d) (data_arr d)
              (sy_weights_2d p plo dxi height_arr (is_nodal d)) (start_comp + c)%Z
  | Dim3 => terrain_sum_3d p plo dxi height_arr (is_nodal d) (data_arr d)
              (sz_weights_3d p plo dxi height_arr (is_nodal d)) (start_comp + c)%Z
  end.

(** Whether the divisors of the vertical weights of array [d] are nonzero. *)
Definition columns_thick (dim : SpaceDim) (d : Z) : bool :=
  match dim with
  | Dim1 => true
  | Dim2 => columns_thick_2d p plo dxi height_arr (is_nodal d)
  | Dim3 => columns_thick_3d p plo dxi height_arr (is_nodal d)
  end.

End TerrainSteps.

(** [ok] holds at the [n] indices from [lo] on. *)
Fixpoint all_from (ok : Z -> bool) (n : nat) (lo : Z) : bool :=
  match n with
  | O => true
  | Datatypes.S n' => ok lo && all_from ok n' (lo + 1)%Z
  end.

(** ** Inputs of the examples *)

(** The scenario of the specification: unit spacing, origin at zero, the
    particle at (1, 1). *)
Definition scenario_particle : Particle := mkParticle (fun _ => 1) (fun _ => 0%Z).
Definition scenario_plo : GpuArray Real := fun _ => 0.
Definition scenario_dxi : GpuArray Real := fun _ => 1.
Definition scenario_field : Array4 := fun i j _ _ =>
  match i, j with
  | 0%Z, 0%Z => 10
  | 1%Z, 0%Z => 20
  | 0%Z, 1%Z => 30
  | 1%Z, 1%Z => 40
  | _, _ => 0
  end.

Definition constant_field (c : Real) : Z -> Array4 := fun _ _ _ _ _ => c.

(** A terrain of level surfaces, the height of level [k] being [k], with the
    vertical axis last (3D) or second (2D); a particle at 3.2 along every
    axis whose seed index is 3. *)
Definition level_terrain_3d : Array4 := fun _ _ k _ => inject_Z k.
Definition terrain_particle : Particle := mkParticle (fun _ => 16 # 5) (fun _ => 3%Z).

(** ** Further closed forms *)


(** A field that is affine in the cell index, the same in every component. *)
Definition affine_field (c0 c1 c2 c3 : Real) : Array4 := fun i j k _ =>
  c0 + c1 * inject_Z i + c2 * inject_Z j + c3 * inject_Z k.

(** The same affine function at the fractional index of the particle; the
    axes the build does not have are at index 0. *)
Definition affine_at (dim : SpaceDim) (p : Particle) (plo dxi : GpuArray Real)
    (nodal : IntVect) (c0 c1 c2 c3 : Real) : Real :=
  let l := frac_index p plo dxi nodal in
  match dim with
  | Dim1 => c0 + c1 * l 0%Z
  | Dim2 => c0 + c1 * l 0%Z + c2 * l 1%Z
  | Dim3 => c0 + c1 * l 0%Z + c2 * l 1%Z + c3 * l 2%Z
  end.

(** A field that is not affine: the sum of the squares of the indices. *)
Definition squares_field : Array4 := fun i j k _ => inject_Z (i * i + j * j + k * k).

(** The staggering that is nodal along [axis] only. *)
Definition nodal_along (axis : Z) : IntVect :=
  fun a => if Z.eqb a axis then 1%Z else 0%Z.

(** A field moved by whole cells: the value at a cell is the one [arr] has
    [m] cells further. *)
Definition shifted_field (arr : Array4) (m : IntVect) : Array4 := fun i j k n =>
  arr (i + m 0)%Z (j + m 1)%Z (k + m 2)%Z n.

(** The grid origin moved up by half a cell along every axis. *)
Definition half_cell_up (plo dxi : GpuArray Real) : GpuArray Real :=
  fun a => plo a + (1 # 2) / dxi a.

(** The particle moved by [m] whole cells along each axis. *)
Definition moved_by_cells (p : Particle) (dxi : GpuArray Real) (m : IntVect)
    : Particle :=
  mkParticle (fun a => pos p a + inject_Z (m a) / dxi a) (idata p).

(** A terrain of horizontal level surfaces spaced like the grid: the height
    of level [k] is [plo + k / dxi] along the vertical axis, the last one in
    3D and the second one in 2D. *)
Definition uniform_terrain_3d (plo dxi : GpuArray Real) : Array4 :=
  fun _ _ k _ => plo 2%Z + inject_Z k / dxi 2%Z.

Definition uniform_terrain_2d (plo dxi : GpuArray Real) : Array4 :=
  fun _ j _ _ => plo 1%Z + inject_Z j / dxi 1%Z.

(** ** The range of [int] and the blend in the specification's words *)

Definition INT_MIN : Z := (- 2 ^ 31)%Z.
Definition INT_MAX : Z := (2 ^ 31 - 1)%Z.

(** Whether [static_cast<int>(x)] has a value: the truncated [x] is an
    [int].  Outside this range the conversion is undefined in C++. *)
Definition static_cast_int_defined (x : Real) : bool :=
  ((INT_MIN <=? static_cast_int x) && (static_cast_int x <=? INT_MAX))%Z.

(** The tensor-product sum over the 2^D corners of the cell anchored at
    [(i0, j0, k0)], with the weight [1 - w] at the lower and [w] at the
    upper corner along each axis, [w] being [x], [y], [z]. *)
Definition multilinear (dim : SpaceDim) (arr : Array4) (comp : Z)
    (i0 j0 k0 : Z) (x y z : Real) : Real :=
  match dim with
  | Dim1 =>
      arr i0 0%Z 0%Z comp * (1 - x) + arr (i0 + 1)%Z 0%Z 0%Z comp * x
  | Dim2 =>
      arr i0 j0 0%Z comp * ((1 - x) * (1 - y))
      + arr (i0 + 1)%Z j0 0%Z comp * (x * (1 - y))
      + arr i0 (j0 + 1)%Z 0%Z comp * ((1 - x) * y)
      + arr (i0 + 1)%Z (j0 + 1)%Z 0%Z comp * (x * y)
  | Dim3 =>
      arr i0 j0 k0 comp * ((1 - x) * (1 - y) * (1 - z))
      + arr (i0 + 1)%Z j0 k0 comp * (x * (1 - y) * (1 - z))
      + arr i0 (j0 + 1)%Z k0 comp * ((1 - x) * y * (1 - z))
      + arr (i0 + 1)%Z (j0 + 1)%Z k0 comp * (x * y * (1 - z))
      + arr i0 j0 (k0 + 1)%Z comp * ((1 - x) * (1 - y) * z)
      + arr (i0 + 1)%Z j0 (k0 + 1)%Z comp * (x * (1 - y) * z)
      + arr i0 (j0 + 1)%Z (k0 + 1)%Z comp * ((1 - x) * y * z)
      + arr (i0 + 1)%Z (j0 + 1)%Z (k0 + 1)%Z comp * (x * y * z)
  end.

(** ** The same arithmetic in binary64

    [amrex::Real] is [double] in the default build.  The operations of lines
    114-127 of the kernel and of [powi] are repeated here on the primitive
    binary64 numbers, which round as the hardware does, to see where a
    statement of exact arithmetic stops holding of the compiled code. *)

Definition double : Type := float.

(** [static_cast<Real>(i)] on an [int]: exact, every [int] is a [double]. *)
Definition Z_to_double (z : Z) : double :=
  match z with
  | Z0 => PrimFloat.zero
  | Zpos _ => PrimFloat.of_uint63 (Uint63.of_Z z)
  | Zneg _ => PrimFloat.opp (PrimFloat.of_uint63 (Uint63.of_Z (- z)))
  end.

(** [std::floor] on a [double]: infinities, NaN, zeros and the numbers
    without fractional bits are returned as they are. *)
Definition floor_double (x : double) : double :=
  match Prim2SF x with
  | S754_finite s m e =>
      if (0 <=? e)%Z then x
      else
        let q := ((if s then Zneg m else Zpos m) / 2 ^ (- e))%Z in
        if (q =? 0)%Z then (if s then PrimFloat.neg_zero else PrimFloat.zero)
        else Z_to_double q
  | _ => x
  end.

(** [static_cast<int>(x)] on a [double]: the truncated value where it is an
    [int], no value (undefined behaviour) otherwise. *)
Definition static_cast_int_double (x : double) : option Z :=
  match Prim2SF x with
  | S754_zero _ => Some 0%Z
  | S754_finite s m e =>
      let t := (if (0 <=? e)%Z then Zpos m * 2 ^ e else Zpos m / 2 ^ (- e))%Z in
      let t := (if s then - t else t)%Z in
      if ((INT_MIN <=? t) && (t <=? INT_MAX))%Z then Some t else None
  | _ => None
  end.

Definition bool_to_double (b : bool) : double :=
  if b then PrimFloat.one else PrimFloat.zero.

(** [lx] of line 114 for one axis: position, origin, inverse spacing and
    the staggering entry of that axis. *)
Definition frac_index_double (pos_a plo_a dxi_a : double) (nodal_a : Z) : double :=
  PrimFloat.sub (PrimFloat.mul (PrimFloat.sub pos_a plo_a) dxi_a)
    (PrimFloat.mul (bool_to_double (lnot nodal_a)) 0x1p-1%float).

(** [i0] of line 121. *)
Definition lower_corner_double (l : double) : option Z :=
  static_cast_int_double (floor_double l).

(** [xint] of line 125. *)
Definition remainder_double (l : double) (i0 : Z) : double :=
  PrimFloat.sub l (Z_to_double i0).

(** The position -1e-17, rounded to binary64. *)
Definition just_below_zero : double := (-0x1.70ef54646d497p-57)%float.

(** 1.1, rounded to binary64. *)
Definition one_point_one : double := 0x1.199999999999ap+0%float.

(** * Properties *)

(** ** Loops *)

Lemma for_range_two {S : Type} (body : Z -> S -> S) (s : S) :
  for_range 0 2 body s = body 1%Z (body 0%Z s).
Proof. reflexivity. Qed.

Lemma for_loop_succ {S : Type} (n : nat) (i : Z) (body : Z -> S -> S) (s : S) :
  for_loop (Datatypes.S n) i body s = for_loop n (i + 1)%Z body (body i s).
Proof. reflexivity. Qed.

Lemma store_same {A : Type} (a : Z -> A) (i : Z) (x : A) : store a i x i = x.
Proof. unfold store. now rewrite Z.eqb_refl. Qed.

Lemma store_other {A : Type} (a : Z -> A) (i j : Z) (x : A) :
  j <> i -> store a i x j = a j.
Proof. intros H. unfold store. apply Z.eqb_neq in H. now rewrite H. Qed.

(** ** The orthogonal kernel, loop by loop *)

Section OrthogonalLoops.

Variable dim : SpaceDim.
Variable p : Particle.
Variables plo dxi : GpuArray Real.

Lemma accumulate_corners_at (arr : Array4) (nodal : IntVect) (comp ctr : Z)
    (val : Z -> ParticleReal) (j : Z) :
  accumulate_corners dim p plo dxi arr nodal comp ctr val j
  = if Z.eqb j ctr then corner_sum dim p plo dxi arr nodal comp (val ctr) else val j.
Proof.
  unfold accumulate_corners, corner_sum, at_IntVect.
  destruct dim; cbv zeta; change (1 + 1)%Z with 2%Z;
    rewrite ?for_range_two;
    (destruct (Z.eqb_spec j ctr) as [->|Hne];
      [ rewrite ?store_same | repeat (rewrite store_other by exact Hne) ]);
    reflexivity.
Qed.

End OrthogonalLoops.

(** ** Loops that fill the output buffer

    Both kernels run the same nest: a loop over components that writes one
    entry per round at [ctr] and advances [ctr], inside a loop over arrays. *)

Section ComponentLoop.

Variable body : Z -> WriteState -> WriteState.
Variable V : Z -> ParticleReal.

Hypothesis body_spec : forall (c ctr : Z) (val : Z -> ParticleReal),
  fst (body c (ctr, val)) = (ctr + 1)%Z
  /\ snd (body c (ctr, val)) ctr = V c
  /\ (forall j, j <> ctr -> snd (body c (ctr, val)) j = val j).

Lemma component_loop_spec (n : nat) :
  forall (c0 ctr : Z) (val : Z -> ParticleReal),
    let r := for_loop n c0 body (ctr, val) in
    fst r = (ctr + Z.of_nat n)%Z
    /\ (forall c, (0 <= c < Z.of_nat n)%Z -> snd r (ctr + c)%Z = V (c0 + c)%Z)
    /\ (forall j, (j < ctr \/ ctr + Z.of_nat n <= j)%Z -> snd r j = val j).
Proof.
  induction n as [|n IH]; intros c0 ctr val.
  - cbn. split; [lia | split; [lia | reflexivity]].
  - cbv zeta. rewrite for_loop_succ.
    destruct (body_spec c0 ctr val) as (Bfst & Bat & Bout).
    destruct (body c0 (ctr, val)) as [ctr1 val1]. cbn [fst snd] in *. subst ctr1.
    specialize (IH (c0 + 1)%Z (ctr + 1)%Z val1).
    cbv zeta in IH. destruct IH as (Hfst & Hin & Hout).
    split; [|split].
    + rewrite Hfst. lia.
    + intros c Hc. destruct (Z.eq_dec c 0) as [->|Hc0].
      * rewrite Hout by lia.
        replace (ctr + 0)%Z with ctr by lia. replace (c0 + 0)%Z with c0 by lia.
        exact Bat.
      * replace (ctr + c)%Z with (ctr + 1 + (c - 1))%Z by lia.
        rewrite Hin by lia. f_equal. lia.
    + intros j Hj. rewrite Hout by lia. apply Bout. lia.
Qed.

End ComponentLoop.

Section ArrayLoop.

Variable abody : Z -> WriteState -> WriteState.
Variable N : Z.
Variable V : Z -> Z -> ParticleReal.

Hypothesis N_nonneg : (0 <= N)%Z.
Hypothesis abody_spec : forall (d ctr : Z) (val : Z -> ParticleReal),
  fst (abody d (ctr, val)) = (ctr + N)%Z
  /\ (forall c, (0 <= c < N)%Z -> snd (abody d (ctr, val)) (ctr + c)%Z = V d c)
  /\ (forall j, (j < ctr \/ ctr + N <= j)%Z -> snd (abody d (ctr, val)) j = val j).

Lemma array_loop_spec (m : nat) :
  forall (d0 ctr : Z) (val : Z -> ParticleReal),
    let r := for_loop m d0 abody (ctr, val) in
    fst r = (ctr + Z.of_nat m * N)%Z
    /\ (forall q c, (0 <= q < Z.of_nat m)%Z -> (0 <= c < N)%Z ->
          snd r (ctr + q * N + c)%Z = V (d0 + q)%Z c)
    /\ (forall j, (j < ctr \/ ctr + Z.of_nat m * N <= j)%Z -> snd r j = val j).
Proof.
  induction m as [|m IH]; intros d0 ctr val.
  - cbn. split; [lia | split; [lia | reflexivity]].
  - cbv zeta. rewrite for_loop_succ.
    destruct (abody_spec d0 ctr val) as (Hfst & Hin & Hout).
    destruct (abody d0 (ctr, val)) as [ctr' val']. cbn [fst snd] in *. subst ctr'.
    specialize (IH (d0 + 1)%Z (ctr + N)%Z val').
    cbv zeta in IH. destruct IH as (Hfst' & Hin' & Hout').
    split; [|split].
    + rewrite Hfst'. lia.
    + intros q c Hq Hc. destruct (Z.eq_dec q 0) as [->|Hq0].
      * rewrite Hout' by nia.
        replace (ctr + 0 * N + c)%Z with (ctr + c)%Z by lia.
        rewrite Hin by lia. now replace (d0 + 0)%Z with d0 by lia.
      * replace (ctr + q * N + c)%Z with (ctr + N + (q - 1) * N + c)%Z by lia.
        rewrite Hin' by lia. now replace (d0 + 1 + (q - 1))%Z with (d0 + q)%Z by lia.
    + intros j Hj. rewrite Hout' by nia. apply Hout. nia.
Qed.

(** The nest started at [ctr = 0], by the index of the entry. *)
Lemma array_loop_from_zero (num_arrays : Z) (val : Z -> ParticleReal) :
  let out := snd (for_range 0 num_arrays abody (0%Z, val)) in
  (forall d c, (0 <= d < num_arrays)%Z -> (0 <= c < N)%Z ->
     out (d * N + c)%Z = V d c)
  /\ (forall j, (j < 0 \/ Z.max 0 num_arrays * N <= j)%Z -> out j = val j).
Proof.
  cbv zeta. unfold for_range.
  pose proof (array_loop_spec (Z.to_nat (num_arrays - 0)) 0%Z 0%Z val) as H.
  cbv zeta in H. destruct H as (_ & Hin & Hout). split.
  - intros d c Hd Hc. specialize (Hin d c).
    replace (0 + d * N + c)%Z with (d * N + c)%Z in Hin by lia.
    rewrite Hin by lia. reflexivity.
  - intros j Hj. apply Hout.
    replace (Z.of_nat (Z.to_nat (num_arrays - 0))) with (Z.max 0 num_arrays) by lia.
    lia.
Qed.

End ArrayLoop.

Section OrthogonalNest.

Variable dim : SpaceDim.
Variable p : Particle.
Variables plo dxi : GpuArray Real.

Lemma component_body_spec (arr : Array4) (nodal : IntVect) (c ctr : Z)
    (val : Z -> ParticleReal) :
  fst (component_body dim p plo dxi arr nodal c (ctr, val)) = (ctr + 1)%Z
  /\ snd (component_body dim p plo dxi arr nodal c (ctr, val)) ctr
     = interpolated dim p plo dxi arr nodal c
  /\ (forall j, j <> ctr ->
        snd (component_body dim p plo dxi arr nodal c (ctr, val)) j = val j).
Proof.
  unfold component_body. cbn [fst snd]. split; [reflexivity | split].
  - rewrite accumulate_corners_at, Z.eqb_refl, store_same. reflexivity.
  - intros j Hj. rewrite accumulate_corners_at.
    destruct (Z.eqb_spec j ctr); [contradiction|]. now apply store_other.
Qed.

Variable data_arr : Z -> Array4.
Variable is_nodal : Z -> IntVect.
Variables start_comp ncomp : Z.

Lemma array_body_spec (d ctr : Z) (val : Z -> ParticleReal) :
  let r := array_body dim p plo dxi data_arr is_nodal start_comp ncomp d (ctr, val) in
  fst r = (ctr + comps_visited start_comp ncomp)%Z
  /\ (forall c, (0 <= c < comps_visited start_comp ncomp)%Z ->
        snd r (ctr + c)%Z
        = interpolated dim p plo dxi (data_arr d) (is_nodal d) (start_comp + c)%Z)
  /\ (forall j, (j < ctr \/ ctr + comps_visited start_comp ncomp <= j)%Z ->
        snd r j = val j).
Proof.
  assert (HN : comps_visited start_comp ncomp
               = Z.of_nat (Z.to_nat (ncomp - start_comp)))
    by (unfold comps_visited; lia).
  rewrite HN. unfold array_body, for_range.
  apply (component_loop_spec
           (component_body dim p plo dxi (data_arr d) (is_nodal d))
           (interpolated dim p plo dxi (data_arr d) (is_nodal d))).
  intros. apply component_body_spec.
Qed.

End OrthogonalNest.

(** ** What the orthogonal kernel leaves in the output buffer *)

Section OrthogonalKernel.

Variable dim : SpaceDim.
Variable p : Particle.
Variables plo dxi : GpuArray Real.
Variable data_arr : Z -> Array4.
Variable val : Z -> ParticleReal.
Variable is_nodal : Z -> IntVect.
Variables start_comp ncomp num_arrays : Z.

(** Entry [d * (ncomp - start_comp) + c] holds component [start_comp + c]
    of array [d]. *)
Lemma kernel_nest :
  let out := linear_interpolate_to_particle dim p plo dxi data_arr val is_nodal
               start_comp ncomp num_arrays in
  (forall d c, (0 <= d < num_arrays)%Z -> (0 <= c < comps_visited start_comp ncomp)%Z ->
     out (d * comps_visited start_comp ncomp + c)%Z
     = interpolated dim p plo dxi (data_arr d) (is_nodal d) (start_comp + c)%Z)
  /\ (forall j, (j < 0 \/ Z.max 0 num_arrays * comps_visited start_comp ncomp <= j)%Z ->
        out j = val j).
Proof.
  unfold linear_interpolate_to_particle. cbv zeta.
  apply (array_loop_from_zero
           (array_body dim p plo dxi data_arr is_nodal start_comp ncomp)
           (comps_visited start_comp ncomp)
           (fun d c => interpolated dim p plo dxi (data_arr d) (is_nodal d)
                         (start_comp + c)%Z)).
  - unfold comps_visited. lia.
  - intros d ctr v. apply array_body_spec.
Qed.

Lemma kernel_entry (d c : Z) :
  (0 <= d < num_arrays)%Z -> (0 <= c < ncomp - start_comp)%Z ->
  linear_interpolate_to_particle dim p plo dxi data_arr val is_nodal
    start_comp ncomp num_arrays (d * (ncomp - start_comp) + c)%Z
  = interpolated dim p plo dxi (data_arr d) (is_nodal d) (start_comp + c)%Z.
Proof.
  intros Hd Hc. destruct kernel_nest as [Hin _].
  assert (HN : comps_visited start_comp ncomp = (ncomp - start_comp)%Z)
    by (unfold comps_visited; lia).
  rewrite HN in Hin. apply Hin; lia.
Qed.

(** The entries from [num_arrays * (ncomp - start_comp)] on, and those
    below 0, are as the caller left them. *)
Lemma kernel_frame (j : Z) :
  (j < 0 \/ Z.max 0 num_arrays * Z.max 0 (ncomp - start_comp) <= j)%Z ->
  linear_interpolate_to_particle dim p plo dxi data_arr val is_nodal
    start_comp ncomp num_arrays j
  = val j.
Proof.
  intros Hj. destruct kernel_nest as [_ Hout]. apply Hout. exact Hj.
Qed.

(** The same, by the index of the entry. *)
Lemma kernel_entry_div (j : Z) :
  (start_comp < ncomp)%Z ->
  (0 <= j < num_arrays * (ncomp - start_comp))%Z ->
  linear_interpolate_to_particle dim p plo dxi data_arr val is_nodal
    start_comp ncomp num_arrays j
  = interpolated dim p plo dxi
      (data_arr (j / (ncomp - start_comp))%Z)
      (is_nodal (j / (ncomp - start_comp))%Z)
      (start_comp + j mod (ncomp - start_comp))%Z.
Proof.
  intros Hlt Hj.
  assert (HN : (0 < ncomp - start_comp)%Z) by lia.
  pose proof (Z.div_mod j (ncomp - start_comp) ltac:(lia)) as Hdm.
  pose proof (Z.mod_pos_bound j (ncomp - start_comp) HN) as Hm.
  assert (Hq : (0 <= j / (ncomp - start_comp) < num_arrays)%Z).
  { split.
    - apply Z.div_pos; lia.
    - apply Z.div_lt_upper_bound; [lia | nia]. }
  rewrite <- kernel_entry by lia. f_equal. lia.
Qed.

End OrthogonalKernel.

(** ** Floor and remainder *)

Lemma static_cast_int_floor (x : Real) : static_cast_int (floor x) = Qfloor x.
Proof. unfold static_cast_int, floor. cbn. apply Z.quot_1_r. Qed.

Lemma lower_corner_floor (l : Real) : lower_corner l = Qfloor l.
Proof. apply static_cast_int_floor. Qed.

Lemma lower_corner_bounds (l : Real) :
  inject_Z (lower_corner l) <= l /\ l < inject_Z (lower_corner l) + 1.
Proof.
  rewrite lower_corner_floor. split.
  - apply Qfloor_le.
  - pose proof (Qlt_floor l) as H. rewrite inject_Z_plus in H. exact H.
Qed.

Lemma remainder_bounds (l : Real) : 0 <= remainder l /\ remainder l < 1.
Proof.
  unfold remainder, static_cast_Real.
  destruct (lower_corner_bounds l) as [H1 H2]. split; lra.
Qed.

(** Below zero the floor goes down, not toward zero. *)
Example lower_corner_of_negative :
  lower_corner (-1 # 4) = (-1)%Z /\ remainder (-1 # 4) == 3 # 4.
Proof. split; reflexivity. Qed.

Lemma weight_pair_0 (x : Real) : weight_pair x 0%Z = 1 - x.
Proof. reflexivity. Qed.

Lemma weight_pair_1 (x : Real) : weight_pair x 1%Z = x.
Proof. reflexivity. Qed.

Lemma interpolated_weighted_sum (dim : SpaceDim) (p : Particle)
    (plo dxi : GpuArray Real) (arr : Array4) (nodal : IntVect) (comp : Z) :
  interpolated dim p plo dxi arr nodal comp
  == weighted_sum arr comp (corner_cells dim p plo dxi nodal)
       (corner_weights dim p plo dxi nodal).
Proof.
  unfold interpolated, corner_sum, weighted_sum, corner_cells, corner_weights, sum_list.
  destruct dim; cbn [combine map fold_right]; ring.
Qed.

(** ** Statements on the orthogonal kernel *)

Lemma interpolated_multilinear (dim : SpaceDim) (p : Particle)
    (plo dxi : GpuArray Real) (arr : Array4) (nodal : IntVect) (comp : Z) :
  let l := frac_index p plo dxi nodal in
  interpolated dim p plo dxi arr nodal comp
  == multilinear dim arr comp
       (Qfloor (l 0%Z)) (Qfloor (l 1%Z)) (Qfloor (l 2%Z))
       (l 0%Z - inject_Z (Qfloor (l 0%Z)))
       (l 1%Z - inject_Z (Qfloor (l 1%Z)))
       (l 2%Z - inject_Z (Qfloor (l 2%Z))).
Proof.
  cbv zeta. unfold interpolated, corner_sum, multilinear. cbv zeta.
  rewrite !weight_pair_0, !weight_pair_1. unfold remainder, static_cast_Real.
  rewrite !lower_corner_floor, !Z.add_0_r. destruct dim; ring.
Qed.

(** C2, in exact arithmetic and where [floor l] is an [int]: along every
    axis the kernel takes the fractional coordinate [l = (pos - plo) * dxi]
    less one half where the array is cell-centered (less nothing where it is
    nodal), the lower index [i0 = floor l] with the floor toward minus
    infinity, and the remainder [xint = l - i0], which is in [0,1); and every
    entry the kernel writes is the sum over the corners of the cell at the
    [i0] of the axes, weighted by [1 - xint] and [xint] along each axis. *)
Theorem frac_index_floor_remainder (p : Particle) (plo dxi : GpuArray Real) :
  (forall (nodal : IntVect) (axis : Z),
      let l := frac_index p plo dxi nodal axis in
      let i0 := lower_corner l in
      let xint := remainder l in
      static_cast_int_defined (floor l) = true ->
      l == (pos p axis - plo axis) * dxi axis
           - (if Z.eqb (nodal axis) 0 then 1 # 2 else 0)
      /\ i0 = Qfloor l
      /\ (INT_MIN <= i0 <= INT_MAX)%Z
      /\ (inject_Z i0 <= l /\ l < inject_Z i0 + 1)
      /\ (forall z : Z, inject_Z z <= l -> (z <= i0)%Z)
      /\ xint = l - inject_Z i0
      /\ (0 <= xint /\ xint < 1)
      /\ weight_pair xint 0%Z = 1 - xint
      /\ weight_pair xint 1%Z = xint)
  /\ (forall (dim : SpaceDim) (data_arr : Z -> Array4) (val : Z -> ParticleReal)
        (is_nodal : Z -> IntVect) (start_comp ncomp num_arrays d c : Z),
      (0 <= d < num_arrays)%Z -> (0 <= c < ncomp - start_comp)%Z ->
      (forall a, (0 <= a < AMREX_SPACEDIM dim)%Z ->
         static_cast_int_defined (floor (frac_index p plo dxi (is_nodal d) a))
         = true) ->
      let l := frac_index p plo dxi (is_nodal d) in
      linear_interpolate_to_particle dim p plo dxi data_arr val is_nodal
        start_comp ncomp num_arrays (d * (ncomp - start_comp) + c)%Z
      == multilinear dim (data_arr d) (start_comp + c)%Z
           (Qfloor (l 0%Z)) (Qfloor (l 1%Z)) (Qfloor (l 2%Z))
           (l 0%Z - inject_Z (Qfloor (l 0%Z)))
           (l 1%Z - inject_Z (Qfloor (l 1%Z)))
           (l 2%Z - inject_Z (Qfloor (l 2%Z)))).
Proof.
  split.
  - intros nodal axis. cbv zeta. intros Hint.
    repeat match goal with |- _ /\ _ => split end.
    + unfold frac_index, lnot, bool_to_Real.
      destruct (Z.eqb (nodal axis) 0); ring.
    + apply lower_corner_floor.
    + unfold static_cast_int_defined in Hint. unfold lower_corner. lia.
    + unfold static_cast_int_defined in Hint. unfold lower_corner. lia.
    + apply lower_corner_bounds.
    + apply lower_corner_bounds.
    + intros z Hz. rewrite lower_corner_floor.
      apply Qfloor_resp_le in Hz. now rewrite Qfloor_Z in Hz.
    + reflexivity.
    + apply remainder_bounds.
    + apply remainder_bounds.
    + reflexivity.
    + reflexivity.
  - intros dim data_arr val is_nodal start_comp ncomp num_arrays d c Hd Hc _.
    cbv zeta. rewrite kernel_entry by assumption.
    apply interpolated_multilinear.
Qed.

Lemma frac_index_floor_remainder_witness :
  static_cast_int_defined
    (floor (frac_index (mkParticle (fun _ => -1 # 4) (fun _ => 0%Z))
              scenario_plo scenario_dxi TheUnitVector 0)) = true
  /\ lower_corner (frac_index (mkParticle (fun _ => -1 # 4) (fun _ => 0%Z))
                     scenario_plo scenario_dxi TheUnitVector 0) = (-1)%Z
  /\ remainder (frac_index (mkParticle (fun _ => -1 # 4) (fun _ => 0%Z))
                  scenario_plo scenario_dxi TheUnitVector 0) == 3 # 4
  /\ (0 <= 0 < 1)%Z /\ (0 <= 0 < 1 - 0)%Z
  /\ (forall a, (0 <= a < AMREX_SPACEDIM Dim2)%Z ->
        static_cast_int_defined
          (floor (frac_index scenario_particle scenario_plo scenario_dxi
                    (address_of TheZeroVector 0%Z) a)) = true)
  /\ linear_interpolate_to_particle Dim2 scenario_particle scenario_plo scenario_dxi
       (address_of scenario_field) (fun _ => -1) (address_of TheZeroVector) 0 1 1
       (0 * (1 - 0) + 0)%Z
     == 25.
Proof.
  assert (H1 : static_cast_int_defined
    (floor (frac_index (mkParticle (fun _ => -1 # 4) (fun _ => 0%Z))
              scenario_plo scenario_dxi TheUnitVector 0)) = true) by reflexivity.
  assert (Hd : (0 <= 0 < 1)%Z) by lia.
  assert (Hc : (0 <= 0 < 1 - 0)%Z) by lia.
  assert (H2 : forall a, (0 <= a < AMREX_SPACEDIM Dim2)%Z ->
        static_cast_int_defined
          (floor (frac_index scenario_particle scenario_plo scenario_dxi
                    (address_of TheZeroVector 0%Z) a)) = true)
    by (intros a _; reflexivity).
  pose proof (frac_index_floor_remainder
                (mkParticle (fun _ => -1 # 4) (fun _ => 0%Z))
                scenario_plo scenario_dxi) as [A _].
  pose proof (frac_index_floor_remainder scenario_particle scenario_plo scenario_dxi)
    as [_ B].
  specialize (A TheUnitVector 0%Z H1). cbv zeta in A.
  destruct A as (_ & A1 & _ & _ & _ & _ & _ & _).
  split; [exact H1 | split; [rewrite A1; reflexivity | split; [reflexivity |]]].
  split; [exact Hd | split; [exact Hc | split; [exact H2 |]]].
  rewrite (B Dim2 (address_of scenario_field) (fun _ => -1)
             (address_of TheZeroVector) 0%Z 1%Z 1%Z 0%Z 0%Z Hd Hc H2).
  reflexivity.
Defined.

(** In binary64 the remainder leaves [0,1): at the position -1e-17 on the
    unit grid with origin 0, nodal data, [lx] is -1e-17, [i0] is -1 and
    [xint = lx - (-1)] rounds to 1; and at the position 3e9 the floor of
    [lx] is no [int], so [i0] has no value. *)
Lemma remainder_double_reaches_one :
  let l := frac_index_double just_below_zero 0%float 1%float 1%Z in
  l = just_below_zero
  /\ lower_corner_double l = Some (-1)%Z
  /\ remainder_double l (-1) = 1%float
  /\ PrimFloat.ltb (remainder_double l (-1)) 1%float = false
  /\ lower_corner_double (frac_index_double 3000000000%float 0%float 1%float 1%Z)
     = None.
Proof. vm_compute. repeat split. Qed.

(** C6: the 2^D corner weights of the orthogonal kernel sum to one, for
    every position and every staggering, in exact arithmetic: every entry
    the kernel writes is the sum of the field values on the 2^D cells of
    the stencil, each multiplied by its weight, the products of the
    per-axis pairs [{1 - xint, xint}]; these weights sum to one, and on the
    field that is 1 everywhere the kernel writes 1. *)
Theorem corner_weights_sum_to_one (dim : SpaceDim) (p : Particle)
    (plo dxi : GpuArray Real) :
  (forall nodal : IntVect,
      List.length (corner_weights dim p plo dxi nodal)
        = Z.to_nat (2 ^ AMREX_SPACEDIM dim)
      /\ sum_list (corner_weights dim p plo dxi nodal) == 1
      /\ (forall (arr : Array4) (comp : Z),
            interpolated dim p plo dxi arr nodal comp
            == weighted_sum arr comp (corner_cells dim p plo dxi nodal)
                 (corner_weights dim p plo dxi nodal))
      /\ (forall comp : Z,
            interpolated dim p plo dxi (fun _ _ _ _ => 1) nodal comp == 1))
  /\ (forall (data_arr : Z -> Array4) (val : Z -> ParticleReal)
        (is_nodal : Z -> IntVect) (start_comp ncomp num_arrays d c : Z),
      (0 <= d < num_arrays)%Z -> (0 <= c < ncomp - start_comp)%Z ->
      linear_interpolate_to_particle dim p plo dxi data_arr val is_nodal
        start_comp ncomp num_arrays (d * (ncomp - start_comp) + c)%Z
      == weighted_sum (data_arr d) (start_comp + c)%Z
           (corner_cells dim p plo dxi (is_nodal d))
           (corner_weights dim p plo dxi (is_nodal d)))
  /\ (forall (val : Z -> ParticleReal) (is_nodal : Z -> IntVect)
        (start_comp ncomp num_arrays d c : Z),
      (0 <= d < num_arrays)%Z -> (0 <= c < ncomp - start_comp)%Z ->
      linear_interpolate_to_particle dim p plo dxi (fun _ _ _ _ _ => 1) val
        is_nodal start_comp ncomp num_arrays (d * (ncomp - start_comp) + c)%Z
      == sum_list (corner_weights dim p plo dxi (is_nodal d))
      /\ linear_interpolate_to_particle dim p plo dxi (fun _ _ _ _ _ => 1) val
           is_nodal start_comp ncomp num_arrays (d * (ncomp - start_comp) + c)%Z
         == 1).
Proof.
  assert (Hsum : forall nodal, sum_list (corner_weights dim p plo dxi nodal) == 1).
  { intros nodal. unfold corner_weights, sum_list.
    destruct dim; cbn [fold_right]; rewrite ?weight_pair_0, ?weight_pair_1; ring. }
  assert (Hone : forall nodal comp,
            interpolated dim p plo dxi (fun _ _ _ _ => 1) nodal comp == 1).
  { intros nodal comp. unfold interpolated, corner_sum.
    destruct dim; rewrite ?weight_pair_0, ?weight_pair_1; ring. }
  split; [|split].
  - intros nodal. split; [|split; [|split]].
    + destruct dim; reflexivity.
    + apply Hsum.
    + intros arr comp. apply interpolated_weighted_sum.
    + apply Hone.
  - intros data_arr val is_nodal start_comp ncomp num_arrays d c Hd Hc.
    rewrite kernel_entry by assumption. apply interpolated_weighted_sum.
  - intros val is_nodal start_comp ncomp num_arrays d c Hd Hc.
    rewrite kernel_entry by assumption. rewrite Hsum. split; apply Hone.
Qed.

Lemma corner_weights_sum_to_one_witness :
  (0 <= 1 < 2)%Z /\ (0 <= 0 < 1 - 0)%Z
  /\ linear_interpolate_to_particle Dim3 terrain_particle scenario_plo scenario_dxi
       (fun _ _ _ _ _ => 1) (fun _ => -1) (address_of TheZeroVector) 0 1 2
       (1 * (1 - 0) + 0)%Z
     == 1.
Proof.
  assert (Hd : (0 <= 1 < 2)%Z) by lia.
  assert (Hc : (0 <= 0 < 1 - 0)%Z) by lia.
  split; [exact Hd | split; [exact Hc |]].
  exact (proj2 (proj2 (proj2 (corner_weights_sum_to_one Dim3 terrain_particle
                                scenario_plo scenario_dxi))
                  (fun _ => -1) (address_of TheZeroVector) 0%Z 1%Z 2%Z 1%Z 0%Z
                  Hd Hc)).
Defined.

(** C5: in two dimensions, a cell-centered field worth 10, 20, 30 and 40 at
    the cells (0,0), (1,0), (0,1) and (1,1), with [plo = (0,0)] and
    [dxi = (1,1)], interpolates to 25 at the particle at (1, 1). *)
Theorem cic_interpolate_cc_scenario (data_arr : Array4) (val : Z -> ParticleReal) :
  data_arr 0%Z 0%Z 0%Z 0%Z == 10 ->
  data_arr 1%Z 0%Z 0%Z 0%Z == 20 ->
  data_arr 0%Z 1%Z 0%Z 0%Z == 30 ->
  data_arr 1%Z 1%Z 0%Z 0%Z == 40 ->
  cic_interpolate_cc Dim2 scenario_particle scenario_plo scenario_dxi
    data_arr val 1 0%Z == 25.
Proof.
  intros H00 H10 H01 H11. unfold cic_interpolate_cc. cbv zeta.
  pose proof (kernel_entry Dim2 scenario_particle scenario_plo scenario_dxi
                (address_of data_arr) val (address_of TheZeroVector)
                0 1 1 0 0 ltac:(lia) ltac:(lia)) as H.
  change (0 * (1 - 0) + 0)%Z with 0%Z in H. rewrite H.
  unfold interpolated, corner_sum, address_of. cbv zeta.
  change (lower_corner (frac_index scenario_particle scenario_plo scenario_dxi
                          TheZeroVector 0)) with 0%Z.
  change (lower_corner (frac_index scenario_particle scenario_plo scenario_dxi
                          TheZeroVector 1)) with 0%Z.
  change (remainder (frac_index scenario_particle scenario_plo scenario_dxi
                       TheZeroVector 0)) with (1 # 2).
  change (remainder (frac_index scenario_particle scenario_plo scenario_dxi
                       TheZeroVector 1)) with (1 # 2).
  rewrite weight_pair_0, weight_pair_1.
  change (0 + 0)%Z with 0%Z. change (0 + 1)%Z with 1%Z.
  rewrite H00, H10, H01, H11. reflexivity.
Qed.

Lemma cic_interpolate_cc_scenario_witness :
  scenario_field 0%Z 0%Z 0%Z 0%Z == 10
  /\ scenario_field 1%Z 0%Z 0%Z 0%Z == 20
  /\ scenario_field 0%Z 1%Z 0%Z 0%Z == 30
  /\ scenario_field 1%Z 1%Z 0%Z 0%Z == 40
  /\ cic_interpolate_cc Dim2 scenario_particle scenario_plo scenario_dxi
       scenario_field (fun _ => 0) 1 0%Z == 25.
Proof.
  repeat (split; [reflexivity|]).
  apply (cic_interpolate_cc_scenario scenario_field (fun _ => 0));
    reflexivity.
Defined.

(** C1, at [start_comp = 1], [ncomp = 2] and one array: the kernel
    interpolates component 1 into entry 0 and stops; entry 1 of the
    [num_arrays * ncomp = 2] entries is as the caller left it, and
    component 2 is not interpolated. *)
Theorem start_comp_one_leaves_entry_unwritten (dim : SpaceDim) (p : Particle)
    (plo dxi : GpuArray Real) (data_arr : Z -> Array4) (val : Z -> ParticleReal)
    (is_nodal : Z -> IntVect) :
  let out := linear_interpolate_to_particle dim p plo dxi data_arr val is_nodal
               1 2 1 in
  out 0%Z = interpolated dim p plo dxi (data_arr 0%Z) (is_nodal 0%Z) 1
  /\ out 1%Z = val 1%Z.
Proof.
  cbv zeta. split.
  - apply (kernel_entry dim p plo dxi data_arr val is_nodal 1 2 1 0 0); lia.
  - apply kernel_frame. lia.
Qed.

(** The same call on a field worth 7 everywhere and a buffer holding -1:
    entry 1 keeps the -1, where component 2 interpolates to 7. *)
Example start_comp_one_on_constant_field :
  linear_interpolate_to_particle Dim2 scenario_particle scenario_plo scenario_dxi
    (constant_field 7) (fun _ => -1) (address_of TheZeroVector) 1 2 1 1%Z == -1
  /\ interpolated Dim2 scenario_particle scenario_plo scenario_dxi
       (constant_field 7 0%Z) TheZeroVector 2 == 7.
Proof. split; reflexivity. Qed.

(** C7: the kernel is linear in the field data: on the arrays
    [a * A + b * B] every entry it writes is [a] times the entry it writes
    on [A] plus [b] times the entry it writes on [B]. *)
Theorem linear_interpolate_to_particle_linear (dim : SpaceDim) (p : Particle)
    (plo dxi : GpuArray Real) (A B : Z -> Array4) (a b : Real)
    (val valA valB : Z -> ParticleReal) (is_nodal : Z -> IntVect)
    (start_comp ncomp num_arrays : Z) (j : Z) :
  (start_comp < ncomp)%Z ->
  (0 <= j < num_arrays * (ncomp - start_comp))%Z ->
  linear_interpolate_to_particle dim p plo dxi
    (fun d i j k n => a * A d i j k n + b * B d i j k n) val is_nodal
    start_comp ncomp num_arrays j
  == a * linear_interpolate_to_particle dim p plo dxi A valA is_nodal
           start_comp ncomp num_arrays j
     + b * linear_interpolate_to_particle dim p plo dxi B valB is_nodal
             start_comp ncomp num_arrays j.
Proof.
  intros Hlt Hj. rewrite !kernel_entry_div by assumption.
  unfold interpolated, corner_sum. destruct dim; cbv zeta; ring.
Qed.

Lemma linear_interpolate_to_particle_linear_witness :
  (0 < 1)%Z
  /\ (0 <= 0 < 1 * (1 - 0))%Z
  /\ linear_interpolate_to_particle Dim2 scenario_particle scenario_plo scenario_dxi
       (fun d i j k n => 2 * address_of scenario_field d i j k n
                         + 3 * constant_field 1 d i j k n)
       (fun _ => 0) (address_of TheZeroVector) 0 1 1 0%Z
     == 2 * linear_interpolate_to_particle Dim2 scenario_particle scenario_plo
              scenario_dxi (address_of scenario_field) (fun _ => 0)
              (address_of TheZeroVector) 0 1 1 0%Z
        + 3 * linear_interpolate_to_particle Dim2 scenario_particle scenario_plo
                scenario_dxi (constant_field 1) (fun _ => 0)
                (address_of TheZeroVector) 0 1 1 0%Z.
Proof.
  split; [lia | split; [lia |]].
  apply (linear_interpolate_to_particle_linear Dim2 scenario_particle scenario_plo
           scenario_dxi (address_of scenario_field) (constant_field 1) 2 3
           (fun _ => 0) (fun _ => 0) (fun _ => 0) (address_of TheZeroVector)
           0 1 1 0); lia.
Defined.

(** ** The wrappers *)

Lemma interpolated_nodal_ext (dim : SpaceDim) (p : Particle)
    (plo dxi : GpuArray Real) (arr : Array4) (nodal nodal' : IntVect) (comp : Z) :
  (forall a, (0 <= a < AMREX_SPACEDIM dim)%Z -> nodal a = nodal' a) ->
  interpolated dim p plo dxi arr nodal comp
  = interpolated dim p plo dxi arr nodal' comp.
Proof.
  intros H.
  assert (E : forall a, (0 <= a < AMREX_SPACEDIM dim)%Z ->
                        frac_index p plo dxi nodal a = frac_index p plo dxi nodal' a).
  { intros a Ha. unfold frac_index. now rewrite (H a Ha). }
  unfold interpolated, corner_sum.
  destruct dim; cbv zeta; cbn in E;
    try rewrite (E 0%Z) by lia; try rewrite (E 1%Z) by lia;
    try rewrite (E 2%Z) by lia; reflexivity.
Qed.

Lemma mac_is_nodal_spec (dim : SpaceDim) (uninit : Z -> IntVect) (d a : Z) :
  (0 <= d < AMREX_SPACEDIM dim)%Z ->
  mac_is_nodal dim uninit d a = if Z.eqb a d then 1%Z else 0%Z.
Proof.
  intros Hd.
  destruct dim; cbn in Hd.
  - assert (d = 0%Z) as -> by lia. reflexivity.
  - assert (d = 0 \/ d = 1)%Z as [-> | ->] by lia; reflexivity.
  - assert (d = 0 \/ d = 1 \/ d = 2)%Z as [-> | [-> | ->]] by lia; reflexivity.
Qed.

(** C8: the three wrappers are the general kernel at fixed arguments: one
    array, components [0 .. M), with all-zero staggering for
    [cic_interpolate_cc] and all-one staggering for [cic_interpolate_nd];
    and, for [mac_interpolate], [AMREX_SPACEDIM] arrays of one component,
    array [d] nodal along axis [d] only. *)
Theorem wrappers_are_the_general_kernel (dim : SpaceDim) (p : Particle)
    (plo dxi : GpuArray Real) (val : Z -> ParticleReal) :
  (forall (arr : Array4) (M : Z),
      cic_interpolate_cc dim p plo dxi arr val M
      = linear_interpolate_to_particle dim p plo dxi
          (fun _ => arr) val (fun _ _ => 0%Z) 0 M 1)
  /\ (forall (arr : Array4) (M : Z),
      cic_interpolate_nd dim p plo dxi arr val M
      = linear_interpolate_to_particle dim p plo dxi
          (fun _ => arr) val (fun _ _ => 1%Z) 0 M 1)
  /\ (forall (data_arr : GpuArray Array4) (is_nodal : Z -> IntVect),
      (forall d a, (0 <= d < AMREX_SPACEDIM dim)%Z ->
                   (0 <= a < AMREX_SPACEDIM dim)%Z ->
                   is_nodal d a = if Z.eqb a d then 1%Z else 0%Z) ->
      forall j : Z,
        mac_interpolate dim p plo dxi data_arr val j
        = linear_interpolate_to_particle dim p plo dxi
            data_arr val is_nodal 0 1 (AMREX_SPACEDIM dim) j).
Proof.
  split; [|split].
  - reflexivity.
  - reflexivity.
  - intros data_arr is_nodal H j. unfold mac_interpolate. cbv zeta.
    destruct (Z_lt_dec j 0) as [Hneg | Hnn];
      [| destruct (Z_lt_dec j (AMREX_SPACEDIM dim)) as [Hlt | Hge]].
    + rewrite !kernel_frame by lia. reflexivity.
    + pose proof (fun nod => kernel_entry dim p plo dxi data_arr val nod
                               0 1 (AMREX_SPACEDIM dim) j 0
                               ltac:(lia) ltac:(lia)) as E.
      replace (j * (1 - 0) + 0)%Z with j in E by lia.
      rewrite !E. apply interpolated_nodal_ext.
      intros a Ha. rewrite mac_is_nodal_spec by lia. symmetry. apply H; lia.
    + assert (0 < AMREX_SPACEDIM dim)%Z by (destruct dim; cbn; lia).
      rewrite !kernel_frame by lia. reflexivity.
Qed.

Lemma wrappers_are_the_general_kernel_witness :
  (forall d a, (0 <= d < AMREX_SPACEDIM Dim2)%Z ->
               (0 <= a < AMREX_SPACEDIM Dim2)%Z ->
               store TheZeroVector d 1%Z a = if Z.eqb a d then 1%Z else 0%Z)
  /\ mac_interpolate Dim2 scenario_particle scenario_plo scenario_dxi
       (address_of scenario_field) (fun _ => 0) 1%Z
     = linear_interpolate_to_particle Dim2 scenario_particle scenario_plo
         scenario_dxi (address_of scenario_field) (fun _ => 0)
         (fun d => store TheZeroVector d 1%Z) 0 1 (AMREX_SPACEDIM Dim2) 1%Z.
Proof.
  assert (H : forall d a, (0 <= d < AMREX_SPACEDIM Dim2)%Z ->
                          (0 <= a < AMREX_SPACEDIM Dim2)%Z ->
                          store TheZeroVector d 1%Z a
                          = if Z.eqb a d then 1%Z else 0%Z).
  { intros d a _ _. reflexivity. }
  split; [exact H|].
  exact (proj2 (proj2 (wrappers_are_the_general_kernel Dim2 scenario_particle
                         scenario_plo scenario_dxi (fun _ => 0)))
           (address_of scenario_field) (fun d => store TheZeroVector d 1%Z) H 1%Z).
Defined.

Lemma all_from_spec (ok : Z -> bool) (n : nat) :
  forall lo, all_from ok n lo = true
             <-> (forall d, (lo <= d < lo + Z.of_nat n)%Z -> ok d = true).
Proof.
  induction n as [|n IH]; intros lo; cbn [all_from].
  - split; [intros _ d Hd; lia | reflexivity].
  - rewrite andb_true_iff, IH. split.
    + intros [H0 H] d Hd. destruct (Z.eq_dec d lo) as [->|Hne]; [exact H0|].
      apply H. lia.
    + intros H. split; [apply H; lia | intros d Hd; apply H; lia].
Qed.

(** A loop whose body is a guarded pure step. *)
Lemma for_loopM_guarded {S : Type} (ok : Z -> bool) (step : Z -> S -> S)
    (body : Z -> S -> Outcome S) :
  (forall i s, body i s = if ok i then Returned (step i s) else DivideByZero) ->
  forall (n : nat) (lo : Z) (s : S),
    for_loopM n lo body s
    = if all_from ok n lo then Returned (for_loop n lo step s) else DivideByZero.
Proof.
  intros Hbody. induction n as [|n IH]; intros lo s; cbn [for_loopM all_from for_loop].
  - reflexivity.
  - rewrite Hbody. destruct (ok lo); cbn [bind andb]; [apply IH | reflexivity].
Qed.

Section TerrainLemmas.

Variable p : Particle.
Variables plo dxi : GpuArray Real.
Variable height_arr : Array4.

Lemma ht_2d_entries (nodal : IntVect) :
  let i0 := lower_corner (frac_index p plo dxi nodal 0) in
  let j0 := j0_2d p plo dxi height_arr nodal in
  let ht := ht_2d p plo dxi height_arr nodal in
  ht 0%Z = height_2d height_arr nodal (i0 + 0) (j0 + 0) 0
  /\ ht 1%Z = height_2d height_arr nodal (i0 + 0) (j0 + 1) 0
  /\ ht 2%Z = height_2d height_arr nodal (i0 + 1) (j0 + 0) 0
  /\ ht 3%Z = height_2d height_arr nodal (i0 + 1) (j0 + 1) 0.
Proof. cbv zeta. repeat split. Qed.

Lemma ht_3d_entries (nodal : IntVect) :
  let i0 := lower_corner (frac_index p plo dxi nodal 0) in
  let j0 := lower_corner (frac_index p plo dxi nodal 1) in
  let k0 := k0_3d p plo dxi height_arr nodal in
  let ht := ht_3d p plo dxi height_arr nodal in
  ht 0%Z = height_3d height_arr nodal (i0 + 0) (j0 + 0) (k0 + 0)
  /\ ht 1%Z = height_3d height_arr nodal (i0 + 0) (j0 + 0) (k0 + 1)
  /\ ht 2%Z = height_3d height_arr nodal (i0 + 0) (j0 + 1) (k0 + 0)
  /\ ht 3%Z = height_3d height_arr nodal (i0 + 0) (j0 + 1) (k0 + 1)
  /\ ht 4%Z = height_3d height_arr nodal (i0 + 1) (j0 + 0) (k0 + 0)
  /\ ht 5%Z = height_3d height_arr nodal (i0 + 1) (j0 + 0) (k0 + 1)
  /\ ht 6%Z = height_3d height_arr nodal (i0 + 1) (j0 + 1) (k0 + 0)
  /\ ht 7%Z = height_3d height_arr nodal (i0 + 1) (j0 + 1) (k0 + 1).
Proof. cbv zeta. repeat split. Qed.

Lemma sy_2d_spec (nodal : IntVect) :
  sy_2d p plo dxi height_arr nodal
  = if columns_thick_2d p plo dxi height_arr nodal
    then Returned (sy_weights_2d p plo dxi height_arr nodal)
    else DivideByZero.
Proof.
  unfold sy_2d, columns_thick_2d, sy_weights_2d, hint_2d, column_thickness_2d,
    Real_div.
  cbv zeta. destruct (ht_2d_entries nodal) as (-> & -> & -> & ->).
  repeat match goal with
         | |- context [Qeq_bool ?a ?b] => destruct (Qeq_bool a b);
                                          cbn [bind negb andb]; try reflexivity
         end.
Qed.

Lemma sz_3d_spec (nodal : IntVect) :
  sz_3d p plo dxi height_arr nodal
  = if columns_thick_3d p plo dxi height_arr nodal
    then Returned (sz_weights_3d p plo dxi height_arr nodal)
    else DivideByZero.
Proof.
  unfold sz_3d, columns_thick_3d, sz_weights_3d, hint_3d, column_thickness_3d,
    Real_div.
  cbv zeta.
  destruct (ht_3d_entries nodal) as (-> & -> & -> & -> & -> & -> & -> & ->).
  repeat match goal with
         | |- context [Qeq_bool ?a ?b] => destruct (Qeq_bool a b);
                                          cbn [bind negb andb]; try reflexivity
         end.
Qed.

End TerrainLemmas.

(** ** The terrain-fitted kernel, loop by loop *)

Section TerrainNest.

Variable p : Particle.
Variables plo dxi : GpuArray Real.
Variable height_arr : Array4.

Lemma component_body_2d_spec (arr : Array4) (nodal : IntVect) (sy : Z -> Real)
    (c ctr : Z) (val : Z -> ParticleReal) :
  let r := component_body_2d p plo dxi height_arr arr nodal sy c (ctr, val) in
  fst r = (ctr + 1)%Z
  /\ snd r ctr = terrain_sum_2d p plo dxi height_arr nodal arr sy c
  /\ (forall j, j <> ctr -> snd r j = val j).
Proof.
  unfold component_body_2d, terrain_sum_2d. cbv zeta. change (1 + 1)%Z with 2%Z.
  rewrite !for_range_two. cbn [fst snd Z.add Pos.add Pos.succ].
  split; [reflexivity | split].
  - rewrite ?store_same. reflexivity.
  - intros j Hj. repeat (rewrite store_other by exact Hj). reflexivity.
Qed.

Lemma component_body_3d_spec (arr : Array4) (nodal : IntVect) (sz : Z -> Real)
    (c ctr : Z) (val : Z -> ParticleReal) :
  let r := component_body_3d p plo dxi height_arr arr nodal sz c (ctr, val) in
  fst r = (ctr + 1)%Z
  /\ snd r ctr = terrain_sum_3d p plo dxi height_arr nodal arr sz c
  /\ (forall j, j <> ctr -> snd r j = val j).
Proof.
  unfold component_body_3d, terrain_sum_3d. cbv zeta. change (1 + 1)%Z with 2%Z.
  rewrite !for_range_two. cbn [fst snd Z.add Pos.add Pos.succ].
  split; [reflexivity | split].
  - rewrite ?store_same. reflexivity.
  - intros j Hj. repeat (rewrite store_other by exact Hj). reflexivity.
Qed.

Variable data_arr : Z -> Array4.
Variable is_nodal : Z -> IntVect.
Variables start_comp ncomp : Z.

Lemma array_body_2d_guarded (d : Z) (st : WriteState) :
  array_body_2d p plo dxi height_arr data_arr is_nodal start_comp ncomp d st
  = if columns_thick p plo dxi height_arr is_nodal Dim2 d then Returned ((array_step_2d p plo dxi height_arr data_arr is_nodal start_comp ncomp) d st) else DivideByZero.
Proof.
  unfold array_body_2d, columns_thick. rewrite sy_2d_spec.
  destruct (columns_thick_2d p plo dxi height_arr (is_nodal d)); reflexivity.
Qed.

Lemma array_body_3d_guarded (d : Z) (st : WriteState) :
  array_body_3d p plo dxi height_arr data_arr is_nodal start_comp ncomp d st
  = if columns_thick p plo dxi height_arr is_nodal Dim3 d then Returned ((array_step_3d p plo dxi height_arr data_arr is_nodal start_comp ncomp) d st) else DivideByZero.
Proof.
  unfold array_body_3d, columns_thick. rewrite sz_3d_spec.
  destruct (columns_thick_3d p plo dxi height_arr (is_nodal d)); reflexivity.
Qed.

Lemma array_step_2d_spec (d ctr : Z) (val : Z -> ParticleReal) :
  let r := (array_step_2d p plo dxi height_arr data_arr is_nodal start_comp ncomp) d (ctr, val) in
  fst r = (ctr + comps_visited start_comp ncomp)%Z
  /\ (forall c, (0 <= c < comps_visited start_comp ncomp)%Z ->
        snd r (ctr + c)%Z = terrain_entry p plo dxi height_arr data_arr is_nodal start_comp Dim2 d c)
  /\ (forall j, (j < ctr \/ ctr + comps_visited start_comp ncomp <= j)%Z ->
        snd r j = val j).
Proof.
  assert (HN : comps_visited start_comp ncomp
               = Z.of_nat (Z.to_nat (ncomp - start_comp)))
    by (unfold comps_visited; lia).
  rewrite HN. unfold array_step_2d, for_range, terrain_entry.
  apply (component_loop_spec
           (component_body_2d p plo dxi height_arr (data_arr d) (is_nodal d)
              (sy_weights_2d p plo dxi height_arr (is_nodal d)))
           (terrain_sum_2d p plo dxi height_arr (is_nodal d) (data_arr d)
              (sy_weights_2d p plo dxi height_arr (is_nodal d)))).
  intros. apply component_body_2d_spec.
Qed.

Lemma array_step_3d_spec (d ctr : Z) (val : Z -> ParticleReal) :
  let r := (array_step_3d p plo dxi height_arr data_arr is_nodal start_comp ncomp) d (ctr, val) in
  fst r = (ctr + comps_visited start_comp ncomp)%Z
  /\ (forall c, (0 <= c < comps_visited start_comp ncomp)%Z ->
        snd r (ctr + c)%Z = terrain_entry p plo dxi height_arr data_arr is_nodal start_comp Dim3 d c)
  /\ (forall j, (j < ctr \/ ctr + comps_visited start_comp ncomp <= j)%Z ->
        snd r j = val j).
Proof.
  assert (HN : comps_visited start_comp ncomp
               = Z.of_nat (Z.to_nat (ncomp - start_comp)))
    by (unfold comps_visited; lia).
  rewrite HN. unfold array_step_3d, for_range, terrain_entry.
  apply (component_loop_spec
           (component_body_3d p plo dxi height_arr (data_arr d) (is_nodal d)
              (sz_weights_3d p plo dxi height_arr (is_nodal d)))
           (terrain_sum_3d p plo dxi height_arr (is_nodal d) (data_arr d)
              (sz_weights_3d p plo dxi height_arr (is_nodal d)))).
  intros. apply component_body_3d_spec.
Qed.

Variable val : Z -> ParticleReal.
Variable num_arrays : Z.

(** The outcome of the kernel: it returns exactly when the divisors of the
    vertical weights of every array are nonzero, and it ends on a division
    by zero otherwise. *)
Lemma terrain_kernel_outcome (dim : SpaceDim) :
  dim <> Dim1 ->
  linear_interpolate_to_particle_z dim p plo dxi height_arr data_arr val is_nodal
    start_comp ncomp num_arrays
  = if all_from (columns_thick p plo dxi height_arr is_nodal dim) (Z.to_nat num_arrays) 0
    then Returned
           (snd (for_range 0 num_arrays
                   match dim with
                   | Dim3 => (array_step_3d p plo dxi height_arr data_arr is_nodal start_comp ncomp)
                   | _ => (array_step_2d p plo dxi height_arr data_arr is_nodal start_comp ncomp)
                   end (0%Z, val)))
    else DivideByZero.
Proof.
  intros Hdim. unfold linear_interpolate_to_particle_z, for_rangeM, for_range.
  cbv zeta. rewrite Z.sub_0_r.
  destruct dim; [contradiction | |].
  - rewrite (for_loopM_guarded (columns_thick p plo dxi height_arr is_nodal Dim2) (array_step_2d p plo dxi height_arr data_arr is_nodal start_comp ncomp))
      by apply array_body_2d_guarded.
    destruct (all_from (columns_thick p plo dxi height_arr is_nodal Dim2) (Z.to_nat num_arrays) 0); reflexivity.
  - rewrite (for_loopM_guarded (columns_thick p plo dxi height_arr is_nodal Dim3) (array_step_3d p plo dxi height_arr data_arr is_nodal start_comp ncomp))
      by apply array_body_3d_guarded.
    destruct (all_from (columns_thick p plo dxi height_arr is_nodal Dim3) (Z.to_nat num_arrays) 0); reflexivity.
Qed.

Lemma terrain_kernel_returns_iff (dim : SpaceDim) :
  dim <> Dim1 ->
  (exists out, linear_interpolate_to_particle_z dim p plo dxi height_arr data_arr
                 val is_nodal start_comp ncomp num_arrays = Returned out)
  <-> (forall d, (0 <= d < num_arrays)%Z -> columns_thick p plo dxi height_arr is_nodal dim d = true).
Proof.
  intros Hdim. rewrite (terrain_kernel_outcome dim Hdim).
  destruct (all_from (columns_thick p plo dxi height_arr is_nodal dim) (Z.to_nat num_arrays) 0) eqn:E.
  - split; [intros _ | intros _; eexists; reflexivity].
    intros d Hd. apply (proj1 (all_from_spec _ _ _) E). lia.
  - split; [intros [out H]; discriminate |].
    intros H. rewrite (proj2 (all_from_spec _ _ _)) in E; [discriminate|].
    intros d Hd. apply H. lia.
Qed.

(** The entries of the buffer the kernel returns. *)
Lemma terrain_kernel_entries (dim : SpaceDim) (out : Z -> ParticleReal) :
  linear_interpolate_to_particle_z dim p plo dxi height_arr data_arr val is_nodal
    start_comp ncomp num_arrays = Returned out ->
  (forall d c, (0 <= d < num_arrays)%Z -> (0 <= c < ncomp - start_comp)%Z ->
     out (d * (ncomp - start_comp) + c)%Z = terrain_entry p plo dxi height_arr data_arr is_nodal start_comp dim d c)
  /\ (forall j, (j < 0 \/ Z.max 0 num_arrays * Z.max 0 (ncomp - start_comp) <= j)%Z ->
        out j = val j).
Proof.
  intros H.
  assert (Hdim : dim <> Dim1) by (intros ->; discriminate H).
  rewrite (terrain_kernel_outcome dim Hdim) in H.
  destruct (all_from (columns_thick p plo dxi height_arr is_nodal dim) (Z.to_nat num_arrays) 0); [|discriminate].
  injection H as <-.
  assert (Hnest :
    (forall d c, (0 <= d < num_arrays)%Z ->
                 (0 <= c < comps_visited start_comp ncomp)%Z ->
       snd (for_range 0 num_arrays
              match dim with Dim3 => (array_step_3d p plo dxi height_arr data_arr is_nodal start_comp ncomp) | _ => (array_step_2d p plo dxi height_arr data_arr is_nodal start_comp ncomp) end
              (0%Z, val)) (d * comps_visited start_comp ncomp + c)%Z
       = terrain_entry p plo dxi height_arr data_arr is_nodal start_comp dim d c)
    /\ (forall j, (j < 0 \/ Z.max 0 num_arrays * comps_visited start_comp ncomp <= j)%Z ->
          snd (for_range 0 num_arrays
                 match dim with Dim3 => (array_step_3d p plo dxi height_arr data_arr is_nodal start_comp ncomp) | _ => (array_step_2d p plo dxi height_arr data_arr is_nodal start_comp ncomp) end
                 (0%Z, val)) j = val j)).
  { destruct dim; [contradiction | |].
    - apply (array_loop_from_zero (array_step_2d p plo dxi height_arr data_arr is_nodal start_comp ncomp) (comps_visited start_comp ncomp)
               (terrain_entry p plo dxi height_arr data_arr is_nodal start_comp Dim2)).
      + unfold comps_visited. lia.
      + intros. apply array_step_2d_spec.
    - apply (array_loop_from_zero (array_step_3d p plo dxi height_arr data_arr is_nodal start_comp ncomp) (comps_visited start_comp ncomp)
               (terrain_entry p plo dxi height_arr data_arr is_nodal start_comp Dim3)).
      + unfold comps_visited. lia.
      + intros. apply array_step_3d_spec. }
  destruct Hnest as [Hin Hout]. split.
  - intros d c Hd Hc.
    assert (HN : comps_visited start_comp ncomp = (ncomp - start_comp)%Z)
      by (unfold comps_visited; lia).
    rewrite HN in Hin. apply Hin; lia.
  - intros j Hj. apply Hout. exact Hj.
Qed.

End TerrainNest.

(** ** Statements on the terrain-fitted kernel *)

Lemma columns_thick_2d_iff (p : Particle) (plo dxi : GpuArray Real)
    (height_arr : Array4) (nodal : IntVect) :
  columns_thick_2d p plo dxi height_arr nodal = true
  <-> (forall ii, (ii = 0 \/ ii = 1)%Z ->
         ~ column_thickness_2d p plo dxi height_arr nodal ii == 0).
Proof.
  unfold columns_thick_2d.
  rewrite andb_true_iff, !negb_true_iff, <- !not_true_iff_false, !Qeq_bool_iff.
  split.
  - intros [H0 H1] ii [-> | ->]; assumption.
  - intros H. split; apply H; auto.
Qed.

Lemma columns_thick_3d_iff (p : Particle) (plo dxi : GpuArray Real)
    (height_arr : Array4) (nodal : IntVect) :
  columns_thick_3d p plo dxi height_arr nodal = true
  <-> (forall ii jj, (ii = 0 \/ ii = 1)%Z -> (jj = 0 \/ jj = 1)%Z ->
         ~ column_thickness_3d p plo dxi height_arr nodal ii jj == 0).
Proof.
  unfold columns_thick_3d.
  rewrite !andb_true_iff, !negb_true_iff, <- !not_true_iff_false, !Qeq_bool_iff.
  split.
  - intros [[[H00 H01] H10] H11] ii jj [-> | ->] [-> | ->]; assumption.
  - intros H. repeat split; apply H; auto.
Qed.

(** C4: in a 1D build the terrain-fitted kernel and each of its wrappers
    ends in [amrex::Abort] with a message that names the unsupported
    configuration; no output buffer comes back. *)
Theorem terrain_kernel_aborts_in_1d (p : Particle) (plo dxi : GpuArray Real)
    (height_arr : Array4) (val : Z -> ParticleReal) :
  (forall data_arr is_nodal start_comp ncomp num_arrays,
      linear_interpolate_to_particle_z Dim1 p plo dxi height_arr data_arr val
        is_nodal start_comp ncomp num_arrays
      = Aborted abort_message_1d)
  /\ (forall data_arr M,
      cic_interpolate_mapped_z Dim1 p plo dxi height_arr data_arr val M
      = Aborted abort_message_1d)
  /\ (forall data_arr M,
      cic_interpolate_cc_mapped_z Dim1 p plo dxi height_arr data_arr val M
      = Aborted abort_message_1d)
  /\ (forall data_arr M,
      cic_interpolate_nd_mapped_z Dim1 p plo dxi height_arr data_arr val M
      = Aborted abort_message_1d)
  /\ (forall data_arr,
      mac_interpolate_mapped_z Dim1 p plo dxi height_arr data_arr val
      = Aborted abort_message_1d)
  /\ (forall data_arr is_nodal start_comp ncomp num_arrays out,
      linear_interpolate_to_particle_z Dim1 p plo dxi height_arr data_arr val
        is_nodal start_comp ncomp num_arrays
      <> Returned out)
  /\ abort_message_1d
     = (" Terrain fitted grid interpolation is not supported in 1D"
          ++ String (Ascii.ascii_of_nat 10) EmptyString)%string.
Proof.
  repeat split; intros; discriminate.
Qed.

Lemma height_at_pxy_blend (p : Particle) (plo dxi : GpuArray Real)
    (height_arr : Array4) (nodal : IntVect) :
  let lx := frac_index p plo dxi nodal 0 in
  let ly := frac_index p plo dxi nodal 1 in
  let i0 := lower_corner lx in
  let j0 := lower_corner ly in
  let k := idata p 0 in
  height_at_pxy p plo dxi height_arr nodal
  == hlo_3d height_arr nodal (i0 + 0) (j0 + 0) k
       * (1 - remainder lx) * (1 - remainder ly)
     + hlo_3d height_arr nodal (i0 + 0) (j0 + 1) k
       * (1 - remainder lx) * remainder ly
     + hlo_3d height_arr nodal (i0 + 1) (j0 + 0) k
       * remainder lx * (1 - remainder ly)
     + hlo_3d height_arr nodal (i0 + 1) (j0 + 1) k
       * remainder lx * remainder ly.
Proof.
  cbv zeta. unfold height_at_pxy, hlo_loops. cbv zeta.
  rewrite !for_range_two. cbn [fst snd Z.add Pos.add Pos.succ].
  rewrite ?store_same, ?weight_pair_0, ?weight_pair_1. ring.
Qed.



(** C9: the vertical weight at a horizontal corner is
    (position - lower height) / (upper height - lower height) and the kernel
    divides without a test: it returns, with these weights, exactly when at
    every horizontal corner of the stencil of every array the reconstructed
    height at the resolved index plus one differs from the one at the
    resolved index, and the division is by zero otherwise. *)
Theorem vertical_weights_need_thick_columns (p : Particle) (plo dxi : GpuArray Real)
    (height_arr : Array4) :
  (forall nodal,
      (forall ii jj, (ii = 0 \/ ii = 1)%Z -> (jj = 0 \/ jj = 1)%Z ->
         ~ column_thickness_3d p plo dxi height_arr nodal ii jj == 0) ->
      sz_3d p plo dxi height_arr nodal
      = Returned (sz_weights_3d p plo dxi height_arr nodal))
  /\ (forall nodal ii jj, (ii = 0 \/ ii = 1)%Z -> (jj = 0 \/ jj = 1)%Z ->
      column_thickness_3d p plo dxi height_arr nodal ii jj == 0 ->
      sz_3d p plo dxi height_arr nodal = DivideByZero)
  /\ (forall data_arr val is_nodal start_comp ncomp num_arrays,
      (exists out,
          linear_interpolate_to_particle_z Dim3 p plo dxi height_arr data_arr val
            is_nodal start_comp ncomp num_arrays = Returned out)
      <-> (forall d, (0 <= d < num_arrays)%Z ->
           forall ii jj, (ii = 0 \/ ii = 1)%Z -> (jj = 0 \/ jj = 1)%Z ->
             ~ column_thickness_3d p plo dxi height_arr (is_nodal d) ii jj == 0))
  /\ (forall data_arr val is_nodal start_comp ncomp num_arrays,
      linear_interpolate_to_particle_z Dim3 p plo dxi height_arr data_arr val
        is_nodal start_comp ncomp num_arrays = DivideByZero
      \/ exists out,
          linear_interpolate_to_particle_z Dim3 p plo dxi height_arr data_arr val
            is_nodal start_comp ncomp num_arrays = Returned out)
  /\ (forall nodal,
      (forall ii, (ii = 0 \/ ii = 1)%Z ->
         ~ column_thickness_2d p plo dxi height_arr nodal ii == 0) ->
      sy_2d p plo dxi height_arr nodal
      = Returned (sy_weights_2d p plo dxi height_arr nodal))
  /\ (forall nodal ii, (ii = 0 \/ ii = 1)%Z ->
      column_thickness_2d p plo dxi height_arr nodal ii == 0 ->
      sy_2d p plo dxi height_arr nodal = DivideByZero)
  /\ (forall data_arr val is_nodal start_comp ncomp num_arrays,
      (exists out,
          linear_interpolate_to_particle_z Dim2 p plo dxi height_arr data_arr val
            is_nodal start_comp ncomp num_arrays = Returned out)
      <-> (forall d, (0 <= d < num_arrays)%Z ->
           forall ii, (ii = 0 \/ ii = 1)%Z ->
             ~ column_thickness_2d p plo dxi height_arr (is_nodal d) ii == 0))
  /\ (forall data_arr val is_nodal start_comp ncomp num_arrays,
      linear_interpolate_to_particle_z Dim2 p plo dxi height_arr data_arr val
        is_nodal start_comp ncomp num_arrays = DivideByZero
      \/ exists out,
          linear_interpolate_to_particle_z Dim2 p plo dxi height_arr data_arr val
            is_nodal start_comp ncomp num_arrays = Returned out).
Proof.
  repeat match goal with |- _ /\ _ => split end.
  - intros nodal H. rewrite sz_3d_spec.
    now rewrite (proj2 (columns_thick_3d_iff p plo dxi height_arr nodal) H).
  - intros nodal ii jj Hi Hj H0. rewrite sz_3d_spec.
    destruct (columns_thick_3d p plo dxi height_arr nodal) eqn:E; [|reflexivity].
    exfalso. exact (proj1 (columns_thick_3d_iff _ _ _ _ _) E ii jj Hi Hj H0).
  - intros data_arr val is_nodal start_comp ncomp num_arrays.
    rewrite terrain_kernel_returns_iff by discriminate. unfold columns_thick.
    split; intros H d Hd.
    + apply columns_thick_3d_iff. now apply H.
    + apply columns_thick_3d_iff. now apply H.
  - intros data_arr val is_nodal start_comp ncomp num_arrays.
    rewrite terrain_kernel_outcome by discriminate.
    destruct (all_from _ _ _); [right; eexists; reflexivity | left; reflexivity].
  - intros nodal H. rewrite sy_2d_spec.
    now rewrite (proj2 (columns_thick_2d_iff p plo dxi height_arr nodal) H).
  - intros nodal ii Hi H0. rewrite sy_2d_spec.
    destruct (columns_thick_2d p plo dxi height_arr nodal) eqn:E; [|reflexivity].
    exfalso. exact (proj1 (columns_thick_2d_iff _ _ _ _ _) E ii Hi H0).
  - intros data_arr val is_nodal start_comp ncomp num_arrays.
    rewrite terrain_kernel_returns_iff by discriminate. unfold columns_thick.
    split; intros H d Hd.
    + apply columns_thick_2d_iff. now apply H.
    + apply columns_thick_2d_iff. now apply H.
  - intros data_arr val is_nodal start_comp ncomp num_arrays.
    rewrite terrain_kernel_outcome by discriminate.
    destruct (all_from _ _ _); [right; eexists; reflexivity | left; reflexivity].
Qed.

(** ** Integer powers *)

Section PowiCorrect.

Variable T : Type.
Variable one : T.
Variables mul div : T -> T -> T.

(** Exact arithmetic: [*] is associative with unit [T(1)]. *)
Hypothesis mul_assoc : forall a b c, mul a (mul b c) = mul (mul a b) c.
Hypothesis mul_one_l : forall a, mul one a = a.
Hypothesis mul_one_r : forall a, mul a one = a.

Lemma powi_body (Power : Z) (x : T) :
  powi T one mul div Power x
  = if Z_lt_dec Power 0 then div one (powi T one mul div (- Power) x)
    else if Z.eq_dec Power 0 then one
    else if Z.eq_dec Power 1 then x
    else if Z.eq_dec Power 2 then mul x x
    else if Z.eq_dec (Z.rem Power 2) 0
         then powi T one mul div 2 (powi T one mul div (Z.quot Power 2) x)
         else mul x (powi T one mul div (Power - 1) x).
Proof.
  rewrite powi_equation_1.
  destruct (Z_lt_dec Power 0); cbn; [reflexivity|].
  destruct (Z.eq_dec Power 0); cbn; [reflexivity|].
  destruct (Z.eq_dec Power 1); cbn; [reflexivity|].
  destruct (Z.eq_dec Power 2); cbn; [reflexivity|].
  destruct (Z.eq_dec (Z.rem Power 2) 0); cbn; reflexivity.
Qed.

Lemma repeated_product_add (a b : nat) (x : T) :
  repeated_product T one mul (a + b) x
  = mul (repeated_product T one mul a x) (repeated_product T one mul b x).
Proof.
  induction a as [|a IH]; cbn [Nat.add repeated_product].
  - now rewrite mul_one_l.
  - now rewrite IH, mul_assoc.
Qed.

Lemma powi_two (y : T) : powi T one mul div 2 y = mul y y.
Proof.
  rewrite powi_body.
  destruct (Z_lt_dec 2 0); [lia|].
  destruct (Z.eq_dec 2 0); [lia|].
  destruct (Z.eq_dec 2 1); [lia|].
  destruct (Z.eq_dec 2 2); [reflexivity | lia].
Qed.

Lemma powi_nonneg (n : nat) :
  forall (Power : Z) (x : T),
    Z.to_nat Power = n -> (0 <= Power)%Z ->
    powi T one mul div Power x = repeated_product T one mul n x.
Proof.
  induction n as [n IH] using lt_wf_ind. intros Power x Hn Hpos.
  rewrite powi_body.
  destruct (Z_lt_dec Power 0); [lia|].
  destruct (Z.eq_dec Power 0) as [->|H0].
  { subst n. reflexivity. }
  destruct (Z.eq_dec Power 1) as [->|H1].
  { subst n. change (Z.to_nat 1) with 1%nat. cbn [repeated_product].
    now rewrite mul_one_r. }
  destruct (Z.eq_dec Power 2) as [->|H2].
  { subst n. change (Z.to_nat 2) with 2%nat. cbn [repeated_product].
    now rewrite mul_one_r. }
  destruct (Z.eq_dec (Z.rem Power 2) 0) as [Heven|Hodd].
  - rewrite powi_two.
    pose proof (Z.quot_rem' Power 2) as Hqr. rewrite Heven in Hqr.
    assert (Hq : (0 <= Z.quot Power 2)%Z) by (apply Z.quot_pos; lia).
    rewrite (IH (Z.to_nat (Z.quot Power 2)) ltac:(lia) (Z.quot Power 2) x eq_refl Hq).
    rewrite <- repeated_product_add. f_equal. lia.
  - rewrite (IH (Z.to_nat (Power - 1)) ltac:(lia) (Power - 1)%Z x eq_refl ltac:(lia)).
    replace n with (Datatypes.S (Z.to_nat (Power - 1))) by lia. reflexivity.
Qed.

(** C10, for a type whose product is associative with unit [T(1)], as in
    exact arithmetic: for [Power >= 0], [powi<Power>(x)] is the [Power]-fold
    product of [x] ([T(1)] for [Power = 0]); for [Power < 0] it is [T(1)]
    divided by [powi<-Power>(x)], the [-Power]-fold product. *)
Theorem powi_is_repeated_product (Power : Z) (x : T) :
  ((0 <= Power)%Z ->
     powi T one mul div Power x = repeated_product T one mul (Z.to_nat Power) x)
  /\ ((Power < 0)%Z ->
        powi T one mul div Power x = div one (powi T one mul div (- Power) x)
        /\ powi T one mul div Power x
           = div one (repeated_product T one mul (Z.to_nat (- Power)) x)).
Proof.
  split.
  - intros H. now apply powi_nonneg.
  - intros H. rewrite powi_body. destruct (Z_lt_dec Power 0); [|lia].
    split; [reflexivity|].
    f_equal. apply powi_nonneg; [reflexivity | lia].
Qed.

End PowiCorrect.

(** The laws at the rationals. *)
Lemma Qmult_assoc_eq (a b c : Q) : Qmult a (Qmult b c) = Qmult (Qmult a b) c.
Proof.
  destruct a, b, c. unfold Qmult. cbn.
  now rewrite Z.mul_assoc, Pos.mul_assoc.
Qed.

Lemma Qmult_one_l_eq (a : Q) : Qmult 1 a = a.
Proof.
  destruct a as [[|n|n] d]; reflexivity.
Qed.

Lemma Qmult_one_r_eq (a : Q) : Qmult a 1 = a.
Proof.
  destruct a as [n d]. unfold Qmult. cbn.
  now rewrite Z.mul_1_r, Pos.mul_1_r.
Qed.

Lemma powi_is_repeated_product_witness :
  powi Q 1 Qmult Qdiv 5 (3 # 2) = repeated_product Q 1 Qmult 5 (3 # 2)
  /\ powi Q 1 Qmult Qdiv (-3) (3 # 2)
     = Qdiv 1 (repeated_product Q 1 Qmult 3 (3 # 2)).
Proof.
  split.
  - apply (proj1 (powi_is_repeated_product Q 1 Qmult Qdiv
                    Qmult_assoc_eq Qmult_one_l_eq Qmult_one_r_eq 5 (3 # 2))).
    lia.
  - apply (proj2 (powi_is_repeated_product Q 1 Qmult Qdiv
                    Qmult_assoc_eq Qmult_one_l_eq Qmult_one_r_eq (-3) (3 # 2))).
    lia.
Defined.

(** In binary64 the squaring decomposition is not the 4-fold product:
    [powi<4>(1.1)] is [(x*x)*(x*x)], one unit in the last place below
    [((x*x)*x)*x]. *)
Lemma powi_double_is_not_the_repeated_product :
  PrimFloat.mul (PrimFloat.mul (PrimFloat.mul one_point_one one_point_one)
                   one_point_one) one_point_one
  = repeated_product double 1%float PrimFloat.mul 4 one_point_one
  /\ PrimFloat.ltb (powi double 1%float PrimFloat.mul PrimFloat.div 4 one_point_one)
       (repeated_product double 1%float PrimFloat.mul 4 one_point_one) = true
  /\ powi double 1%float PrimFloat.mul PrimFloat.div 4 one_point_one
     <> repeated_product double 1%float PrimFloat.mul 4 one_point_one.
Proof.
  split; [vm_compute; reflexivity | split; [vm_compute; reflexivity |]].
  intros H.
  apply (f_equal (fun x => PrimFloat.eqb x
                   (repeated_product double 1%float PrimFloat.mul 4 one_point_one)))
    in H.
  vm_compute in H. discriminate H.
Qed.

Lemma vertical_weights_need_thick_columns_witness :
  (forall ii jj, (ii = 0 \/ ii = 1)%Z -> (jj = 0 \/ jj = 1)%Z ->
     ~ column_thickness_3d terrain_particle scenario_plo scenario_dxi
         level_terrain_3d TheZeroVector ii jj == 0)
  /\ sz_3d terrain_particle scenario_plo scenario_dxi level_terrain_3d TheZeroVector
     = Returned (sz_weights_3d terrain_particle scenario_plo scenario_dxi
                   level_terrain_3d TheZeroVector)
  /\ column_thickness_3d terrain_particle scenario_plo scenario_dxi
       (fun _ _ _ _ => 0) TheZeroVector 0 0 == 0
  /\ sz_3d terrain_particle scenario_plo scenario_dxi (fun _ _ _ _ => 0)
       TheZeroVector = DivideByZero.
Proof.
  assert (H : forall ii jj, (ii = 0 \/ ii = 1)%Z -> (jj = 0 \/ jj = 1)%Z ->
                ~ column_thickness_3d terrain_particle scenario_plo scenario_dxi
                    level_terrain_3d TheZeroVector ii jj == 0).
  { intros ii jj [-> | ->] [-> | ->]; vm_compute; discriminate. }
  assert (H0 : column_thickness_3d terrain_particle scenario_plo scenario_dxi
                 (fun _ _ _ _ => 0) TheZeroVector 0 0 == 0) by reflexivity.
  pose proof (vertical_weights_need_thick_columns terrain_particle scenario_plo
                scenario_dxi level_terrain_3d) as (W & _).
  pose proof (vertical_weights_need_thick_columns terrain_particle scenario_plo
                scenario_dxi (fun _ _ _ _ => 0)) as (_ & Z0 & _).
  split; [exact H | split; [exact (W TheZeroVector H) | split; [exact H0 |]]].
  exact (Z0 TheZeroVector 0%Z 0%Z (or_introl eq_refl) (or_introl eq_refl) H0).
Defined.

(** * Further properties of the kernels *)

(** ** The orthogonal kernel: layout of the output buffer *)

(** The whole buffer after the call, entry by entry. *)
Lemma kernel_value (dim : SpaceDim) (p : Particle) (plo dxi : GpuArray Real)
    (data_arr : Z -> Array4) (val : Z -> ParticleReal) (is_nodal : Z -> IntVect)
    (start_comp ncomp num_arrays : Z) (j : Z) :
  linear_interpolate_to_particle dim p plo dxi data_arr val is_nodal
    start_comp ncomp num_arrays j
  = if ((0 <=? j) && (j <? Z.max 0 num_arrays * comps_visited start_comp ncomp))%Z
    then interpolated dim p plo dxi
           (data_arr (j / comps_visited start_comp ncomp)%Z)
           (is_nodal (j / comps_visited start_comp ncomp)%Z)
           (start_comp + j mod comps_visited start_comp ncomp)%Z
    else val j.
Proof.
  destruct (Z.leb_spec 0 j) as [H0 | H0]; cbn [andb];
    [destruct (Z.ltb_spec j (Z.max 0 num_arrays * comps_visited start_comp ncomp))
       as [H1 | H1] |].
  - assert (Hn : (0 < comps_visited start_comp ncomp)%Z)
      by (unfold comps_visited in *; nia).
    assert (Hc : comps_visited start_comp ncomp = (ncomp - start_comp)%Z)
      by (unfold comps_visited in *; lia).
    rewrite Hc in *. apply kernel_entry_div; [lia | nia].
  - apply kernel_frame. unfold comps_visited in H1. lia.
  - apply kernel_frame. lia.
Qed.

(** One array, components from 0: entry [c] is component [c]. *)
Lemma single_array_entry (dim : SpaceDim) (p : Particle) (plo dxi : GpuArray Real)
    (arr : Array4) (val : Z -> ParticleReal) (nodal : IntVect) (M c : Z) :
  (0 <= c < M)%Z ->
  linear_interpolate_to_particle dim p plo dxi (address_of arr) val
    (address_of nodal) 0 M 1 c
  = interpolated dim p plo dxi arr nodal c.
Proof.
  intros Hc.
  pose proof (kernel_entry dim p plo dxi (address_of arr) val (address_of nodal)
                0 M 1 0 c ltac:(lia) ltac:(lia)) as E.
  replace (0 * (M - 0) + c)%Z with c in E by lia.
  rewrite E. now rewrite Z.add_0_l.
Qed.

(** X1: the kernel fills the buffer array by array: with
    [n = ncomp - start_comp], entry [d * n + c] receives component
    [start_comp + c] of array [d], whatever the buffer held before, and
    every entry outside the first [num_arrays * n] is left as it was. *)
Theorem output_buffer_layout (dim : SpaceDim) (p : Particle)
    (plo dxi : GpuArray Real) (data_arr : Z -> Array4) (val : Z -> ParticleReal)
    (is_nodal : Z -> IntVect) (start_comp ncomp num_arrays : Z) :
  let out := linear_interpolate_to_particle dim p plo dxi data_arr val is_nodal
               start_comp ncomp num_arrays in
  let n := (ncomp - start_comp)%Z in
  (forall d c, (0 <= d < num_arrays)%Z -> (0 <= c < n)%Z ->
     out (d * n + c)%Z
     = interpolated dim p plo dxi (data_arr d) (is_nodal d) (start_comp + c)%Z)
  /\ (forall j, (j < 0 \/ Z.max 0 num_arrays * Z.max 0 n <= j)%Z -> out j = val j).
Proof.
  cbv zeta. split.
  - intros d c Hd Hc. now apply kernel_entry.
  - intros j Hj. now apply kernel_frame.
Qed.

Lemma output_buffer_layout_witness :
  (0 <= 1 < 2)%Z /\ (0 <= 0 < 1 - 0)%Z
  /\ linear_interpolate_to_particle Dim2 scenario_particle scenario_plo scenario_dxi
       (constant_field 7) (fun _ => -1) (address_of TheZeroVector) 0 1 2
       (1 * (1 - 0) + 0)%Z
     = interpolated Dim2 scenario_particle scenario_plo scenario_dxi
         (constant_field 7 1%Z) TheZeroVector (0 + 0)%Z
  /\ (0 < 0 \/ Z.max 0 2 * Z.max 0 (1 - 0) <= 2)%Z
  /\ linear_interpolate_to_particle Dim2 scenario_particle scenario_plo scenario_dxi
       (constant_field 7) (fun _ => -1) (address_of TheZeroVector) 0 1 2 2%Z
     = -1.
Proof.
  pose proof (output_buffer_layout Dim2 scenario_particle scenario_plo scenario_dxi
                (constant_field 7) (fun _ => -1) (address_of TheZeroVector) 0 1 2)
    as [Hin Hout].
  assert (Hd : (0 <= 1 < 2)%Z) by lia.
  assert (Hc : (0 <= 0 < 1 - 0)%Z) by lia.
  assert (Hj : (2 < 0 \/ Z.max 0 2 * Z.max 0 (1 - 0) <= 2)%Z) by (right; vm_compute; discriminate).
  split; [exact Hd | split; [exact Hc | split; [exact (Hin 1%Z 0%Z Hd Hc) |]]].
  split; [right; vm_compute; discriminate | exact (Hout 2%Z Hj)].
Defined.

(** X2: with no array to visit ([num_arrays <= 0]) or no component to visit
    ([ncomp <= start_comp]) the kernel leaves the whole buffer as it was. *)
Theorem nothing_to_visit_is_noop (dim : SpaceDim) (p : Particle)
    (plo dxi : GpuArray Real) (data_arr : Z -> Array4) (val : Z -> ParticleReal)
    (is_nodal : Z -> IntVect) (start_comp ncomp num_arrays : Z) :
  (num_arrays <= 0 \/ ncomp <= start_comp)%Z ->
  forall j, linear_interpolate_to_particle dim p plo dxi data_arr val is_nodal
              start_comp ncomp num_arrays j = val j.
Proof.
  intros H j. apply kernel_frame. nia.
Qed.

Lemma nothing_to_visit_is_noop_witness :
  (0 <= 0 \/ 3 <= 3)%Z
  /\ linear_interpolate_to_particle Dim3 scenario_particle scenario_plo scenario_dxi
       (constant_field 7) (fun _ => -1) (address_of TheZeroVector) 3 3 0 0%Z
     = -1.
Proof.
  assert (H : (0 <= 0 \/ 3 <= 3)%Z) by (left; lia).
  split; [exact H|].
  exact (nothing_to_visit_is_noop Dim3 scenario_particle scenario_plo scenario_dxi
           (constant_field 7) (fun _ => -1) (address_of TheZeroVector) 3 3 0 H 0%Z).
Defined.

(** X3: [cic_interpolate], [cic_interpolate_cc] and [cic_interpolate_nd]
    write the entries [0 .. M-1], entry [c] being component [c] interpolated
    as cell-centered (all-nodal for [_nd]) data, and touch no other entry;
    for [M <= 0] they write nothing. *)
Theorem cic_interpolate_entries (dim : SpaceDim) (p : Particle)
    (plo dxi : GpuArray Real) (data_arr : Array4) (val : Z -> ParticleReal)
    (M : Z) (c : Z) :
  (cic_interpolate dim p plo dxi data_arr val M c
   = cic_interpolate_cc dim p plo dxi data_arr val M c)
  /\ (cic_interpolate_cc dim p plo dxi data_arr val M c
      = if ((0 <=? c) && (c <? M))%Z
        then interpolated dim p plo dxi data_arr TheZeroVector c
        else val c)
  /\ (cic_interpolate_nd dim p plo dxi data_arr val M c
      = if ((0 <=? c) && (c <? M))%Z
        then interpolated dim p plo dxi data_arr TheUnitVector c
        else val c).
Proof.
  split; [reflexivity|].
  unfold cic_interpolate_cc, cic_interpolate_nd. cbv zeta.
  rewrite !kernel_value. unfold comps_visited, address_of.
  replace (Z.max 0 1 * Z.max 0 (M - 0))%Z with (Z.max 0 M) by lia.
  destruct (Z.leb_spec 0 c) as [H0 | H0]; cbn [andb]; [|split; reflexivity].
  destruct (Z.ltb_spec c M) as [H1 | H1];
    destruct (Z.ltb_spec c (Z.max 0 M)) as [H2 | H2]; try lia;
    [|split; reflexivity].
  replace (Z.max 0 (M - 0)) with M by lia.
  rewrite Z.mod_small by lia. rewrite Z.add_0_l. split; reflexivity.
Qed.

(** X4: [mac_interpolate] writes the entries [0 .. AMREX_SPACEDIM - 1],
    entry [d] being component 0 of array [d] interpolated as data nodal
    along axis [d] and cell-centered along the others, and touches no other
    entry. *)
Theorem mac_interpolate_entries (dim : SpaceDim) (p : Particle)
    (plo dxi : GpuArray Real) (data_arr : GpuArray Array4)
    (val : Z -> ParticleReal) (d : Z) :
  mac_interpolate dim p plo dxi data_arr val d
  = if ((0 <=? d) && (d <? AMREX_SPACEDIM dim))%Z
    then interpolated dim p plo dxi (data_arr d) (nodal_along d) 0
    else val d.
Proof.
  unfold mac_interpolate. cbv zeta. rewrite kernel_value.
  unfold comps_visited.
  assert (HD : (0 < AMREX_SPACEDIM dim)%Z) by (destruct dim; cbn; lia).
  replace (Z.max 0 (AMREX_SPACEDIM dim) * Z.max 0 (1 - 0))%Z
    with (AMREX_SPACEDIM dim) by lia.
  destruct (Z.leb_spec 0 d) as [H0 | H0]; cbn [andb]; [|reflexivity].
  destruct (Z.ltb_spec d (AMREX_SPACEDIM dim)) as [H1 | H1]; [|reflexivity].
  change (Z.max 0 (1 - 0)) with 1%Z. rewrite Z.div_1_r, Z.mod_1_r.
  apply interpolated_nodal_ext. intros a Ha.
  rewrite mac_is_nodal_spec by lia. reflexivity.
Qed.

(** X5: one call on several arrays gives what one call per array gives:
    the entries of array [d] in the buffer of the joint call are the
    entries a call on that array alone writes from index 0. *)
Theorem joint_call_is_one_call_per_array (dim : SpaceDim) (p : Particle)
    (plo dxi : GpuArray Real) (data_arr : Z -> Array4)
    (val val' : Z -> ParticleReal) (is_nodal : Z -> IntVect)
    (start_comp ncomp num_arrays : Z) (d c : Z) :
  (0 <= d < num_arrays)%Z -> (0 <= c < ncomp - start_comp)%Z ->
  linear_interpolate_to_particle dim p plo dxi data_arr val is_nodal
    start_comp ncomp num_arrays (d * (ncomp - start_comp) + c)%Z
  = linear_interpolate_to_particle dim p plo dxi (address_of (data_arr d)) val'
      (address_of (is_nodal d)) start_comp ncomp 1 c.
Proof.
  intros Hd Hc. rewrite kernel_entry by assumption.
  pose proof (kernel_entry dim p plo dxi (address_of (data_arr d)) val'
                (address_of (is_nodal d)) start_comp ncomp 1 0 c
                ltac:(lia) Hc) as E.
  replace (0 * (ncomp - start_comp) + c)%Z with c in E by lia.
  rewrite E. reflexivity.
Qed.

Lemma joint_call_is_one_call_per_array_witness :
  (0 <= 1 < 2)%Z /\ (0 <= 0 < 1 - 0)%Z
  /\ linear_interpolate_to_particle Dim2 scenario_particle scenario_plo scenario_dxi
       (fun d => if Z.eqb d 0 then constant_field 7 d else scenario_field)
       (fun _ => -1) (address_of TheZeroVector) 0 1 2 (1 * (1 - 0) + 0)%Z
     = linear_interpolate_to_particle Dim2 scenario_particle scenario_plo scenario_dxi
         (address_of scenario_field) (fun _ => 0)
         (address_of (address_of TheZeroVector 1%Z)) 0 1 1 0%Z.
Proof.
  assert (Hd : (0 <= 1 < 2)%Z) by lia.
  assert (Hc : (0 <= 0 < 1 - 0)%Z) by lia.
  split; [exact Hd | split; [exact Hc |]].
  exact (joint_call_is_one_call_per_array Dim2 scenario_particle scenario_plo
           scenario_dxi
           (fun d => if Z.eqb d 0 then constant_field 7 d else scenario_field)
           (fun _ => -1) (fun _ => 0) (address_of TheZeroVector) 0 1 2 1 0 Hd Hc).
Defined.

(** ** The orthogonal kernel: the interpolated value *)

Lemma interpolated_Dim1 (p : Particle) (plo dxi : GpuArray Real) (arr : Array4)
    (nodal : IntVect) (comp : Z) :
  let lx := frac_index p plo dxi nodal 0 in
  let i0 := lower_corner lx in
  interpolated Dim1 p plo dxi arr nodal comp
  == arr i0 0%Z 0%Z comp * (1 - remainder lx)
     + arr (i0 + 1)%Z 0%Z 0%Z comp * remainder lx.
Proof.
  cbv zeta. unfold interpolated, corner_sum. cbv zeta.
  rewrite weight_pair_0, weight_pair_1, !Z.add_0_r. ring.
Qed.

Lemma interpolated_Dim2 (p : Particle) (plo dxi : GpuArray Real) (arr : Array4)
    (nodal : IntVect) (comp : Z) :
  let lx := frac_index p plo dxi nodal 0 in
  let ly := frac_index p plo dxi nodal 1 in
  let i0 := lower_corner lx in
  let j0 := lower_corner ly in
  interpolated Dim2 p plo dxi arr nodal comp
  == (arr i0 j0 0%Z comp * (1 - remainder lx)
      + arr (i0 + 1)%Z j0 0%Z comp * remainder lx) * (1 - remainder ly)
     + (arr i0 (j0 + 1)%Z 0%Z comp * (1 - remainder lx)
        + arr (i0 + 1)%Z (j0 + 1)%Z 0%Z comp * remainder lx) * remainder ly.
Proof.
  cbv zeta. unfold interpolated, corner_sum. cbv zeta.
  rewrite !weight_pair_0, !weight_pair_1, !Z.add_0_r. ring.
Qed.

Lemma interpolated_Dim3 (p : Particle) (plo dxi : GpuArray Real) (arr : Array4)
    (nodal : IntVect) (comp : Z) :
  let lx := frac_index p plo dxi nodal 0 in
  let ly := frac_index p plo dxi nodal 1 in
  let lz := frac_index p plo dxi nodal 2 in
  let i0 := lower_corner lx in
  let j0 := lower_corner ly in
  let k0 := lower_corner lz in
  interpolated Dim3 p plo dxi arr nodal comp
  == ((arr i0 j0 k0 comp * (1 - remainder lx)
       + arr (i0 + 1)%Z j0 k0 comp * remainder lx) * (1 - remainder ly)
      + (arr i0 (j0 + 1)%Z k0 comp * (1 - remainder lx)
         + arr (i0 + 1)%Z (j0 + 1)%Z k0 comp * remainder lx) * remainder ly)
     * (1 - remainder lz)
     + ((arr i0 j0 (k0 + 1)%Z comp * (1 - remainder lx)
         + arr (i0 + 1)%Z j0 (k0 + 1)%Z comp * remainder lx) * (1 - remainder ly)
        + (arr i0 (j0 + 1)%Z (k0 + 1)%Z comp * (1 - remainder lx)
           + arr (i0 + 1)%Z (j0 + 1)%Z (k0 + 1)%Z comp * remainder lx)
          * remainder ly)
       * remainder lz.
Proof.
  cbv zeta. unfold interpolated, corner_sum. cbv zeta.
  rewrite !weight_pair_0, !weight_pair_1, !Z.add_0_r. ring.
Qed.




Lemma interpolated_affine_field (dim : SpaceDim) (p : Particle)
    (plo dxi : GpuArray Real) (nodal : IntVect) (c0 c1 c2 c3 : Real) (comp : Z) :
  interpolated dim p plo dxi (affine_field c0 c1 c2 c3) nodal comp
  == affine_at dim p plo dxi nodal c0 c1 c2 c3.
Proof.
  unfold affine_at, affine_field. destruct dim.
  - rewrite interpolated_Dim1. cbv zeta. unfold remainder, static_cast_Real.
    rewrite !inject_Z_plus. change (inject_Z 0) with 0. change (inject_Z 1) with 1.
    ring.
  - rewrite interpolated_Dim2. cbv zeta. unfold remainder, static_cast_Real.
    rewrite !inject_Z_plus. change (inject_Z 0) with 0. change (inject_Z 1) with 1.
    ring.
  - rewrite interpolated_Dim3. cbv zeta. unfold remainder, static_cast_Real.
    rewrite !inject_Z_plus. change (inject_Z 1) with 1.
    ring.
Qed.

(** X7: in exact arithmetic a field that is affine in the cell index is
    reproduced exactly: the interpolated value, and so every entry the
    kernel writes on such arrays, is the same affine function at the
    fractional index of the particle. *)
Theorem affine_field_reproduced (dim : SpaceDim) (p : Particle)
    (plo dxi : GpuArray Real) (c0 c1 c2 c3 : Real) :
  (forall (nodal : IntVect) (comp : Z),
      interpolated dim p plo dxi (affine_field c0 c1 c2 c3) nodal comp
      == affine_at dim p plo dxi nodal c0 c1 c2 c3)
  /\ (forall (val : Z -> ParticleReal) (is_nodal : Z -> IntVect)
        (start_comp ncomp num_arrays d c : Z),
      (0 <= d < num_arrays)%Z -> (0 <= c < ncomp - start_comp)%Z ->
      linear_interpolate_to_particle dim p plo dxi
        (fun _ => affine_field c0 c1 c2 c3) val is_nodal
        start_comp ncomp num_arrays (d * (ncomp - start_comp) + c)%Z
      == affine_at dim p plo dxi (is_nodal d) c0 c1 c2 c3).
Proof.
  split.
  - intros nodal comp. apply interpolated_affine_field.
  - intros val is_nodal start_comp ncomp num_arrays d c Hd Hc.
    rewrite kernel_entry by assumption. apply interpolated_affine_field.
Qed.

Lemma affine_field_reproduced_witness :
  (0 <= 1 < 2)%Z /\ (0 <= 1 < 2 - 0)%Z
  /\ linear_interpolate_to_particle Dim3 terrain_particle scenario_plo scenario_dxi
       (fun _ => affine_field 1 2 3 4) (fun _ => -1) (address_of TheZeroVector)
       0 2 2 (1 * (2 - 0) + 1)%Z
     == affine_at Dim3 terrain_particle scenario_plo scenario_dxi
          (address_of TheZeroVector 1%Z) 1 2 3 4.
Proof.
  assert (Hd : (0 <= 1 < 2)%Z) by lia.
  assert (Hc : (0 <= 1 < 2 - 0)%Z) by lia.
  split; [exact Hd | split; [exact Hc |]].
  exact (proj2 (affine_field_reproduced Dim3 terrain_particle scenario_plo
                  scenario_dxi 1 2 3 4)
           (fun _ => -1) (address_of TheZeroVector) 0%Z 2%Z 2%Z 1%Z 1%Z Hd Hc).
Defined.

Lemma convex_lower (m a b x : Q) :
  0 <= x -> x <= 1 -> m <= a -> m <= b -> m <= a * (1 - x) + b * x.
Proof.
  intros Hx0 Hx1 Hma Hmb.
  assert (H1 : 0 <= (a - m) * (1 - x)) by (apply Qmult_le_0_compat; lra).
  assert (H2 : 0 <= (b - m) * x) by (apply Qmult_le_0_compat; lra).
  lra.
Qed.

Lemma convex_upper (M a b x : Q) :
  0 <= x -> x <= 1 -> a <= M -> b <= M -> a * (1 - x) + b * x <= M.
Proof.
  intros Hx0 Hx1 HaM HbM.
  assert (H3 : 0 <= (M - a) * (1 - x)) by (apply Qmult_le_0_compat; lra).
  assert (H4 : 0 <= (M - b) * x) by (apply Qmult_le_0_compat; lra).
  lra.
Qed.

Lemma interpolated_between_stencil_bounds (dim : SpaceDim) (p : Particle)
    (plo dxi : GpuArray Real) (arr : Array4) (nodal : IntVect) (comp : Z)
    (m M : Real) :
  Forall (fun cell : Z * Z * Z =>
            let '(i, j, k) := cell in m <= arr i j k comp /\ arr i j k comp <= M)
    (corner_cells dim p plo dxi nodal) ->
  m <= interpolated dim p plo dxi arr nodal comp
  /\ interpolated dim p plo dxi arr nodal comp <= M.
Proof.
  intros H.
  pose proof (remainder_bounds (frac_index p plo dxi nodal 0)) as [X0 X1].
  pose proof (remainder_bounds (frac_index p plo dxi nodal 1)) as [Y0 Y1].
  pose proof (remainder_bounds (frac_index p plo dxi nodal 2)) as [Z0 Z1].
  apply Qlt_le_weak in X1, Y1, Z1.
  unfold corner_cells in H. cbv zeta in H. destruct dim.
  - rewrite interpolated_Dim1. cbv zeta.
    repeat match goal with
           | F : Forall _ (_ :: _) |- _ => inversion F; subst; clear F
           | F : Forall _ [] |- _ => clear F
           end.
    rewrite !Z.add_0_r in *.
    repeat match goal with A : _ /\ _ |- _ => destruct A end.
    split; [apply convex_lower | apply convex_upper]; assumption.
  - rewrite interpolated_Dim2. cbv zeta.
    repeat match goal with
           | F : Forall _ (_ :: _) |- _ => inversion F; subst; clear F
           | F : Forall _ [] |- _ => clear F
           end.
    rewrite !Z.add_0_r in *.
    repeat match goal with A : _ /\ _ |- _ => destruct A end.
    split; [apply convex_lower | apply convex_upper]; try assumption;
      first [apply convex_lower | apply convex_upper]; assumption.
  - rewrite interpolated_Dim3. cbv zeta.
    repeat match goal with
           | F : Forall _ (_ :: _) |- _ => inversion F; subst; clear F
           | F : Forall _ [] |- _ => clear F
           end.
    rewrite !Z.add_0_r in *.
    repeat match goal with A : _ /\ _ |- _ => destruct A end.
    split; [apply convex_lower | apply convex_upper]; try assumption;
      (first [apply convex_lower | apply convex_upper]); try assumption;
      (first [apply convex_lower | apply convex_upper]); assumption.
Qed.

(** X8: in exact arithmetic the interpolated value never leaves the range
    of the field values on the stencil: if every cell of the stencil of an
    array holds a value between [m] and [M], so does the interpolated value
    and so does the entry the kernel writes for that array. *)
Theorem interpolated_within_stencil_range (dim : SpaceDim) (p : Particle)
    (plo dxi : GpuArray Real) (m M : Real) :
  (forall (arr : Array4) (nodal : IntVect) (comp : Z),
      Forall (fun cell : Z * Z * Z =>
                let '(i, j, k) := cell in
                m <= arr i j k comp /\ arr i j k comp <= M)
        (corner_cells dim p plo dxi nodal) ->
      m <= interpolated dim p plo dxi arr nodal comp
      /\ interpolated dim p plo dxi arr nodal comp <= M)
  /\ (forall (data_arr : Z -> Array4) (val : Z -> ParticleReal)
        (is_nodal : Z -> IntVect) (start_comp ncomp num_arrays d c : Z),
      (0 <= d < num_arrays)%Z -> (0 <= c < ncomp - start_comp)%Z ->
      Forall (fun cell : Z * Z * Z =>
                let '(i, j, k) := cell in
                m <= data_arr d i j k (start_comp + c)%Z
                /\ data_arr d i j k (start_comp + c)%Z <= M)
        (corner_cells dim p plo dxi (is_nodal d)) ->
      m <= linear_interpolate_to_particle dim p plo dxi data_arr val is_nodal
             start_comp ncomp num_arrays (d * (ncomp - start_comp) + c)%Z
      /\ linear_interpolate_to_particle dim p plo dxi data_arr val is_nodal
           start_comp ncomp num_arrays (d * (ncomp - start_comp) + c)%Z <= M).
Proof.
  split.
  - intros arr nodal comp H. now apply interpolated_between_stencil_bounds.
  - intros data_arr val is_nodal start_comp ncomp num_arrays d c Hd Hc H.
    rewrite kernel_entry by assumption.
    now apply interpolated_between_stencil_bounds.
Qed.

Lemma interpolated_within_stencil_range_witness :
  (0 <= 0 < 1)%Z /\ (0 <= 0 < 1 - 0)%Z
  /\ Forall (fun cell : Z * Z * Z =>
               let '(i, j, k) := cell in
               10 <= address_of scenario_field 0%Z i j k (0 + 0)%Z
               /\ address_of scenario_field 0%Z i j k (0 + 0)%Z <= 40)
       (corner_cells Dim2 scenario_particle scenario_plo scenario_dxi
          (address_of TheZeroVector 0%Z))
  /\ 10 <= linear_interpolate_to_particle Dim2 scenario_particle scenario_plo
             scenario_dxi (address_of scenario_field) (fun _ => -1)
             (address_of TheZeroVector) 0 1 1 (0 * (1 - 0) + 0)%Z
  /\ linear_interpolate_to_particle Dim2 scenario_particle scenario_plo
       scenario_dxi (address_of scenario_field) (fun _ => -1)
       (address_of TheZeroVector) 0 1 1 (0 * (1 - 0) + 0)%Z <= 40.
Proof.
  assert (Hd : (0 <= 0 < 1)%Z) by lia.
  assert (Hc : (0 <= 0 < 1 - 0)%Z) by lia.
  assert (H : Forall (fun cell : Z * Z * Z =>
               let '(i, j, k) := cell in
               10 <= address_of scenario_field 0%Z i j k (0 + 0)%Z
               /\ address_of scenario_field 0%Z i j k (0 + 0)%Z <= 40)
       (corner_cells Dim2 scenario_particle scenario_plo scenario_dxi
          (address_of TheZeroVector 0%Z))).
  { repeat constructor; vm_compute; discriminate. }
  split; [exact Hd | split; [exact Hc | split; [exact H |]]].
  exact (proj2 (interpolated_within_stencil_range Dim2 scenario_particle
                  scenario_plo scenario_dxi 10 40)
           (address_of scenario_field) (fun _ => -1) (address_of TheZeroVector)
           0%Z 1%Z 1%Z 0%Z 0%Z Hd Hc H).
Defined.

Lemma interpolated_agrees_on_stencil (dim : SpaceDim) (p : Particle)
    (plo dxi : GpuArray Real) (A B : Array4) (nodal : IntVect) (comp : Z) :
  Forall (fun cell : Z * Z * Z =>
            let '(i, j, k) := cell in A i j k comp == B i j k comp)
    (corner_cells dim p plo dxi nodal) ->
  interpolated dim p plo dxi A nodal comp
  == interpolated dim p plo dxi B nodal comp.
Proof.
  intros H. unfold corner_cells in H. cbv zeta in H.
  destruct dim;
    repeat match goal with
           | F : Forall _ (_ :: _) |- _ => inversion F; subst; clear F
           | F : Forall _ [] |- _ => clear F
           end;
    rewrite !Z.add_0_r in *.
  - rewrite !interpolated_Dim1. cbv zeta.
    repeat match goal with E : _ == _ |- _ => rewrite E; clear E end.
    reflexivity.
  - rewrite !interpolated_Dim2. cbv zeta.
    repeat match goal with E : _ == _ |- _ => rewrite E; clear E end.
    reflexivity.
  - rewrite !interpolated_Dim3. cbv zeta.
    repeat match goal with E : _ == _ |- _ => rewrite E; clear E end.
    reflexivity.
Qed.

(** X9: the interpolated value depends on the array only through the
    component asked for at the 2^D cells of the stencil, the cells
    [i0 .. i0+1] along each axis: two arrays that agree there interpolate
    alike, and the kernel writes the same entry for them. *)
Theorem only_the_stencil_is_read (dim : SpaceDim) (p : Particle)
    (plo dxi : GpuArray Real) :
  (forall (A B : Array4) (nodal : IntVect) (comp : Z),
      Forall (fun cell : Z * Z * Z =>
                let '(i, j, k) := cell in A i j k comp == B i j k comp)
        (corner_cells dim p plo dxi nodal) ->
      interpolated dim p plo dxi A nodal comp
      == interpolated dim p plo dxi B nodal comp)
  /\ (forall (A B : Z -> Array4) (val val' : Z -> ParticleReal)
        (is_nodal : Z -> IntVect) (start_comp ncomp num_arrays d c : Z),
      (0 <= d < num_arrays)%Z -> (0 <= c < ncomp - start_comp)%Z ->
      Forall (fun cell : Z * Z * Z =>
                let '(i, j, k) := cell in
                A d i j k (start_comp + c)%Z == B d i j k (start_comp + c)%Z)
        (corner_cells dim p plo dxi (is_nodal d)) ->
      linear_interpolate_to_particle dim p plo dxi A val is_nodal
        start_comp ncomp num_arrays (d * (ncomp - start_comp) + c)%Z
      == linear_interpolate_to_particle dim p plo dxi B val' is_nodal
           start_comp ncomp num_arrays (d * (ncomp - start_comp) + c)%Z).
Proof.
  split.
  - intros A B nodal comp H. now apply interpolated_agrees_on_stencil.
  - intros A B val val' is_nodal start_comp ncomp num_arrays d c Hd Hc H.
    rewrite !kernel_entry by assumption.
    now apply interpolated_agrees_on_stencil.
Qed.

Lemma only_the_stencil_is_read_witness :
  (0 <= 0 < 1)%Z /\ (0 <= 0 < 1 - 0)%Z
  /\ Forall (fun cell : Z * Z * Z =>
               let '(i, j, k) := cell in
               address_of scenario_field 0%Z i j k (0 + 0)%Z
               == address_of (store scenario_field 5%Z (constant_field 99 0%Z 5%Z))
                    0%Z i j k (0 + 0)%Z)
       (corner_cells Dim2 scenario_particle scenario_plo scenario_dxi
          (address_of TheZeroVector 0%Z))
  /\ linear_interpolate_to_particle Dim2 scenario_particle scenario_plo scenario_dxi
       (address_of scenario_field) (fun _ => -1) (address_of TheZeroVector) 0 1 1
       (0 * (1 - 0) + 0)%Z
     == linear_interpolate_to_particle Dim2 scenario_particle scenario_plo
          scenario_dxi
          (address_of (store scenario_field 5%Z (constant_field 99 0%Z 5%Z)))
          (fun _ => 0) (address_of TheZeroVector) 0 1 1 (0 * (1 - 0) + 0)%Z.
Proof.
  assert (Hd : (0 <= 0 < 1)%Z) by lia.
  assert (Hc : (0 <= 0 < 1 - 0)%Z) by lia.
  assert (H : Forall (fun cell : Z * Z * Z =>
               let '(i, j, k) := cell in
               address_of scenario_field 0%Z i j k (0 + 0)%Z
               == address_of (store scenario_field 5%Z (constant_field 99 0%Z 5%Z))
                    0%Z i j k (0 + 0)%Z)
       (corner_cells Dim2 scenario_particle scenario_plo scenario_dxi
          (address_of TheZeroVector 0%Z))).
  { repeat constructor. }
  split; [exact Hd | split; [exact Hc | split; [exact H |]]].
  exact (proj2 (only_the_stencil_is_read Dim2 scenario_particle scenario_plo
                  scenario_dxi)
           (address_of scenario_field)
           (address_of (store scenario_field 5%Z (constant_field 99 0%Z 5%Z)))
           (fun _ => -1) (fun _ => 0) (address_of TheZeroVector)
           0%Z 1%Z 1%Z 0%Z 0%Z Hd Hc H).
Defined.

Lemma interpolated_lnot_ext (dim : SpaceDim) (p : Particle)
    (plo dxi : GpuArray Real) (arr : Array4) (nodal nodal' : IntVect) (comp : Z) :
  (forall a, (0 <= a < AMREX_SPACEDIM dim)%Z -> lnot (nodal a) = lnot (nodal' a)) ->
  interpolated dim p plo dxi arr nodal comp
  = interpolated dim p plo dxi arr nodal' comp.
Proof.
  intros H.
  assert (E : forall a, (0 <= a < AMREX_SPACEDIM dim)%Z ->
                        frac_index p plo dxi nodal a = frac_index p plo dxi nodal' a).
  { intros a Ha. unfold frac_index. now rewrite (H a Ha). }
  unfold interpolated, corner_sum.
  destruct dim; cbv zeta; cbn in E;
    try rewrite (E 0%Z) by lia; try rewrite (E 1%Z) by lia;
    try rewrite (E 2%Z) by lia; reflexivity.
Qed.

(** X10: the kernel only tests the entries of [is_nodal] for zero: two
    staggering arrays that are zero at the same places give the same
    buffer, whatever nonzero values they hold. *)
Theorem is_nodal_is_tested_for_zero (dim : SpaceDim) (p : Particle)
    (plo dxi : GpuArray Real) (data_arr : Z -> Array4) (val : Z -> ParticleReal)
    (is_nodal is_nodal' : Z -> IntVect) (start_comp ncomp num_arrays : Z) :
  (forall d a, (0 <= d < num_arrays)%Z -> (0 <= a < AMREX_SPACEDIM dim)%Z ->
     (is_nodal d a = 0%Z <-> is_nodal' d a = 0%Z)) ->
  forall j,
    linear_interpolate_to_particle dim p plo dxi data_arr val is_nodal
      start_comp ncomp num_arrays j
    = linear_interpolate_to_particle dim p plo dxi data_arr val is_nodal'
        start_comp ncomp num_arrays j.
Proof.
  intros H j. rewrite !kernel_value.
  destruct (Z.leb_spec 0 j) as [H0 | H0]; cbn [andb]; [|reflexivity].
  destruct (Z.ltb_spec j (Z.max 0 num_arrays * comps_visited start_comp ncomp))
    as [H1 | H1]; [|reflexivity].
  assert (Hn : (0 < comps_visited start_comp ncomp)%Z)
    by (unfold comps_visited in *; nia).
  assert (Hq : (0 <= j / comps_visited start_comp ncomp < num_arrays)%Z).
  { split; [apply Z.div_pos; lia | apply Z.div_lt_upper_bound; nia]. }
  apply interpolated_lnot_ext. intros a Ha. unfold lnot.
  specialize (H _ a Hq Ha).
  destruct (Z.eqb_spec (is_nodal (j / comps_visited start_comp ncomp)%Z a) 0);
    destruct (Z.eqb_spec (is_nodal' (j / comps_visited start_comp ncomp)%Z a) 0);
    tauto.
Qed.

Lemma is_nodal_is_tested_for_zero_witness :
  (forall d a, (0 <= d < 1)%Z -> (0 <= a < AMREX_SPACEDIM Dim2)%Z ->
     (address_of TheUnitVector d a = 0%Z <-> address_of (fun _ : Z => 7%Z) d a = 0%Z))
  /\ linear_interpolate_to_particle Dim2 scenario_particle scenario_plo scenario_dxi
       (address_of scenario_field) (fun _ => 0) (address_of TheUnitVector) 0 1 1 0%Z
     = linear_interpolate_to_particle Dim2 scenario_particle scenario_plo scenario_dxi
         (address_of scenario_field) (fun _ => 0) (address_of (fun _ : Z => 7%Z))
         0 1 1 0%Z.
Proof.
  assert (H : forall d a, (0 <= d < 1)%Z -> (0 <= a < AMREX_SPACEDIM Dim2)%Z ->
     (address_of TheUnitVector d a = 0%Z
      <-> address_of (fun _ : Z => 7%Z) d a = 0%Z)).
  { intros d a _ _. unfold address_of, TheUnitVector. split; discriminate. }
  split; [exact H|].
  exact (is_nodal_is_tested_for_zero Dim2 scenario_particle scenario_plo scenario_dxi
           (address_of scenario_field) (fun _ => 0) (address_of TheUnitVector)
           (address_of (fun _ : Z => 7%Z)) 0 1 1 H 0%Z).
Defined.

(** ** Floor under translation *)

Lemma Qfloor_unique (x : Q) (z : Z) :
  inject_Z z <= x -> x < inject_Z (z + 1) -> Qfloor x = z.
Proof.
  intros Hle Hlt.
  assert (H1 : (z <= Qfloor x)%Z).
  { apply Qfloor_resp_le in Hle. now rewrite Qfloor_Z in Hle. }
  assert (H2 : (Qfloor x < z + 1)%Z).
  { rewrite Zlt_Qlt. eapply Qle_lt_trans; [apply Qfloor_le | exact Hlt]. }
  lia.
Qed.

Lemma Qfloor_plus_Z (x : Q) (m : Z) : Qfloor (x + inject_Z m) = (Qfloor x + m)%Z.
Proof.
  apply Qfloor_unique.
  - rewrite inject_Z_plus. pose proof (Qfloor_le x). lra.
  - rewrite !inject_Z_plus. pose proof (Qlt_floor x) as H.
    rewrite inject_Z_plus in H. lra.
Qed.

Lemma lower_corner_compat (l l' : Real) : l == l' -> lower_corner l = lower_corner l'.
Proof. intros H. rewrite !lower_corner_floor. now rewrite H. Qed.

Lemma remainder_compat (l l' : Real) : l == l' -> remainder l == remainder l'.
Proof.
  intros H. unfold remainder, static_cast_Real.
  rewrite (lower_corner_compat l l' H), H. reflexivity.
Qed.

(** The interpolated value depends on the particle and the grid only
    through the fractional indices. *)
Lemma interpolated_frac_compat (dim : SpaceDim) (p p' : Particle)
    (plo dxi plo' dxi' : GpuArray Real) (arr : Array4) (nodal nodal' : IntVect)
    (comp : Z) :
  (forall a, (0 <= a < AMREX_SPACEDIM dim)%Z ->
     frac_index p plo dxi nodal a == frac_index p' plo' dxi' nodal' a) ->
  interpolated dim p plo dxi arr nodal comp
  == interpolated dim p' plo' dxi' arr nodal' comp.
Proof.
  intros H. destruct dim; cbn in H.
  - rewrite !interpolated_Dim1. cbv zeta.
    rewrite (lower_corner_compat _ _ (H 0%Z ltac:(lia))).
    rewrite (remainder_compat _ _ (H 0%Z ltac:(lia))). reflexivity.
  - rewrite !interpolated_Dim2. cbv zeta.
    rewrite (lower_corner_compat _ _ (H 0%Z ltac:(lia))).
    rewrite (lower_corner_compat _ _ (H 1%Z ltac:(lia))).
    rewrite (remainder_compat _ _ (H 0%Z ltac:(lia))).
    rewrite (remainder_compat _ _ (H 1%Z ltac:(lia))). reflexivity.
  - rewrite !interpolated_Dim3. cbv zeta.
    rewrite (lower_corner_compat _ _ (H 0%Z ltac:(lia))).
    rewrite (lower_corner_compat _ _ (H 1%Z ltac:(lia))).
    rewrite (lower_corner_compat _ _ (H 2%Z ltac:(lia))).
    rewrite (remainder_compat _ _ (H 0%Z ltac:(lia))).
    rewrite (remainder_compat _ _ (H 1%Z ltac:(lia))).
    rewrite (remainder_compat _ _ (H 2%Z ltac:(lia))). reflexivity.
Qed.

Lemma interpolated_half_cell_up (dim : SpaceDim) (p : Particle)
    (plo dxi : GpuArray Real) (arr : Array4) (comp : Z) :
  (forall a, (0 <= a < AMREX_SPACEDIM dim)%Z -> ~ dxi a == 0) ->
  interpolated dim p plo dxi arr TheZeroVector comp
  == interpolated dim p (half_cell_up plo dxi) dxi arr TheUnitVector comp.
Proof.
  intros H. apply interpolated_frac_compat. intros a Ha.
  unfold frac_index, half_cell_up, TheZeroVector, TheUnitVector, lnot, bool_to_Real.
  cbn [Z.eqb]. specialize (H a Ha). field. exact H.
Qed.

(** X11: in exact arithmetic cell-centered data are nodal data on the grid
    whose origin is half a cell higher: where [dxi] is not zero,
    [cic_interpolate_cc] with origin [plo] writes in the entries [0 .. M-1]
    what [cic_interpolate_nd] with origin [plo + 0.5 / dxi] writes there. *)
Theorem cell_centered_is_nodal_half_a_cell_up (dim : SpaceDim) (p : Particle)
    (plo dxi : GpuArray Real) (arr : Array4) :
  (forall a, (0 <= a < AMREX_SPACEDIM dim)%Z -> ~ dxi a == 0) ->
  (forall comp : Z,
      interpolated dim p plo dxi arr TheZeroVector comp
      == interpolated dim p (half_cell_up plo dxi) dxi arr TheUnitVector comp)
  /\ (forall (val val' : Z -> ParticleReal) (M c : Z),
      (0 <= c < M)%Z ->
      cic_interpolate_cc dim p plo dxi arr val M c
      == cic_interpolate_nd dim p (half_cell_up plo dxi) dxi arr val' M c).
Proof.
  intros H. split.
  - intros comp. now apply interpolated_half_cell_up.
  - intros val val' M c Hc. unfold cic_interpolate_cc, cic_interpolate_nd.
    cbv zeta. rewrite !single_array_entry by assumption.
    now apply interpolated_half_cell_up.
Qed.

Lemma cell_centered_is_nodal_half_a_cell_up_witness :
  (forall a, (0 <= a < AMREX_SPACEDIM Dim2)%Z -> ~ scenario_dxi a == 0)
  /\ (0 <= 0 < 1)%Z
  /\ cic_interpolate_cc Dim2 scenario_particle scenario_plo scenario_dxi
       scenario_field (fun _ => -1) 1 0%Z
     == cic_interpolate_nd Dim2 scenario_particle
          (half_cell_up scenario_plo scenario_dxi) scenario_dxi scenario_field
          (fun _ => 0) 1 0%Z.
Proof.
  assert (H : forall a, (0 <= a < AMREX_SPACEDIM Dim2)%Z -> ~ scenario_dxi a == 0).
  { intros a _. vm_compute. discriminate. }
  assert (Hc : (0 <= 0 < 1)%Z) by lia.
  split; [exact H | split; [exact Hc |]].
  exact (proj2 (cell_centered_is_nodal_half_a_cell_up Dim2 scenario_particle
                  scenario_plo scenario_dxi scenario_field H)
           (fun _ => -1) (fun _ => 0) 1%Z 0%Z Hc).
Defined.

Lemma moved_by_cells_axis (p : Particle) (plo dxi : GpuArray Real)
    (nodal : IntVect) (m : IntVect) (axis : Z) :
  ~ dxi axis == 0 ->
  let l := frac_index p plo dxi nodal axis in
  let l' := frac_index (moved_by_cells p dxi m) plo dxi nodal axis in
  lower_corner l' = (lower_corner l + m axis)%Z
  /\ remainder l' == remainder l.
Proof.
  intros Hd. cbv zeta.
  assert (E : frac_index (moved_by_cells p dxi m) plo dxi nodal axis
              == frac_index p plo dxi nodal axis + inject_Z (m axis)).
  { unfold frac_index, moved_by_cells. cbn [pos]. field. exact Hd. }
  assert (L : lower_corner (frac_index (moved_by_cells p dxi m) plo dxi nodal axis)
              = (lower_corner (frac_index p plo dxi nodal axis) + m axis)%Z).
  { rewrite (lower_corner_compat _ _ E), !lower_corner_floor. apply Qfloor_plus_Z. }
  split; [exact L|].
  unfold remainder, static_cast_Real. rewrite L, E, inject_Z_plus. ring.
Qed.

Lemma interpolated_moved_by_cells (dim : SpaceDim) (p : Particle)
    (plo dxi : GpuArray Real) (arr : Array4) (nodal : IntVect) (m : IntVect)
    (comp : Z) :
  (forall a, (0 <= a < AMREX_SPACEDIM dim)%Z -> ~ dxi a == 0) ->
  (forall a, (AMREX_SPACEDIM dim <= a)%Z -> m a = 0%Z) ->
  interpolated dim (moved_by_cells p dxi m) plo dxi arr nodal comp
  == interpolated dim p plo dxi (shifted_field arr m) nodal comp.
Proof.
  intros Hd Hm. destruct dim; cbn in Hd, Hm.
  - destruct (moved_by_cells_axis p plo dxi nodal m 0 (Hd 0%Z ltac:(lia)))
      as [L0 R0].
    rewrite !interpolated_Dim1. cbv zeta. unfold shifted_field.
    rewrite L0, R0, (Hm 1%Z), (Hm 2%Z) by lia.
    replace (lower_corner (frac_index p plo dxi nodal 0) + 1 + m 0%Z)%Z
      with (lower_corner (frac_index p plo dxi nodal 0) + m 0%Z + 1)%Z by lia.
    reflexivity.
  - destruct (moved_by_cells_axis p plo dxi nodal m 0 (Hd 0%Z ltac:(lia)))
      as [L0 R0].
    destruct (moved_by_cells_axis p plo dxi nodal m 1 (Hd 1%Z ltac:(lia)))
      as [L1 R1].
    rewrite !interpolated_Dim2. cbv zeta. unfold shifted_field.
    rewrite L0, R0, L1, R1, (Hm 2%Z) by lia.
    replace (lower_corner (frac_index p plo dxi nodal 0) + 1 + m 0%Z)%Z
      with (lower_corner (frac_index p plo dxi nodal 0) + m 0%Z + 1)%Z by lia.
    replace (lower_corner (frac_index p plo dxi nodal 1) + 1 + m 1%Z)%Z
      with (lower_corner (frac_index p plo dxi nodal 1) + m 1%Z + 1)%Z by lia.
    reflexivity.
  - destruct (moved_by_cells_axis p plo dxi nodal m 0 (Hd 0%Z ltac:(lia)))
      as [L0 R0].
    destruct (moved_by_cells_axis p plo dxi nodal m 1 (Hd 1%Z ltac:(lia)))
      as [L1 R1].
    destruct (moved_by_cells_axis p plo dxi nodal m 2 (Hd 2%Z ltac:(lia)))
      as [L2 R2].
    rewrite !interpolated_Dim3. cbv zeta. unfold shifted_field.
    rewrite L0, R0, L1, R1, L2, R2.
    replace (lower_corner (frac_index p plo dxi nodal 0) + 1 + m 0%Z)%Z
      with (lower_corner (frac_index p plo dxi nodal 0) + m 0%Z + 1)%Z by lia.
    replace (lower_corner (frac_index p plo dxi nodal 1) + 1 + m 1%Z)%Z
      with (lower_corner (frac_index p plo dxi nodal 1) + m 1%Z + 1)%Z by lia.
    replace (lower_corner (frac_index p plo dxi nodal 2) + 1 + m 2%Z)%Z
      with (lower_corner (frac_index p plo dxi nodal 2) + m 2%Z + 1)%Z by lia.
    reflexivity.
Qed.

(** X12: in exact arithmetic, where [dxi] is not zero, moving the particle
    by [m] whole cells along an axis moves the lower index of its stencil by
    [m] and keeps its weight along that axis; so the kernel writes for the
    moved particle what it writes for the particle in place on the arrays
    read [m] cells further. *)
Theorem whole_cell_move_shifts_stencil (dim : SpaceDim) (p : Particle)
    (plo dxi : GpuArray Real) (m : IntVect) :
  (forall a, (0 <= a < AMREX_SPACEDIM dim)%Z -> ~ dxi a == 0) ->
  (forall a, (AMREX_SPACEDIM dim <= a)%Z -> m a = 0%Z) ->
  (forall (nodal : IntVect) (axis : Z),
      (0 <= axis < AMREX_SPACEDIM dim)%Z ->
      let l := frac_index p plo dxi nodal axis in
      let l' := frac_index (moved_by_cells p dxi m) plo dxi nodal axis in
      lower_corner l' = (lower_corner l + m axis)%Z
      /\ remainder l' == remainder l)
  /\ (forall (data_arr : Z -> Array4) (val val' : Z -> ParticleReal)
        (is_nodal : Z -> IntVect) (start_comp ncomp num_arrays d c : Z),
      (0 <= d < num_arrays)%Z -> (0 <= c < ncomp - start_comp)%Z ->
      linear_interpolate_to_particle dim (moved_by_cells p dxi m) plo dxi
        data_arr val is_nodal start_comp ncomp num_arrays
        (d * (ncomp - start_comp) + c)%Z
      == linear_interpolate_to_particle dim p plo dxi
           (fun d => shifted_field (data_arr d) m) val' is_nodal
           start_comp ncomp num_arrays (d * (ncomp - start_comp) + c)%Z).
Proof.
  intros Hd Hm. split.
  - intros nodal axis Ha. apply moved_by_cells_axis. now apply Hd.
  - intros data_arr val val' is_nodal start_comp ncomp num_arrays d c Hdr Hc.
    rewrite !kernel_entry by assumption.
    now apply interpolated_moved_by_cells.
Qed.

Lemma whole_cell_move_shifts_stencil_witness :
  (forall a, (0 <= a < AMREX_SPACEDIM Dim2)%Z -> ~ scenario_dxi a == 0)
  /\ (forall a, (AMREX_SPACEDIM Dim2 <= a)%Z ->
        nodal_along 0 a = 0%Z)
  /\ (0 <= 0 < AMREX_SPACEDIM Dim2)%Z
  /\ lower_corner (frac_index (moved_by_cells scenario_particle scenario_dxi
                                 (nodal_along 0))
                     scenario_plo scenario_dxi TheZeroVector 0)
     = (lower_corner (frac_index scenario_particle scenario_plo scenario_dxi
                        TheZeroVector 0) + nodal_along 0 0%Z)%Z
  /\ (0 <= 0 < 1)%Z /\ (0 <= 0 < 1 - 0)%Z
  /\ linear_interpolate_to_particle Dim2
       (moved_by_cells scenario_particle scenario_dxi (nodal_along 0))
       scenario_plo scenario_dxi (address_of scenario_field) (fun _ => -1)
       (address_of TheZeroVector) 0 1 1 (0 * (1 - 0) + 0)%Z
     == linear_interpolate_to_particle Dim2 scenario_particle scenario_plo
          scenario_dxi (fun d => shifted_field (address_of scenario_field d)
                                   (nodal_along 0))
          (fun _ => 0) (address_of TheZeroVector) 0 1 1 (0 * (1 - 0) + 0)%Z.
Proof.
  assert (H : forall a, (0 <= a < AMREX_SPACEDIM Dim2)%Z -> ~ scenario_dxi a == 0).
  { intros a _. vm_compute. discriminate. }
  assert (Hm : forall a, (AMREX_SPACEDIM Dim2 <= a)%Z -> nodal_along 0 a = 0%Z).
  { intros a Ha. unfold nodal_along. cbn in Ha.
    destruct (Z.eqb_spec a 0); [lia | reflexivity]. }
  assert (Ha : (0 <= 0 < AMREX_SPACEDIM Dim2)%Z) by (cbn; lia).
  assert (Hd : (0 <= 0 < 1)%Z) by lia.
  assert (Hc : (0 <= 0 < 1 - 0)%Z) by lia.
  pose proof (whole_cell_move_shifts_stencil Dim2 scenario_particle scenario_plo
                scenario_dxi (nodal_along 0) H Hm) as [A B].
  split; [exact H | split; [exact Hm | split; [exact Ha | split]]].
  - exact (proj1 (A TheZeroVector 0%Z Ha)).
  - split; [exact Hd | split; [exact Hc |]].
    exact (B (address_of scenario_field) (fun _ => -1) (fun _ => 0)
             (address_of TheZeroVector) 0%Z 1%Z 1%Z 0%Z 0%Z Hd Hc).
Defined.

(** ** The terrain-fitted kernel *)

(** X13: when the terrain-fitted kernel returns, it has filled the buffer
    in the order of the orthogonal kernel: with [n = ncomp - start_comp],
    entry [d * n + c] holds component [start_comp + c] of array [d], and
    every entry outside the first [num_arrays * n] is as the caller left
    it. *)
Theorem terrain_output_buffer_layout (dim : SpaceDim) (p : Particle)
    (plo dxi : GpuArray Real) (height_arr : Array4) (data_arr : Z -> Array4)
    (val : Z -> ParticleReal) (is_nodal : Z -> IntVect)
    (start_comp ncomp num_arrays : Z) (out : Z -> ParticleReal) :
  linear_interpolate_to_particle_z dim p plo dxi height_arr data_arr val is_nodal
    start_comp ncomp num_arrays = Returned out ->
  let n := (ncomp - start_comp)%Z in
  (forall d c, (0 <= d < num_arrays)%Z -> (0 <= c < n)%Z ->
     out (d * n + c)%Z
     = terrain_entry p plo dxi height_arr data_arr is_nodal start_comp dim d c)
  /\ (forall j, (j < 0 \/ Z.max 0 num_arrays * Z.max 0 n <= j)%Z -> out j = val j).
Proof.
  intros H. cbv zeta.
  exact (terrain_kernel_entries p plo dxi height_arr data_arr is_nodal
           start_comp ncomp val num_arrays dim out H).
Qed.

(** X14: the terrain-fitted kernel called on no array returns the buffer
    untouched whatever the terrain; called on arrays but no component
    ([ncomp <= start_comp]) it skips the component loop, so the buffer it
    returns is the caller's, entry for entry, and on a terrain whose
    columns have thickness it does return it. *)
Theorem terrain_kernel_with_nothing_to_write (dim : SpaceDim) (p : Particle)
    (plo dxi : GpuArray Real) (height_arr : Array4) (data_arr : Z -> Array4)
    (val : Z -> ParticleReal) (is_nodal : Z -> IntVect)
    (start_comp ncomp num_arrays : Z) :
  dim <> Dim1 ->
  ((num_arrays <= 0)%Z ->
     linear_interpolate_to_particle_z dim p plo dxi height_arr data_arr val
       is_nodal start_comp ncomp num_arrays = Returned val)
  /\ ((ncomp <= start_comp)%Z ->
      forall out,
        linear_interpolate_to_particle_z dim p plo dxi height_arr data_arr val
          is_nodal start_comp ncomp num_arrays = Returned out ->
        forall j, out j = val j)
  /\ ((ncomp <= start_comp)%Z ->
      (forall d, (0 <= d < num_arrays)%Z ->
         columns_thick p plo dxi height_arr is_nodal dim d = true) ->
      exists out,
        linear_interpolate_to_particle_z dim p plo dxi height_arr data_arr val
          is_nodal start_comp ncomp num_arrays = Returned out
        /\ forall j, out j = val j).
Proof.
  intros Hdim.
  assert (Hsame : (ncomp <= start_comp)%Z ->
      forall out,
        linear_interpolate_to_particle_z dim p plo dxi height_arr data_arr val
          is_nodal start_comp ncomp num_arrays = Returned out ->
        forall j, out j = val j).
  { intros Hnc out H j.
    destruct (terrain_kernel_entries p plo dxi height_arr data_arr is_nodal
                start_comp ncomp val num_arrays dim out H) as [_ Hout].
    apply Hout. nia. }
  split; [|split].
  - intros Hna. rewrite (terrain_kernel_outcome _ _ _ _ _ _ _ _ _ _ dim Hdim).
    unfold for_range. replace (Z.to_nat num_arrays) with 0%nat by lia.
    replace (Z.to_nat (num_arrays - 0)) with 0%nat by lia. reflexivity.
  - exact Hsame.
  - intros Hnc Hthick.
    destruct (proj2 (terrain_kernel_returns_iff p plo dxi height_arr data_arr
                       is_nodal start_comp ncomp val num_arrays dim Hdim) Hthick)
      as [out H].
    exists out. split; [exact H | exact (Hsame Hnc out H)].
Qed.

Lemma terrain_kernel_with_nothing_to_write_witness :
  Dim3 <> Dim1
  /\ (0 <= 0)%Z
  /\ linear_interpolate_to_particle_z Dim3 terrain_particle scenario_plo scenario_dxi
       (fun _ _ _ _ => 0) (constant_field 7) (fun _ => -1)
       (address_of TheZeroVector) 0 1 0
     = Returned (fun _ => -1)
  /\ (0 <= 0)%Z
  /\ (forall d, (0 <= d < 1)%Z ->
        columns_thick terrain_particle scenario_plo scenario_dxi level_terrain_3d
          (address_of TheZeroVector) Dim3 d = true)
  /\ exists out,
       linear_interpolate_to_particle_z Dim3 terrain_particle scenario_plo
         scenario_dxi level_terrain_3d (constant_field 7) (fun _ => -1)
         (address_of TheZeroVector) 0 0 1
       = Returned out
       /\ forall j, out j = -1.
Proof.
  assert (Hd : Dim3 <> Dim1) by discriminate.
  assert (H0 : (0 <= 0)%Z) by lia.
  assert (Ht : forall d, (0 <= d < 1)%Z ->
             columns_thick terrain_particle scenario_plo scenario_dxi
               level_terrain_3d (address_of TheZeroVector) Dim3 d = true)
    by (intros d _; reflexivity).
  split; [exact Hd | split; [exact H0 | split]].
  - exact (proj1 (terrain_kernel_with_nothing_to_write Dim3 terrain_particle
                    scenario_plo scenario_dxi (fun _ _ _ _ => 0) (constant_field 7)
                    (fun _ => -1) (address_of TheZeroVector) 0 1 0 Hd) H0).
  - split; [exact H0 | split; [exact Ht|]].
    exact (proj2 (proj2 (terrain_kernel_with_nothing_to_write Dim3 terrain_particle
                    scenario_plo scenario_dxi level_terrain_3d (constant_field 7)
                    (fun _ => -1) (address_of TheZeroVector) 0 0 1 Hd)) H0 Ht).
Defined.

Lemma sy_weights_2d_entries (p : Particle) (plo dxi : GpuArray Real)
    (height_arr : Array4) (nodal : IntVect) :
  let sy := sy_weights_2d p plo dxi height_arr nodal in
  let h := hint_2d p plo dxi height_arr nodal in
  sy 0%Z = 1 - h 0%Z /\ sy 1%Z = 1 - h 1%Z /\ sy 2%Z = h 0%Z /\ sy 3%Z = h 1%Z.
Proof. cbv zeta. repeat split. Qed.

Lemma sz_weights_3d_entries (p : Particle) (plo dxi : GpuArray Real)
    (height_arr : Array4) (nodal : IntVect) :
  let sz := sz_weights_3d p plo dxi height_arr nodal in
  let h := hint_3d p plo dxi height_arr nodal in
  sz 0%Z = 1 - h 0%Z 0%Z /\ sz 1%Z = 1 - h 1%Z 0%Z
  /\ sz 2%Z = 1 - h 0%Z 1%Z /\ sz 3%Z = 1 - h 1%Z 1%Z
  /\ sz 4%Z = h 0%Z 0%Z /\ sz 5%Z = h 1%Z 0%Z
  /\ sz 6%Z = h 0%Z 1%Z /\ sz 7%Z = h 1%Z 1%Z.
Proof. cbv zeta. repeat split. Qed.

(** The value of an entry with the vertical weights written out. *)
Lemma terrain_entry_Dim2 (p : Particle) (plo dxi : GpuArray Real)
    (height_arr : Array4) (data_arr : Z -> Array4) (is_nodal : Z -> IntVect)
    (start_comp d c : Z) :
  let nodal := is_nodal d in
  let arr := data_arr d in
  let comp := (start_comp + c)%Z in
  let lx := frac_index p plo dxi nodal 0 in
  let i0 := lower_corner lx in
  let j0 := j0_2d p plo dxi height_arr nodal in
  let h := hint_2d p plo dxi height_arr nodal in
  terrain_entry p plo dxi height_arr data_arr is_nodal start_comp Dim2 d c
  == (arr i0 j0 0%Z comp * (1 - h 0%Z)
      + arr i0 (j0 + 1)%Z 0%Z comp * h 0%Z) * (1 - remainder lx)
     + (arr (i0 + 1)%Z j0 0%Z comp * (1 - h 1%Z)
        + arr (i0 + 1)%Z (j0 + 1)%Z 0%Z comp * h 1%Z) * remainder lx.
Proof.
  cbv zeta. unfold terrain_entry, terrain_sum_2d. cbv zeta.
  destruct (sy_weights_2d_entries p plo dxi height_arr (is_nodal d))
    as (-> & -> & -> & ->).
  rewrite !weight_pair_0, !weight_pair_1, !Z.add_0_r. ring.
Qed.

Lemma terrain_entry_Dim3 (p : Particle) (plo dxi : GpuArray Real)
    (height_arr : Array4) (data_arr : Z -> Array4) (is_nodal : Z -> IntVect)
    (start_comp d c : Z) :
  let nodal := is_nodal d in
  let arr := data_arr d in
  let comp := (start_comp + c)%Z in
  let lx := frac_index p plo dxi nodal 0 in
  let ly := frac_index p plo dxi nodal 1 in
  let i0 := lower_corner lx in
  let j0 := lower_corner ly in
  let k0 := k0_3d p plo dxi height_arr nodal in
  let h := hint_3d p plo dxi height_arr nodal in
  terrain_entry p plo dxi height_arr data_arr is_nodal start_comp Dim3 d c
  == ((arr i0 j0 k0 comp * (1 - h 0%Z 0%Z)
       + arr i0 j0 (k0 + 1)%Z comp * h 0%Z 0%Z) * (1 - remainder lx)
      + (arr (i0 + 1)%Z j0 k0 comp * (1 - h 1%Z 0%Z)
         + arr (i0 + 1)%Z j0 (k0 + 1)%Z comp * h 1%Z 0%Z) * remainder lx)
     * (1 - remainder ly)
     + ((arr i0 (j0 + 1)%Z k0 comp * (1 - h 0%Z 1%Z)
         + arr i0 (j0 + 1)%Z (k0 + 1)%Z comp * h 0%Z 1%Z) * (1 - remainder lx)
        + (arr (i0 + 1)%Z (j0 + 1)%Z k0 comp * (1 - h 1%Z 1%Z)
           + arr (i0 + 1)%Z (j0 + 1)%Z (k0 + 1)%Z comp * h 1%Z 1%Z) * remainder lx)
       * remainder ly.
Proof.
  cbv zeta. unfold terrain_entry, terrain_sum_3d. cbv zeta.
  destruct (sz_weights_3d_entries p plo dxi height_arr (is_nodal d))
    as (-> & -> & -> & -> & -> & -> & -> & ->).
  rewrite !weight_pair_0, !weight_pair_1, !Z.add_0_r. ring.
Qed.

(** X15: in exact arithmetic, on a constant field the terrain-fitted
    kernel writes that constant in every entry it fills, on every terrain
    on which the vertical weights have a value: at each horizontal corner
    the two vertical weights sum to one. *)
Theorem terrain_kernel_reproduces_constants (dim : SpaceDim) (p : Particle)
    (plo dxi : GpuArray Real) (height_arr : Array4) (v : Real)
    (val : Z -> ParticleReal) (is_nodal : Z -> IntVect)
    (start_comp ncomp num_arrays : Z) (out : Z -> ParticleReal) (d c : Z) :
  linear_interpolate_to_particle_z dim p plo dxi height_arr (constant_field v) val
    is_nodal start_comp ncomp num_arrays = Returned out ->
  (0 <= d < num_arrays)%Z -> (0 <= c < ncomp - start_comp)%Z ->
  out (d * (ncomp - start_comp) + c)%Z == v.
Proof.
  intros H Hd Hc.
  destruct (terrain_kernel_entries p plo dxi height_arr (constant_field v) is_nodal
              start_comp ncomp val num_arrays dim out H) as [Hin _].
  rewrite (Hin d c Hd Hc).
  destruct dim; [discriminate H | |].
  - rewrite terrain_entry_Dim2. cbv zeta. unfold constant_field. ring.
  - rewrite terrain_entry_Dim3. cbv zeta. unfold constant_field. ring.
Qed.

(** X16: in exact arithmetic the terrain-fitted kernel is linear in the
    field data: on a terrain on which the vertical weights have a value
    (they depend on the particle and the terrain, not on the data), on
    [a * A + b * B] every entry it fills is [a] times the entry it fills on
    [A] plus [b] times the one it fills on [B]. *)
Theorem terrain_kernel_linear (dim : SpaceDim) (p : Particle)
    (plo dxi : GpuArray Real) (height_arr : Array4) (A B : Z -> Array4)
    (a b : Real) (val valA valB : Z -> ParticleReal) (is_nodal : Z -> IntVect)
    (start_comp ncomp num_arrays : Z) (outA outB : Z -> ParticleReal) :
  linear_interpolate_to_particle_z dim p plo dxi height_arr A valA is_nodal
    start_comp ncomp num_arrays = Returned outA ->
  linear_interpolate_to_particle_z dim p plo dxi height_arr B valB is_nodal
    start_comp ncomp num_arrays = Returned outB ->
  exists out,
    linear_interpolate_to_particle_z dim p plo dxi height_arr
      (fun d i j k n => a * A d i j k n + b * B d i j k n) val is_nodal
      start_comp ncomp num_arrays = Returned out
    /\ forall d c, (0 <= d < num_arrays)%Z -> (0 <= c < ncomp - start_comp)%Z ->
         out (d * (ncomp - start_comp) + c)%Z
         == a * outA (d * (ncomp - start_comp) + c)%Z
            + b * outB (d * (ncomp - start_comp) + c)%Z.
Proof.
  intros HA HB.
  assert (Hdim : dim <> Dim1) by (intros ->; discriminate HA).
  assert (Hret : exists out,
    linear_interpolate_to_particle_z dim p plo dxi height_arr
      (fun d i j k n => a * A d i j k n + b * B d i j k n) val is_nodal
      start_comp ncomp num_arrays = Returned out).
  { apply (terrain_kernel_returns_iff _ _ _ _ _ _ _ _ _ _ dim Hdim).
    apply (terrain_kernel_returns_iff p plo dxi height_arr A is_nodal
             start_comp ncomp valA num_arrays dim Hdim).
    eexists; exact HA. }
  destruct Hret as [out Hout]. exists out. split; [exact Hout|].
  intros d c Hd Hc.
  destruct (terrain_kernel_entries _ _ _ _ _ _ _ _ _ _ dim out Hout) as [E _].
  destruct (terrain_kernel_entries _ _ _ _ _ _ _ _ _ _ dim outA HA) as [EA _].
  destruct (terrain_kernel_entries _ _ _ _ _ _ _ _ _ _ dim outB HB) as [EB _].
  rewrite (E d c Hd Hc), (EA d c Hd Hc), (EB d c Hd Hc).
  destruct dim; [contradiction | |].
  - rewrite !terrain_entry_Dim2. cbv zeta. ring.
  - rewrite !terrain_entry_Dim3. cbv zeta. ring.
Qed.

Lemma terrain_output_buffer_layout_witness :
  exists out,
    linear_interpolate_to_particle_z Dim3 terrain_particle scenario_plo scenario_dxi
      level_terrain_3d (address_of scenario_field) (fun _ => -1)
      (address_of TheZeroVector) 0 2 1 = Returned out
    /\ (0 <= 0 < 1)%Z /\ (0 <= 1 < 2 - 0)%Z
    /\ out (0 * (2 - 0) + 1)%Z
       = terrain_entry terrain_particle scenario_plo scenario_dxi level_terrain_3d
           (address_of scenario_field) (address_of TheZeroVector) 0 Dim3 0 1
    /\ (2 < 0 \/ Z.max 0 1 * Z.max 0 (2 - 0) <= 2)%Z
    /\ out 2%Z = -1.
Proof.
  assert (Hd : (0 <= 0 < 1)%Z) by lia.
  assert (Hc : (0 <= 1 < 2 - 0)%Z) by lia.
  assert (Hj : (2 < 0 \/ Z.max 0 1 * Z.max 0 (2 - 0) <= 2)%Z)
    by (right; vm_compute; discriminate).
  destruct (proj2 (terrain_kernel_returns_iff terrain_particle scenario_plo
                     scenario_dxi level_terrain_3d (address_of scenario_field)
                     (address_of TheZeroVector) 0 2 (fun _ => -1) 1 Dim3
                     ltac:(discriminate))
              (fun d _ => eq_refl)) as [out H].
  exists out.
  pose proof (terrain_output_buffer_layout Dim3 terrain_particle scenario_plo
                scenario_dxi level_terrain_3d (address_of scenario_field)
                (fun _ => -1) (address_of TheZeroVector) 0 2 1 out H) as [Hin Hout].
  split; [exact H | split; [exact Hd | split; [exact Hc | split]]].
  - exact (Hin 0%Z 1%Z Hd Hc).
  - split; [exact Hj | exact (Hout 2%Z Hj)].
Defined.

Lemma terrain_kernel_reproduces_constants_witness :
  exists out,
    linear_interpolate_to_particle_z Dim3 terrain_particle scenario_plo scenario_dxi
      level_terrain_3d (constant_field 7) (fun _ => -1)
      (address_of TheZeroVector) 0 2 1 = Returned out
    /\ (0 <= 0 < 1)%Z /\ (0 <= 1 < 2 - 0)%Z
    /\ out (0 * (2 - 0) + 1)%Z == 7.
Proof.
  assert (Hd : (0 <= 0 < 1)%Z) by lia.
  assert (Hc : (0 <= 1 < 2 - 0)%Z) by lia.
  destruct (proj2 (terrain_kernel_returns_iff terrain_particle scenario_plo
                     scenario_dxi level_terrain_3d (constant_field 7)
                     (address_of TheZeroVector) 0 2 (fun _ => -1) 1 Dim3
                     ltac:(discriminate))
              (fun d _ => eq_refl)) as [out H].
  exists out. split; [exact H | split; [exact Hd | split; [exact Hc |]]].
  exact (terrain_kernel_reproduces_constants Dim3 terrain_particle scenario_plo
           scenario_dxi level_terrain_3d 7 (fun _ => -1) (address_of TheZeroVector)
           0 2 1 out 0 1 H Hd Hc).
Defined.

Lemma terrain_kernel_linear_witness :
  exists outA outB,
    linear_interpolate_to_particle_z Dim3 terrain_particle scenario_plo scenario_dxi
      level_terrain_3d (address_of scenario_field) (fun _ => 0)
      (address_of TheZeroVector) 0 1 1 = Returned outA
    /\ linear_interpolate_to_particle_z Dim3 terrain_particle scenario_plo
         scenario_dxi level_terrain_3d (constant_field 1) (fun _ => 0)
         (address_of TheZeroVector) 0 1 1 = Returned outB
    /\ exists out,
         linear_interpolate_to_particle_z Dim3 terrain_particle scenario_plo
           scenario_dxi level_terrain_3d
           (fun d i j k n => 2 * address_of scenario_field d i j k n
                             + 3 * constant_field 1 d i j k n)
           (fun _ => 0) (address_of TheZeroVector) 0 1 1 = Returned out
         /\ forall d c, (0 <= d < 1)%Z -> (0 <= c < 1 - 0)%Z ->
              out (d * (1 - 0) + c)%Z
              == 2 * outA (d * (1 - 0) + c)%Z + 3 * outB (d * (1 - 0) + c)%Z.
Proof.
  destruct (proj2 (terrain_kernel_returns_iff terrain_particle scenario_plo
                     scenario_dxi level_terrain_3d (address_of scenario_field)
                     (address_of TheZeroVector) 0 1 (fun _ => 0) 1 Dim3
                     ltac:(discriminate))
              (fun d _ => eq_refl)) as [outA HA].
  destruct (proj2 (terrain_kernel_returns_iff terrain_particle scenario_plo
                     scenario_dxi level_terrain_3d (constant_field 1)
                     (address_of TheZeroVector) 0 1 (fun _ => 0) 1 Dim3
                     ltac:(discriminate))
              (fun d _ => eq_refl)) as [outB HB].
  exists outA, outB. split; [exact HA | split; [exact HB |]].
  exact (terrain_kernel_linear Dim3 terrain_particle scenario_plo scenario_dxi
           level_terrain_3d (address_of scenario_field) (constant_field 1) 2 3
           (fun _ => 0) (fun _ => 0) (fun _ => 0) (address_of TheZeroVector)
           0 1 1 outA outB HA HB).
Defined.

Lemma quotient_in_unit_interval (z lo hi : Q) :
  lo <= z -> z < hi -> 0 <= (z - lo) / (hi - lo) /\ (z - lo) / (hi - lo) < 1.
Proof.
  intros Hlo Hhi. assert (Ht : 0 < hi - lo) by lra. split.
  - apply Qle_shift_div_l; [exact Ht | lra].
  - apply Qlt_shift_div_r; [exact Ht | lra].
Qed.

(** X17: in exact arithmetic, where the reconstructed heights bracket the
    particle at every horizontal corner (lower height <= position < upper
    height), the vertical weights [sz] (3D) and [sy] (2D) the kernel forms
    have a value, the upper weight of each corner is in [0,1) and the lower
    one is one less it, in (0,1]. *)
Theorem bracketed_particle_has_unit_weight (p : Particle) (plo dxi : GpuArray Real)
    (height_arr : Array4) (nodal : IntVect) :
  (let i0 := lower_corner (frac_index p plo dxi nodal 0) in
   let j0 := lower_corner (frac_index p plo dxi nodal 1) in
   let k0 := k0_3d p plo dxi height_arr nodal in
   (forall ii jj, (ii = 0 \/ ii = 1)%Z -> (jj = 0 \/ jj = 1)%Z ->
      height_3d height_arr nodal (i0 + ii) (j0 + jj) (k0 + 0) <= pos p 2
      /\ pos p 2 < height_3d height_arr nodal (i0 + ii) (j0 + jj) (k0 + 1)) ->
   exists sz,
     sz_3d p plo dxi height_arr nodal = Returned sz
     /\ forall ii jj, (ii = 0 \/ ii = 1)%Z -> (jj = 0 \/ jj = 1)%Z ->
          0 <= sz (4 + 2 * jj + ii)%Z /\ sz (4 + 2 * jj + ii)%Z < 1
          /\ sz (2 * jj + ii)%Z == 1 - sz (4 + 2 * jj + ii)%Z
          /\ 0 < sz (2 * jj + ii)%Z /\ sz (2 * jj + ii)%Z <= 1)
  /\ (let i0 := lower_corner (frac_index p plo dxi nodal 0) in
      let j0 := j0_2d p plo dxi height_arr nodal in
      (forall ii, (ii = 0 \/ ii = 1)%Z ->
         height_2d height_arr nodal (i0 + ii) (j0 + 0) 0 <= pos p 1
         /\ pos p 1 < height_2d height_arr nodal (i0 + ii) (j0 + 1) 0) ->
      exists sy,
        sy_2d p plo dxi height_arr nodal = Returned sy
        /\ forall ii, (ii = 0 \/ ii = 1)%Z ->
             0 <= sy (2 + ii)%Z /\ sy (2 + ii)%Z < 1
             /\ sy ii == 1 - sy (2 + ii)%Z
             /\ 0 < sy ii /\ sy ii <= 1).
Proof.
  split; cbv zeta; intros Hb.
  - assert (Hthick : columns_thick_3d p plo dxi height_arr nodal = true).
    { apply columns_thick_3d_iff. intros ii jj Hi Hj.
      destruct (Hb ii jj Hi Hj) as [Hlo Hhi].
      unfold column_thickness_3d. cbv zeta. lra. }
    exists (sz_weights_3d p plo dxi height_arr nodal).
    rewrite sz_3d_spec, Hthick. split; [reflexivity|].
    intros ii jj Hi Hj. destruct (Hb ii jj Hi Hj) as [Hlo Hhi].
    assert (Hq : 0 <= hint_3d p plo dxi height_arr nodal ii jj
                 /\ hint_3d p plo dxi height_arr nodal ii jj < 1).
    { unfold hint_3d, column_thickness_3d. cbv zeta.
      now apply quotient_in_unit_interval. }
    assert (E : sz_weights_3d p plo dxi height_arr nodal (4 + 2 * jj + ii)%Z
                = hint_3d p plo dxi height_arr nodal ii jj
                /\ sz_weights_3d p plo dxi height_arr nodal (2 * jj + ii)%Z
                   = 1 - hint_3d p plo dxi height_arr nodal ii jj).
    { destruct Hi as [-> | ->], Hj as [-> | ->]; split; reflexivity. }
    destruct E as [-> ->]. destruct Hq as [Hq0 Hq1].
    split; [exact Hq0 | split; [exact Hq1 | split; [reflexivity | lra]]].
  - assert (Hthick : columns_thick_2d p plo dxi height_arr nodal = true).
    { apply columns_thick_2d_iff. intros ii Hi.
      destruct (Hb ii Hi) as [Hlo Hhi].
      unfold column_thickness_2d. cbv zeta. lra. }
    exists (sy_weights_2d p plo dxi height_arr nodal).
    rewrite sy_2d_spec, Hthick. split; [reflexivity|].
    intros ii Hi. destruct (Hb ii Hi) as [Hlo Hhi].
    assert (Hq : 0 <= hint_2d p plo dxi height_arr nodal ii
                 /\ hint_2d p plo dxi height_arr nodal ii < 1).
    { unfold hint_2d, column_thickness_2d. cbv zeta.
      now apply quotient_in_unit_interval. }
    assert (E : sy_weights_2d p plo dxi height_arr nodal (2 + ii)%Z
                = hint_2d p plo dxi height_arr nodal ii
                /\ sy_weights_2d p plo dxi height_arr nodal ii
                   = 1 - hint_2d p plo dxi height_arr nodal ii).
    { destruct Hi as [-> | ->]; split; reflexivity. }
    destruct E as [-> ->]. destruct Hq as [Hq0 Hq1].
    split; [exact Hq0 | split; [exact Hq1 | split; [reflexivity | lra]]].
Qed.

Lemma bracketed_particle_has_unit_weight_witness :
  (forall ii jj, (ii = 0 \/ ii = 1)%Z -> (jj = 0 \/ jj = 1)%Z ->
     height_3d level_terrain_3d TheZeroVector
       (lower_corner (frac_index terrain_particle scenario_plo scenario_dxi
                        TheZeroVector 0) + ii)
       (lower_corner (frac_index terrain_particle scenario_plo scenario_dxi
                        TheZeroVector 1) + jj)
       (k0_3d terrain_particle scenario_plo scenario_dxi level_terrain_3d
          TheZeroVector + 0)
     <= pos terrain_particle 2
     /\ pos terrain_particle 2
        < height_3d level_terrain_3d TheZeroVector
            (lower_corner (frac_index terrain_particle scenario_plo scenario_dxi
                             TheZeroVector 0) + ii)
            (lower_corner (frac_index terrain_particle scenario_plo scenario_dxi
                             TheZeroVector 1) + jj)
            (k0_3d terrain_particle scenario_plo scenario_dxi level_terrain_3d
               TheZeroVector + 1))
  /\ exists sz,
       sz_3d terrain_particle scenario_plo scenario_dxi level_terrain_3d
         TheZeroVector = Returned sz
       /\ forall ii jj, (ii = 0 \/ ii = 1)%Z -> (jj = 0 \/ jj = 1)%Z ->
            0 <= sz (4 + 2 * jj + ii)%Z /\ sz (4 + 2 * jj + ii)%Z < 1
            /\ sz (2 * jj + ii)%Z == 1 - sz (4 + 2 * jj + ii)%Z
            /\ 0 < sz (2 * jj + ii)%Z /\ sz (2 * jj + ii)%Z <= 1.
Proof.
  assert (Hb : forall ii jj, (ii = 0 \/ ii = 1)%Z -> (jj = 0 \/ jj = 1)%Z ->
     height_3d level_terrain_3d TheZeroVector
       (lower_corner (frac_index terrain_particle scenario_plo scenario_dxi
                        TheZeroVector 0) + ii)
       (lower_corner (frac_index terrain_particle scenario_plo scenario_dxi
                        TheZeroVector 1) + jj)
       (k0_3d terrain_particle scenario_plo scenario_dxi level_terrain_3d
          TheZeroVector + 0)
     <= pos terrain_particle 2
     /\ pos terrain_particle 2
        < height_3d level_terrain_3d TheZeroVector
            (lower_corner (frac_index terrain_particle scenario_plo scenario_dxi
                             TheZeroVector 0) + ii)
            (lower_corner (frac_index terrain_particle scenario_plo scenario_dxi
                             TheZeroVector 1) + jj)
            (k0_3d terrain_particle scenario_plo scenario_dxi level_terrain_3d
               TheZeroVector + 1)).
  { intros ii jj [-> | ->] [-> | ->]; split;
      solve [vm_compute; discriminate | reflexivity]. }
  split; [exact Hb |].
  exact (proj1 (bracketed_particle_has_unit_weight terrain_particle scenario_plo
                  scenario_dxi level_terrain_3d TheZeroVector) Hb).
Defined.

(** ** The terrain-fitted kernel over level surfaces *)

(** With level surfaces [plo + k / dz], the height [plo + (k + s/2) / dz]
    is at or below [z] exactly when [k] is at or below the fractional
    index [(z - plo) * dz - s/2]. *)
Lemma level_height_below (plo_z dz z kq s : Q) :
  0 < dz ->
  (plo_z + (kq + s * (1 # 2)) / dz <= z <-> kq <= (z - plo_z) * dz - s * (1 # 2)).
Proof.
  intros Hdz.
  assert (E : z - (plo_z + (kq + s * (1 # 2)) / dz)
              == ((z - plo_z) * dz - s * (1 # 2) - kq) / dz) by (field; lra).
  split; intros H.
  - assert (H0 : 0 <= ((z - plo_z) * dz - s * (1 # 2) - kq) / dz)
      by (rewrite <- E; lra).
    assert (H1 : 0 <= ((z - plo_z) * dz - s * (1 # 2) - kq) / dz * dz)
      by (apply Qmult_le_0_compat; lra).
    assert (E1 : ((z - plo_z) * dz - s * (1 # 2) - kq) / dz * dz
                 == (z - plo_z) * dz - s * (1 # 2) - kq) by (field; lra).
    lra.
  - assert (H0 : 0 <= ((z - plo_z) * dz - s * (1 # 2) - kq) / dz).
    { apply Qle_shift_div_l; [exact Hdz | lra]. }
    lra.
Qed.

Lemma level_hint (plo_z dz z kq s : Q) :
  ~ dz == 0 ->
  (z - (plo_z + (kq + s * (1 # 2)) / dz))
  / ((plo_z + (kq + 1 + s * (1 # 2)) / dz) - (plo_z + (kq + s * (1 # 2)) / dz))
  == (z - plo_z) * dz - s * (1 # 2) - kq.
Proof. intros Hdz. field. split; [exact Hdz | lra]. Qed.

Lemma inject_Z_le_floor (k : Z) (l : Q) : inject_Z k <= l <-> (k <= Qfloor l)%Z.
Proof.
  split; intros H.
  - apply Qfloor_resp_le in H. now rewrite Qfloor_Z in H.
  - eapply Qle_trans; [|apply Qfloor_le]. now rewrite <- Zle_Qle.
Qed.

Section UniformTerrain3D.

Variable p : Particle.
Variables plo dxi : GpuArray Real.
Variable nodal : IntVect.
Hypothesis dz_pos : 0 < dxi 2%Z.


Lemma hlo_3d_uniform (i j k : Z) :
  hlo_3d (uniform_terrain_3d plo dxi) nodal i j k
  == plo 2%Z + (inject_Z k + bool_to_Real (lnot (nodal 2%Z)) * (1 # 2)) / dxi 2%Z.
Proof.
  unfold hlo_3d, height_at, uniform_terrain_3d, stagger, bool_to_int, bool_to_Real.
  destruct (lnot (nodal 2%Z)); rewrite ?inject_Z_plus, ?Z.add_0_r;
    change (inject_Z 1) with 1; field; lra.
Qed.

Lemma height_3d_uniform (i j k : Z) :
  height_3d (uniform_terrain_3d plo dxi) nodal i j k
  == plo 2%Z + (inject_Z k + bool_to_Real (lnot (nodal 2%Z)) * (1 # 2)) / dxi 2%Z.
Proof.
  unfold height_3d, height_at, uniform_terrain_3d, stagger, bool_to_int,
    bool_to_Real.
  destruct (lnot (nodal 2%Z)); rewrite ?inject_Z_plus, ?Z.add_0_r;
    change (inject_Z 1) with 1; field; lra.
Qed.

Lemma height_at_pxy_uniform :
  height_at_pxy p plo dxi (uniform_terrain_3d plo dxi) nodal
  == plo 2%Z + (inject_Z (idata p 0) + bool_to_Real (lnot (nodal 2%Z)) * (1 # 2))
               / dxi 2%Z.
Proof.
  rewrite height_at_pxy_blend. cbv zeta. rewrite !hlo_3d_uniform. ring.
Qed.

Lemma k0_3d_uniform :
  k0_3d p plo dxi (uniform_terrain_3d plo dxi) nodal
  = if (idata p 0 <=? Qfloor (frac_index p plo dxi nodal 2))%Z then idata p 0 else (idata p 0 - 1)%Z.
Proof.
  unfold k0_3d. cbv zeta.
  assert (E : Qle_bool (height_at_pxy p plo dxi (uniform_terrain_3d plo dxi) nodal) (pos p 2)
              = (idata p 0 <=? Qfloor (frac_index p plo dxi nodal 2))%Z).
  { apply eq_true_iff_eq. rewrite Qle_bool_iff, Z.leb_le, height_at_pxy_uniform.
    rewrite (level_height_below _ _ _ _ _ dz_pos). apply inject_Z_le_floor. }
  now rewrite E.
Qed.

Lemma hint_3d_uniform (ii jj : Z) :
  hint_3d p plo dxi (uniform_terrain_3d plo dxi) nodal ii jj
  == (frac_index p plo dxi nodal 2) - inject_Z (k0_3d p plo dxi (uniform_terrain_3d plo dxi) nodal).
Proof.
  unfold hint_3d, column_thickness_3d. cbv zeta.
  rewrite !height_3d_uniform, !inject_Z_plus.
  change (inject_Z 1) with 1. change (inject_Z 0) with 0.
  rewrite Qplus_0_r. rewrite level_hint by lra. reflexivity.
Qed.

Lemma column_thickness_3d_uniform (ii jj : Z) :
  ~ column_thickness_3d p plo dxi (uniform_terrain_3d plo dxi) nodal ii jj == 0.
Proof.
  unfold column_thickness_3d. cbv zeta.
  rewrite !height_3d_uniform, !inject_Z_plus.
  change (inject_Z 1) with 1. change (inject_Z 0) with 0.
  intros H.
  assert (E : plo 2%Z + (inject_Z (k0_3d p plo dxi (uniform_terrain_3d plo dxi) nodal) + 1
                         + bool_to_Real (lnot (nodal 2%Z)) * (1 # 2)) / dxi 2%Z
              - (plo 2%Z + (inject_Z (k0_3d p plo dxi (uniform_terrain_3d plo dxi) nodal) + 0
                            + bool_to_Real (lnot (nodal 2%Z)) * (1 # 2)) / dxi 2%Z)
              == / dxi 2%Z) by (field; lra).
  rewrite E in H. pose proof (Qinv_lt_0_compat _ dz_pos). lra.
Qed.

End UniformTerrain3D.

Lemma terrain_entry_uniform_3d (p : Particle) (plo dxi : GpuArray Real)
    (data_arr : Z -> Array4) (is_nodal : Z -> IntVect) (start_comp d c : Z) :
  0 < dxi 2%Z ->
  (idata p 0 = Qfloor (frac_index p plo dxi (is_nodal d) 2)
   \/ idata p 0 = (Qfloor (frac_index p plo dxi (is_nodal d) 2) + 1)%Z) ->
  terrain_entry p plo dxi (uniform_terrain_3d plo dxi) data_arr is_nodal start_comp
    Dim3 d c
  == interpolated Dim3 p plo dxi (data_arr d) (is_nodal d) (start_comp + c)%Z.
Proof.
  intros Hdz Hseed.
  assert (K : k0_3d p plo dxi (uniform_terrain_3d plo dxi) (is_nodal d)
              = lower_corner (frac_index p plo dxi (is_nodal d) 2)).
  { rewrite (k0_3d_uniform p plo dxi (is_nodal d) Hdz), lower_corner_floor.
    destruct (Z.leb_spec (idata p 0) (Qfloor (frac_index p plo dxi (is_nodal d) 2)));
      lia. }
  rewrite terrain_entry_Dim3, interpolated_Dim3. cbv zeta.
  rewrite !(hint_3d_uniform p plo dxi (is_nodal d) Hdz), K.
  unfold remainder, static_cast_Real. ring.
Qed.

(** X18: in exact arithmetic, in 3D, over level surfaces spaced like the
    grid ([dxi] positive along the vertical axis): write [l] for the
    fractional vertical index of an array, [(z - plo) * dxi], less one half
    where the array is cell-centered along that axis.  Where the seed index
    [idata(0)] is [floor l] or [floor l + 1] for every array, the
    terrain-fitted kernel returns and every entry of its buffer equals the
    one the orthogonal kernel computes. *)
Theorem terrain_kernel_on_level_surfaces_3d (p : Particle) (plo dxi : GpuArray Real)
    (data_arr : Z -> Array4) (val : Z -> ParticleReal) (is_nodal : Z -> IntVect)
    (start_comp ncomp num_arrays : Z) :
  0 < dxi 2%Z ->
  (forall d, (0 <= d < num_arrays)%Z ->
     idata p 0 = Qfloor (frac_index p plo dxi (is_nodal d) 2)
     \/ idata p 0 = (Qfloor (frac_index p plo dxi (is_nodal d) 2) + 1)%Z) ->
  exists out,
    linear_interpolate_to_particle_z Dim3 p plo dxi (uniform_terrain_3d plo dxi)
      data_arr val is_nodal start_comp ncomp num_arrays = Returned out
    /\ forall j,
         out j == linear_interpolate_to_particle Dim3 p plo dxi data_arr val
                    is_nodal start_comp ncomp num_arrays j.
Proof.
  intros Hdz Hseed.
  destruct (proj2 (terrain_kernel_returns_iff p plo dxi (uniform_terrain_3d plo dxi)
                     data_arr is_nodal start_comp ncomp val num_arrays Dim3
                     ltac:(discriminate))) as [out Hout].
  { intros d Hd. unfold columns_thick. apply columns_thick_3d_iff.
    intros ii jj _ _. now apply column_thickness_3d_uniform. }
  exists out. split; [exact Hout|]. intros j.
  destruct (terrain_kernel_entries _ _ _ _ _ _ _ _ _ _ Dim3 out Hout) as [Hin Hfr].
  rewrite kernel_value.
  destruct (Z.leb_spec 0 j) as [H0 | H0]; cbn [andb];
    [destruct (Z.ltb_spec j (Z.max 0 num_arrays * comps_visited start_comp ncomp))
       as [H1 | H1] |].
  - assert (Hn : (0 < comps_visited start_comp ncomp)%Z)
      by (unfold comps_visited in *; nia).
    assert (Hc : comps_visited start_comp ncomp = (ncomp - start_comp)%Z)
      by (unfold comps_visited in *; lia).
    rewrite Hc in *.
    pose proof (Z.div_mod j (ncomp - start_comp) ltac:(lia)) as Hdm.
    pose proof (Z.mod_pos_bound j (ncomp - start_comp) Hn) as Hm.
    assert (Hq : (0 <= j / (ncomp - start_comp) < num_arrays)%Z).
    { split; [apply Z.div_pos; lia | apply Z.div_lt_upper_bound; nia]. }
    replace j with (j / (ncomp - start_comp) * (ncomp - start_comp)
                    + j mod (ncomp - start_comp))%Z at 1 by lia.
    rewrite (Hin _ _ Hq Hm).
    apply terrain_entry_uniform_3d; [exact Hdz | now apply Hseed].
  - rewrite Hfr; [reflexivity|]. unfold comps_visited in H1. lia.
  - rewrite Hfr; [reflexivity|]. lia.
Qed.

Lemma terrain_kernel_on_level_surfaces_3d_witness :
  0 < scenario_dxi 2%Z
  /\ (forall d, (0 <= d < 1)%Z ->
        idata terrain_particle 0
        = Qfloor (frac_index terrain_particle scenario_plo scenario_dxi
                    (address_of TheZeroVector d) 2)
        \/ idata terrain_particle 0
           = (Qfloor (frac_index terrain_particle scenario_plo scenario_dxi
                        (address_of TheZeroVector d) 2) + 1)%Z)
  /\ exists out,
       linear_interpolate_to_particle_z Dim3 terrain_particle scenario_plo
         scenario_dxi (uniform_terrain_3d scenario_plo scenario_dxi)
         (address_of squares_field) (fun _ => 0) (address_of TheZeroVector) 0 1 1
       = Returned out
       /\ forall j,
            out j == linear_interpolate_to_particle Dim3 terrain_particle
                       scenario_plo scenario_dxi (address_of squares_field)
                       (fun _ => 0) (address_of TheZeroVector) 0 1 1 j.
Proof.
  assert (Hdz : 0 < scenario_dxi 2%Z) by reflexivity.
  assert (Hseed : forall d, (0 <= d < 1)%Z ->
        idata terrain_particle 0
        = Qfloor (frac_index terrain_particle scenario_plo scenario_dxi
                    (address_of TheZeroVector d) 2)
        \/ idata terrain_particle 0
           = (Qfloor (frac_index terrain_particle scenario_plo scenario_dxi
                        (address_of TheZeroVector d) 2) + 1)%Z).
  { intros d _. right. reflexivity. }
  split; [exact Hdz | split; [exact Hseed |]].
  exact (terrain_kernel_on_level_surfaces_3d terrain_particle scenario_plo
           scenario_dxi (address_of squares_field) (fun _ => 0)
           (address_of TheZeroVector) 0 1 1 Hdz Hseed).
Defined.

(** X19: in exact arithmetic, over such level surfaces in 3D, with [l] the
    fractional vertical index of the array (less one half where the array
    is cell-centered along that axis): the single correction step resolves
    the vertical index to [floor l], the lower index of the orthogonal
    stencil, exactly when the seed is [floor l] or [floor l + 1]; a lower
    seed is kept as it is and a seed above [floor l + 1] is lowered by one
    only. *)
Theorem single_step_needs_adjacent_seed (p : Particle) (plo dxi : GpuArray Real)
    (nodal : IntVect) :
  0 < dxi 2%Z ->
  let floor_l := lower_corner (frac_index p plo dxi nodal 2) in
  let k0 := k0_3d p plo dxi (uniform_terrain_3d plo dxi) nodal in
  floor_l = Qfloor ((pos p 2 - plo 2%Z) * dxi 2%Z
                    - bool_to_Real (lnot (nodal 2%Z)) * (1 # 2))
  /\ (k0 = floor_l <-> idata p 0 = floor_l \/ idata p 0 = (floor_l + 1)%Z)
  /\ ((idata p 0 < floor_l)%Z -> k0 = idata p 0)
  /\ ((floor_l + 1 < idata p 0)%Z -> k0 = (idata p 0 - 1)%Z).
Proof.
  intros Hdz. cbv zeta.
  rewrite (k0_3d_uniform p plo dxi nodal Hdz), lower_corner_floor.
  split; [reflexivity|].
  destruct (Z.leb_spec (idata p 0) (Qfloor (frac_index p plo dxi nodal 2))); lia.
Qed.

Lemma single_step_needs_adjacent_seed_witness :
  0 < scenario_dxi 2%Z
  /\ lower_corner (frac_index terrain_particle scenario_plo scenario_dxi
                     TheZeroVector 2) = 2%Z
  /\ idata terrain_particle 0
     = (lower_corner (frac_index terrain_particle scenario_plo scenario_dxi
                        TheZeroVector 2) + 1)%Z
  /\ k0_3d terrain_particle scenario_plo scenario_dxi
       (uniform_terrain_3d scenario_plo scenario_dxi) TheZeroVector
     = lower_corner (frac_index terrain_particle scenario_plo scenario_dxi
                       TheZeroVector 2)
  /\ (lower_corner (frac_index terrain_particle scenario_plo scenario_dxi
                      TheUnitVector 2) + 1
      < idata (mkParticle (pos terrain_particle) (fun _ => 9%Z)) 0)%Z
  /\ k0_3d (mkParticle (pos terrain_particle) (fun _ => 9%Z)) scenario_plo
       scenario_dxi (uniform_terrain_3d scenario_plo scenario_dxi) TheUnitVector
     = (9 - 1)%Z.
Proof.
  assert (Hdz : 0 < scenario_dxi 2%Z) by reflexivity.
  assert (Hf : lower_corner (frac_index terrain_particle scenario_plo scenario_dxi
                               TheZeroVector 2) = 2%Z) by reflexivity.
  assert (Hseed : idata terrain_particle 0
     = (lower_corner (frac_index terrain_particle scenario_plo scenario_dxi
                        TheZeroVector 2) + 1)%Z) by reflexivity.
  assert (Hs : (lower_corner (frac_index (mkParticle (pos terrain_particle)
                                            (fun _ => 9%Z))
                                scenario_plo scenario_dxi TheUnitVector 2) + 1
                < idata (mkParticle (pos terrain_particle) (fun _ => 9%Z)) 0)%Z)
    by reflexivity.
  split; [exact Hdz | split; [exact Hf | split; [exact Hseed | split]]].
  - exact (proj2 (proj1 (proj2 (single_step_needs_adjacent_seed terrain_particle
                                  scenario_plo scenario_dxi TheZeroVector Hdz)))
             (or_intror Hseed)).
  - split; [exact Hs |].
    exact (proj2 (proj2 (proj2 (single_step_needs_adjacent_seed
                           (mkParticle (pos terrain_particle) (fun _ => 9%Z))
                           scenario_plo scenario_dxi TheUnitVector Hdz))) Hs).
Defined.

Section UniformTerrain2D.

Variable p : Particle.
Variables plo dxi : GpuArray Real.
Variable nodal : IntVect.
Hypothesis dz_pos : 0 < dxi 1%Z.

Lemma height_2d_uniform (i j k : Z) :
  height_2d (uniform_terrain_2d plo dxi) nodal i j k
  == plo 1%Z + (inject_Z j + bool_to_Real (lnot (nodal 1%Z)) * (1 # 2)) / dxi 1%Z.
Proof.
  unfold height_2d, height_at, uniform_terrain_2d, stagger, bool_to_int, bool_to_Real.
  destruct (lnot (nodal 1%Z)); rewrite ?inject_Z_plus, ?Z.add_0_r;
    change (inject_Z 1) with 1; field; lra.
Qed.

Lemma height_at_px_uniform :
  height_at_px p plo dxi (uniform_terrain_2d plo dxi) nodal
  == plo 1%Z + (inject_Z (idata p 0) + bool_to_Real (lnot (nodal 1%Z)) * (1 # 2))
               / dxi 1%Z.
Proof.
  unfold height_at_px. cbv zeta.
  rewrite !height_2d_uniform, weight_pair_0, weight_pair_1. ring.
Qed.

Lemma j0_2d_uniform :
  j0_2d p plo dxi (uniform_terrain_2d plo dxi) nodal
  = if (idata p 0 <=? Qfloor (frac_index p plo dxi nodal 1))%Z
    then idata p 0 else (idata p 0 - 1)%Z.
Proof.
  unfold j0_2d. cbv zeta.
  assert (E : Qle_bool (height_at_px p plo dxi (uniform_terrain_2d plo dxi) nodal)
                (pos p 1)
              = (idata p 0 <=? Qfloor (frac_index p plo dxi nodal 1))%Z).
  { apply eq_true_iff_eq. rewrite Qle_bool_iff, Z.leb_le, height_at_px_uniform.
    rewrite (level_height_below _ _ _ _ _ dz_pos). apply inject_Z_le_floor. }
  now rewrite E.
Qed.

Lemma hint_2d_uniform (ii : Z) :
  hint_2d p plo dxi (uniform_terrain_2d plo dxi) nodal ii
  == frac_index p plo dxi nodal 1
     - inject_Z (j0_2d p plo dxi (uniform_terrain_2d plo dxi) nodal).
Proof.
  unfold hint_2d, column_thickness_2d. cbv zeta.
  rewrite !height_2d_uniform, !inject_Z_plus.
  change (inject_Z 1) with 1. change (inject_Z 0) with 0.
  rewrite Qplus_0_r. rewrite level_hint by lra. reflexivity.
Qed.

Lemma column_thickness_2d_uniform (ii : Z) :
  ~ column_thickness_2d p plo dxi (uniform_terrain_2d plo dxi) nodal ii == 0.
Proof.
  unfold column_thickness_2d. cbv zeta.
  rewrite !height_2d_uniform, !inject_Z_plus.
  change (inject_Z 1) with 1. change (inject_Z 0) with 0.
  intros H.
  assert (E : plo 1%Z
              + (inject_Z (j0_2d p plo dxi (uniform_terrain_2d plo dxi) nodal) + 1
                 + bool_to_Real (lnot (nodal 1%Z)) * (1 # 2)) / dxi 1%Z
              - (plo 1%Z
                 + (inject_Z (j0_2d p plo dxi (uniform_terrain_2d plo dxi) nodal) + 0
                    + bool_to_Real (lnot (nodal 1%Z)) * (1 # 2)) / dxi 1%Z)
              == / dxi 1%Z) by (field; lra).
  rewrite E in H. pose proof (Qinv_lt_0_compat _ dz_pos). lra.
Qed.

End UniformTerrain2D.

Lemma terrain_entry_uniform_2d (p : Particle) (plo dxi : GpuArray Real)
    (data_arr : Z -> Array4) (is_nodal : Z -> IntVect) (start_comp d c : Z) :
  0 < dxi 1%Z ->
  (idata p 0 = Qfloor (frac_index p plo dxi (is_nodal d) 1)
   \/ idata p 0 = (Qfloor (frac_index p plo dxi (is_nodal d) 1) + 1)%Z) ->
  terrain_entry p plo dxi (uniform_terrain_2d plo dxi) data_arr is_nodal start_comp
    Dim2 d c
  == interpolated Dim2 p plo dxi (data_arr d) (is_nodal d) (start_comp + c)%Z.
Proof.
  intros Hdz Hseed.
  assert (K : j0_2d p plo dxi (uniform_terrain_2d plo dxi) (is_nodal d)
              = lower_corner (frac_index p plo dxi (is_nodal d) 1)).
  { rewrite (j0_2d_uniform p plo dxi (is_nodal d) Hdz), lower_corner_floor.
    destruct (Z.leb_spec (idata p 0) (Qfloor (frac_index p plo dxi (is_nodal d) 1)));
      lia. }
  rewrite terrain_entry_Dim2, interpolated_Dim2. cbv zeta.
  rewrite !(hint_2d_uniform p plo dxi (is_nodal d) Hdz), K.
  unfold remainder, static_cast_Real. ring.
Qed.

(** X20: in exact arithmetic, in 2D, the vertical axis being the second
    one, over level surfaces spaced like the grid ([dxi] positive along
    that axis): write [l] for the fractional vertical index of an array,
    [(y - plo) * dxi], less one half where the array is cell-centered along
    that axis.  Where the seed index [idata(0)] is [floor l] or
    [floor l + 1] for every array, the terrain-fitted kernel returns and
    every entry of its buffer equals the one the orthogonal kernel
    computes. *)
Theorem terrain_kernel_on_level_surfaces_2d (p : Particle) (plo dxi : GpuArray Real)
    (data_arr : Z -> Array4) (val : Z -> ParticleReal) (is_nodal : Z -> IntVect)
    (start_comp ncomp num_arrays : Z) :
  0 < dxi 1%Z ->
  (forall d, (0 <= d < num_arrays)%Z ->
     idata p 0 = Qfloor (frac_index p plo dxi (is_nodal d) 1)
     \/ idata p 0 = (Qfloor (frac_index p plo dxi (is_nodal d) 1) + 1)%Z) ->
  exists out,
    linear_interpolate_to_particle_z Dim2 p plo dxi (uniform_terrain_2d plo dxi)
      data_arr val is_nodal start_comp ncomp num_arrays = Returned out
    /\ forall j,
         out j == linear_interpolate_to_particle Dim2 p plo dxi data_arr val
                    is_nodal start_comp ncomp num_arrays j.
Proof.
  intros Hdz Hseed.
  destruct (proj2 (terrain_kernel_returns_iff p plo dxi (uniform_terrain_2d plo dxi)
                     data_arr is_nodal start_comp ncomp val num_arrays Dim2
                     ltac:(discriminate))) as [out Hout].
  { intros d Hd. unfold columns_thick. apply columns_thick_2d_iff.
    intros ii _. now apply column_thickness_2d_uniform. }
  exists out. split; [exact Hout|]. intros j.
  destruct (terrain_kernel_entries _ _ _ _ _ _ _ _ _ _ Dim2 out Hout) as [Hin Hfr].
  rewrite kernel_value.
  destruct (Z.leb_spec 0 j) as [H0 | H0]; cbn [andb];
    [destruct (Z.ltb_spec j (Z.max 0 num_arrays * comps_visited start_comp ncomp))
       as [H1 | H1] |].
  - assert (Hn : (0 < comps_visited start_comp ncomp)%Z)
      by (unfold comps_visited in *; nia).
    assert (Hc : comps_visited start_comp ncomp = (ncomp - start_comp)%Z)
      by (unfold comps_visited in *; lia).
    rewrite Hc in *.
    pose proof (Z.div_mod j (ncomp - start_comp) ltac:(lia)) as Hdm.
    pose proof (Z.mod_pos_bound j (ncomp - start_comp) Hn) as Hm.
    assert (Hq : (0 <= j / (ncomp - start_comp) < num_arrays)%Z).
    { split; [apply Z.div_pos; lia | apply Z.div_lt_upper_bound; nia]. }
    replace j with (j / (ncomp - start_comp) * (ncomp - start_comp)
                    + j mod (ncomp - start_comp))%Z at 1 by lia.
    rewrite (Hin _ _ Hq Hm).
    apply terrain_entry_uniform_2d; [exact Hdz | now apply Hseed].
  - rewrite Hfr; [reflexivity|]. unfold comps_visited in H1. lia.
  - rewrite Hfr; [reflexivity|]. lia.
Qed.

Lemma terrain_kernel_on_level_surfaces_2d_witness :
  0 < scenario_dxi 1%Z
  /\ (forall d, (0 <= d < 1)%Z ->
        idata terrain_particle 0
        = Qfloor (frac_index terrain_particle scenario_plo scenario_dxi
                    (address_of TheZeroVector d) 1)
        \/ idata terrain_particle 0
           = (Qfloor (frac_index terrain_particle scenario_plo scenario_dxi
                        (address_of TheZeroVector d) 1) + 1)%Z)
  /\ exists out,
       linear_interpolate_to_particle_z Dim2 terrain_particle scenario_plo
         scenario_dxi (uniform_terrain_2d scenario_plo scenario_dxi)
         (address_of squares_field) (fun _ => 0) (address_of TheZeroVector) 0 1 1
       = Returned out
       /\ forall j,
            out j == linear_interpolate_to_particle Dim2 terrain_particle
                       scenario_plo scenario_dxi (address_of squares_field)
                       (fun _ => 0) (address_of TheZeroVector) 0 1 1 j.
Proof.
  assert (Hdz : 0 < scenario_dxi 1%Z) by reflexivity.
  assert (Hseed : forall d, (0 <= d < 1)%Z ->
        idata terrain_particle 0
        = Qfloor (frac_index terrain_particle scenario_plo scenario_dxi
                    (address_of TheZeroVector d) 1)
        \/ idata terrain_particle 0
           = (Qfloor (frac_index terrain_particle scenario_plo scenario_dxi
                        (address_of TheZeroVector d) 1) + 1)%Z).
  { intros d _. right. reflexivity. }
  split; [exact Hdz | split; [exact Hseed |]].
  exact (terrain_kernel_on_level_surfaces_2d terrain_particle scenario_plo
           scenario_dxi (address_of squares_field) (fun _ => 0)
           (address_of TheZeroVector) 0 1 1 Hdz Hseed).
Defined.

(** ** Integer powers: laws of [powi] *)

Section PowiLaws.

Variable T : Type.
Variable one : T.
Variables mul div : T -> T -> T.

Hypothesis mul_assoc : forall a b c, mul a (mul b c) = mul (mul a b) c.
Hypothesis mul_one_l : forall a, mul one a = a.
Hypothesis mul_one_r : forall a, mul a one = a.

Lemma repeated_product_mul (a b : nat) (x : T) :
  repeated_product T one mul (a * b) x
  = repeated_product T one mul a (repeated_product T one mul b x).
Proof.
  induction a as [|a IH]; cbn [Nat.mul repeated_product].
  - reflexivity.
  - rewrite (repeated_product_add T one mul mul_assoc mul_one_l), IH. reflexivity.
Qed.

(** X21: exponents add: for [a, b >= 0], [powi<a+b>(x)] is
    [powi<a>(x) * powi<b>(x)], in exact arithmetic. *)
Theorem powi_exponents_add (a b : Z) (x : T) :
  (0 <= a)%Z -> (0 <= b)%Z ->
  powi T one mul div (a + b) x
  = mul (powi T one mul div a x) (powi T one mul div b x).
Proof.
  intros Ha Hb.
  rewrite (powi_nonneg T one mul div mul_assoc mul_one_l mul_one_r
             (Z.to_nat (a + b)) (a + b) x eq_refl ltac:(lia)).
  rewrite (powi_nonneg T one mul div mul_assoc mul_one_l mul_one_r
             (Z.to_nat a) a x eq_refl Ha).
  rewrite (powi_nonneg T one mul div mul_assoc mul_one_l mul_one_r
             (Z.to_nat b) b x eq_refl Hb).
  rewrite Z2Nat.inj_add by assumption.
  apply (repeated_product_add T one mul mul_assoc mul_one_l).
Qed.

(** X22: exponents multiply: for [a, b >= 0], [powi<a>(powi<b>(x))] is
    [powi<a*b>(x)], in exact arithmetic. *)
Theorem powi_exponents_multiply (a b : Z) (x : T) :
  (0 <= a)%Z -> (0 <= b)%Z ->
  powi T one mul div a (powi T one mul div b x)
  = powi T one mul div (a * b) x.
Proof.
  intros Ha Hb.
  rewrite (powi_nonneg T one mul div mul_assoc mul_one_l mul_one_r
             (Z.to_nat (a * b)) (a * b) x eq_refl ltac:(nia)).
  rewrite (powi_nonneg T one mul div mul_assoc mul_one_l mul_one_r
             (Z.to_nat b) b x eq_refl Hb).
  rewrite (powi_nonneg T one mul div mul_assoc mul_one_l mul_one_r
             (Z.to_nat a) a _ eq_refl Ha).
  rewrite Z2Nat.inj_mul by assumption.
  symmetry. apply repeated_product_mul.
Qed.

End PowiLaws.

Lemma powi_exponents_add_witness :
  (0 <= 3)%Z /\ (0 <= 4)%Z
  /\ powi Q 1 Qmult Qdiv (3 + 4) (3 # 2)
     = Qmult (powi Q 1 Qmult Qdiv 3 (3 # 2)) (powi Q 1 Qmult Qdiv 4 (3 # 2)).
Proof.
  assert (Ha : (0 <= 3)%Z) by lia. assert (Hb : (0 <= 4)%Z) by lia.
  split; [exact Ha | split; [exact Hb |]].
  exact (powi_exponents_add Q 1 Qmult Qdiv Qmult_assoc_eq Qmult_one_l_eq
           Qmult_one_r_eq 3 4 (3 # 2) Ha Hb).
Defined.

Lemma powi_exponents_multiply_witness :
  (0 <= 3)%Z /\ (0 <= 4)%Z
  /\ powi Q 1 Qmult Qdiv 3 (powi Q 1 Qmult Qdiv 4 (3 # 2))
     = powi Q 1 Qmult Qdiv (3 * 4) (3 # 2).
Proof.
  assert (Ha : (0 <= 3)%Z) by lia. assert (Hb : (0 <= 4)%Z) by lia.
  split; [exact Ha | split; [exact Hb |]].
  exact (powi_exponents_multiply Q 1 Qmult Qdiv Qmult_assoc_eq Qmult_one_l_eq
           Qmult_one_r_eq 3 4 (3 # 2) Ha Hb).
Defined.

Lemma repeated_product_Qpower (n : nat) (x : Q) :
  repeated_product Q 1 Qmult n x == x ^ Z.of_nat n.
Proof.
  induction n as [|n IH].
  - reflexivity.
  - cbn [repeated_product]. rewrite IH.
    replace (Z.of_nat (S n)) with (1 + Z.of_nat n)%Z by lia.
    rewrite Qpower_plus' by lia. rewrite Qpower_1_r. reflexivity.
Qed.

(** X23: on the rationals [powi<Power>(x)] is the integer power
    [x ^ Power], for every [Power >= 0] and, where [x] is not zero, for
    every negative [Power] too. *)
Theorem powi_is_Qpower (Power : Z) (x : Q) :
  (0 <= Power)%Z \/ ~ x == 0 ->
  powi Q 1 Qmult Qdiv Power x == x ^ Power.
Proof.
  intros _. destruct (Z_lt_dec Power 0) as [Hneg | Hpos].
  - rewrite powi_body. destruct (Z_lt_dec Power 0); [|lia].
    rewrite (powi_nonneg Q 1 Qmult Qdiv Qmult_assoc_eq Qmult_one_l_eq Qmult_one_r_eq
               (Z.to_nat (- Power)) (- Power) x eq_refl ltac:(lia)).
    rewrite repeated_product_Qpower, Z2Nat.id by lia.
    rewrite Qpower_opp. unfold Qdiv. rewrite Qmult_1_l, Qinv_involutive. reflexivity.
  - rewrite (powi_nonneg Q 1 Qmult Qdiv Qmult_assoc_eq Qmult_one_l_eq Qmult_one_r_eq
               (Z.to_nat Power) Power x eq_refl ltac:(lia)).
    rewrite repeated_product_Qpower, Z2Nat.id by lia. reflexivity.
Qed.

Lemma powi_is_Qpower_witness :
  ((0 <= -3)%Z \/ ~ (3 # 2) == 0)
  /\ powi Q 1 Qmult Qdiv (-3) (3 # 2) == (3 # 2) ^ (-3).
Proof.
  assert (H : (0 <= -3)%Z \/ ~ (3 # 2) == 0) by (right; vm_compute; discriminate).
  split; [exact H|].
  exact (powi_is_Qpower (-3) (3 # 2) H).
Defined.

Lemma repeated_product_Zpow (n : nat) (x : Z) :
  repeated_product Z 1%Z Z.mul n x = (x ^ Z.of_nat n)%Z.
Proof.
  induction n as [|n IH].
  - reflexivity.
  - cbn [repeated_product]. rewrite IH, Nat2Z.inj_succ, Z.pow_succ_r by lia.
    reflexivity.
Qed.

(** X24: on the integers, for [Power >= 0], [powi<Power>(x)] is the
    integer power [x ^ Power]. *)
Theorem powi_is_Zpow (Power : Z) (x : Z) :
  (0 <= Power)%Z ->
  powi Z 1%Z Z.mul Z.quot Power x = (x ^ Power)%Z.
Proof.
  intros H.
  rewrite (powi_nonneg Z 1%Z Z.mul Z.quot Z.mul_assoc Z.mul_1_l Z.mul_1_r
             (Z.to_nat Power) Power x eq_refl H).
  rewrite repeated_product_Zpow, Z2Nat.id by lia. reflexivity.
Qed.

Lemma powi_is_Zpow_witness :
  (0 <= 10)%Z /\ powi Z 1%Z Z.mul Z.quot 10 (-2)%Z = ((-2) ^ 10)%Z.
Proof.
  assert (H : (0 <= 10)%Z) by lia.
  split; [exact H | exact (powi_is_Zpow 10 (-2) H)].
Defined.
